(** * The asyn reactor core of Cynical Calendars, embedded in Rocq

    The development follows the Python sources under
    [Server Plugin/asyn/]: [core.py] (callback funnels), [scan.py]
    (scanners), [http_chunk.py] and [zfilter.py] (filters),
    [controller.py] (timers), [selectable.py] (descriptor objects) and
    [inject.py] (cross-thread injection).

    Conventions.  A Python 2 [str] is a list of characters; Python
    integers are [Z], and Python floats, where their arithmetic
    matters, are the binary64 numbers of [PrimFloat]; an object that is
    mutated in place and shared is
    a reference into an explicit store; a method that can raise returns
    the state it left behind together with the value or the exception. *)

From stdpp Require Import gmap strings list.
From Stdlib Require Import ZArith Lia Ascii PrimFloat.

Local Open Scope Z_scope.

(** ** Python values, byte strings and exceptions *)

Module Py.

Definition bytes := list ascii.

(** A byte string literal. *)
Definition bs (s : string) : bytes := String.list_ascii_of_string s.

Definition CR : ascii := "013"%char.
Definition LF : ascii := "010"%char.
Definition CRLF : bytes := [CR; LF].

(** [len(s)] as a Python integer. *)
Definition len {A} (s : list A) : Z := Z.of_nat (length s).

(** The position a slice bound [i] denotes in a sequence of length [n]:
    negative bounds count from the end, and every bound is clamped. *)
Definition slice_index (n : nat) (i : Z) : nat :=
  if i <? 0 then Z.to_nat (Z.max 0 (Z.of_nat n + i))
  else Z.to_nat (Z.min i (Z.of_nat n)).

(** [s[:j]] *)
Definition slice_to {A} (s : list A) (j : Z) : list A :=
  take (slice_index (length s) j) s.

(** [s[i:]] *)
Definition slice_from {A} (s : list A) (i : Z) : list A :=
  drop (slice_index (length s) i) s.

(** [s[i:j]] *)
Definition slice {A} (s : list A) (i j : Z) : list A :=
  let lo := slice_index (length s) i in
  let hi := slice_index (length s) j in
  take (hi - lo)%nat (drop lo s).

Fixpoint startswith (s p : bytes) : bool :=
  match p, s with
  | [], _ => true
  | _ :: _, [] => false
  | c :: p', d :: s' => if Ascii.eqb c d then startswith s' p' else false
  end.

Fixpoint find_from (s sub : bytes) (k : Z) : Z :=
  if startswith s sub then k
  else match s with
       | [] => -1
       | _ :: s' => find_from s' sub (k + 1)
       end.

(** [s.find(sub)]: the lowest index where [sub] starts, or [-1]. *)
Definition find (s sub : bytes) : Z := find_from s sub 0.

(** [s.partition(sep)[0]] for a one-character separator. *)
Fixpoint partition_head (s : bytes) (sep : ascii) : bytes :=
  match s with
  | [] => []
  | c :: s' => if Ascii.eqb c sep then [] else c :: partition_head s' sep
  end.

Inductive exn :=
| ValueError
| TypeError
| KeyError
| IndexError
| AttributeError
| AssertionError
| RuntimeError
| ZlibError
| OSError (errno : Z)
| UserError (tag : nat)
| SystemExit
| KeyboardInterrupt.

#[global] Instance exn_eq_dec : EqDecision exn.
Proof. solve_decision. Defined.

(** [isinstance(e, Exception)]: every exception but [SystemExit] and
    [KeyboardInterrupt], which derive from [BaseException] directly. *)
Definition is_Exception (e : exn) : bool :=
  match e with
  | SystemExit | KeyboardInterrupt => false
  | _ => true
  end.

#[warnings="-register-all"]
Inductive pyval :=
| PNone
| PBool (b : bool)
| PInt (z : Z)
| PStr (s : bytes)
| PRef (r : nat)
| PList (l : list pyval).

(** Python truth value testing. *)
Definition truthy (v : pyval) : bool :=
  match v with
  | PNone => false
  | PBool b => b
  | PInt z => negb (z =? 0)
  | PStr s => match s with [] => false | _ => true end
  | PRef _ => true
  | PList l => match l with [] => false | _ => true end
  end.

Definition is_None (v : pyval) : bool :=
  match v with PNone => true | _ => false end.

End Py.
Import Py.

(** ** A state monad with exceptions

    [M S A] is a Python method acting on state [S]: it always leaves a
    state behind, and either returns an [A] or raises. *)

Definition M (S A : Type) : Type := S -> S * (exn + A).

Definition ret {S A} (a : A) : M S A := fun s => (s, inr a).
Definition raise {S A} (e : exn) : M S A := fun s => (s, inl e).
Definition bind {S A B} (m : M S A) (k : A -> M S B) : M S B :=
  fun s => match m s with
           | (s', inl e) => (s', inl e)
           | (s', inr a) => k a s'
           end.
(** Whether a call came back with a value. *)
Definition returns {A} (r : exn + A) : bool :=
  match r with inr _ => true | inl _ => false end.

Definition get {S} : M S S := fun s => (s, inr s).
Definition put {S} (s : S) : M S unit := fun _ => (s, inr tt).
Definition modify {S} (f : S -> S) : M S unit := fun s => (f s, inr tt).

Declare Scope py_scope.
Delimit Scope py_scope with py.
Notation "'do' x <~ m ; k" := (bind m (fun x => k))
  (at level 10, x name, m at level 100, k at level 200,
   format "'[v' 'do'  x  <~  m ; '/' k ']'") : py_scope.
Local Open Scope py_scope.

Example bind_example :
  (do x <~ ret 1; do _ <~ modify (Z.add x); ret tt) 41 = (42, inr tt).
Proof. reflexivity. Qed.

(** ** asyn/core.py: contexts and callback funnels *)

Module Core.

(** [class Context]: the state name, the carried exception ([None] for
    non-error contexts) and the keyword attributes. *)
Record Context := mkContext {
  state : string;
  error : option exn;
  fields : list (string * pyval)
}.

(** [Context(state)] *)
Definition Context_of (st : string) : Context := mkContext st None [].

(** [Error(error)]: [Context.__init__(self, 'ERROR')], then
    [self.error = error]. *)
Definition Error_of (e : exn) : Context := mkContext "ERROR" (Some e) [].

(** What a caller may hand to [callout] as its first argument. *)
Inductive ctx_arg :=
| ACtx (c : Context)
| AStr (s : string)
| AExn (e : exn)
| AOther (v : pyval).

(** The head of [callout]: a string becomes a minimal Context, an
    [Exception] an Error context; anything else fails the assertion. *)
Definition as_context (a : ctx_arg) : option Context :=
  match a with
  | ACtx c => Some c
  | AStr s => Some (Context_of s)
  | AExn e => if is_Exception e then Some (Error_of e) else None
  | AOther _ => None
  end.

(** A registered Python callable, by identity. *)
Definition callee := nat.

Definition reducer := pyval -> pyval -> pyval.

(** [lambda a, b: a or b] *)
Definition default_reducer : reducer := fun a b => if truthy a then a else b.

(** [class Callable] *)
Record Callable := mkCallable {
  _callbacks : list callee;
  _callback_reducer : option reducer
}.

Definition set_callbacks (l : list callee) (c : Callable) : Callable :=
  mkCallable l (_callback_reducer c).

(** [Callable.__init__(callout)] *)
Definition Callable_init (callout : option callee) : Callable :=
  mkCallable (match callout with Some c => [c] | None => [] end)
             (Some default_reducer).

(** [set_callout(callee)] *)
Definition set_callout (c : option callee) (self : Callable) : Callable :=
  set_callbacks (match c with Some c => [c] | None => [] end) self.

(** [add_callout(callee)]: a false callee is not added. *)
Definition add_callout (c : option callee) (self : Callable) : Callable :=
  match c with
  | Some c => set_callbacks (_callbacks self ++ [c]) self
  | None => self
  end.

(** [list.remove(x)]: drop the first occurrence, [None] when there is
    none (Python raises ValueError). *)
Fixpoint list_remove (x : callee) (l : list callee) : option (list callee) :=
  match l with
  | [] => None
  | y :: l' => if decide (y = x) then Some l'
               else option_map (cons y) (list_remove x l')
  end.

(** [remove_callout(callee, required=True)] *)
Definition remove_callout (c : callee) (required : bool) : M Callable unit :=
  fun self =>
    match list_remove c (_callbacks self) with
    | Some l => (set_callbacks l self, inr tt)
    | None => if required then (self, inl ValueError) else (self, inr tt)
    end.

(** [clear_callouts()] *)
Definition clear_callouts (self : Callable) : Callable := set_callbacks [] self.

(** [has_callouts()] *)
Definition has_callouts (self : Callable) : bool :=
  match _callbacks self with [] => false | _ => true end.

(** [has_callout(callee)] *)
Definition has_callout (c : callee) (self : Callable) : bool :=
  bool_decide (c ∈ _callbacks self).

(** [set_callout_reduce(reducer)] *)
Definition set_callout_reduce (r : option reducer) (self : Callable) : Callable :=
  mkCallable (_callbacks self) r.

Section Funnel.

(** The state the registered callables can reach besides the Callable
    itself (their closures, the objects they hold). *)
Context {W : Type}.

(** What calling a registered callable does: it may change the Callable
    (through the methods above, in any combination) and its own state,
    and returns a value or raises. *)
Definition observers := callee -> Context -> list pyval -> M (Callable * W) pyval.

(** [[cb(ctx, *args) for cb in latched]]: the calls are made in list
    order against the current state; the third component records which
    callables were entered.  An exception ends the comprehension. *)
Fixpoint call_each (obs : observers) (latched : list callee) (ctx : Context)
    (args : list pyval) (s : Callable * W)
    : (Callable * W) * (exn + list pyval) * list callee :=
  match latched with
  | [] => (s, inr [], [])
  | cb :: rest =>
      match obs cb ctx args s with
      | (s', inl e) => (s', inl e, [cb])
      | (s', inr v) =>
          let '(s'', r, tr) := call_each obs rest ctx args s' in
          (s'', match r with inl e => inl e | inr vs => inr (v :: vs) end, cb :: tr)
      end
  end.

(** [callout(ctx, *args)].  [list(self._callbacks)] copies the list
    before the first call, so the comprehension walks the copy while the
    callables act on [self]; the reducer is read after the calls. *)
Definition callout (obs : observers) (ctx : ctx_arg) (args : list pyval)
    (s : Callable * W) : (Callable * W) * (exn + pyval) * list callee :=
  match as_context ctx with
  | None => (s, inl AssertionError, [])
  | Some c =>
      let latched := _callbacks (fst s) in
      let '(s', r, tr) := call_each obs latched c args s in
      match r with
      | inl e => (s', inl e, tr)
      | inr results =>
          match _callback_reducer (fst s') with
          | Some f => (s', inr (fold_left f results PNone), tr)
          | None => (s', inr (PList results), tr)
          end
      end
  end.

(** Operations a client performs on a Callable, one after the other. *)
Inductive op :=
| Add (c : option callee)
| Remove (c : callee) (required : bool)
| SetCallout (c : option callee)
| Clear
| Callout (ctx : ctx_arg) (args : list pyval).

(** One [callout()] as seen from outside: the callback list when it was
    entered, the callables it entered, and whether it returned. *)
Record emission := mkEmission {
  at_entry : list callee;
  entered : list callee;
  returned : bool
}.

Definition lift_self (f : Callable -> Callable) (s : Callable * W) : Callable * W :=
  (f (fst s), snd s).

(** Run the operations in order and collect what each [callout()] did.
    An exception is caught by the client, which then goes on. *)
Fixpoint run_ops (obs : observers) (ops : list op) (s : Callable * W)
    : list emission :=
  match ops with
  | [] => []
  | Add c :: ops' => run_ops obs ops' (lift_self (add_callout c) s)
  | Remove c req :: ops' =>
      run_ops obs ops' (fst (remove_callout c req (fst s)), snd s)
  | SetCallout c :: ops' => run_ops obs ops' (lift_self (set_callout c) s)
  | Clear :: ops' => run_ops obs ops' (lift_self clear_callouts s)
  | Callout ctx args :: ops' =>
      let '(s', r, tr) := callout obs ctx args s in
      mkEmission (_callbacks (fst s)) tr (returns r)
        :: run_ops obs ops' s'
  end.

End Funnel.

End Core.

(** ** asyn/scan.py: scanners and the objects that feed them *)

Module Scan.

(** One call of the [callout] a scanner is handed: the first argument,
    the positional arguments after it, and the keyword arguments. *)
Record call := mkCall {
  c_ctx : Core.ctx_arg;
  c_args : list pyval;
  c_kwargs : list (string * pyval)
}.

(** [RAW = Context('RAW')] *)
Definition RAW : Core.Context := Core.Context_of "RAW".

(** A compiled regular expression stands for its [match] method, which
    is all [Regex.scan] uses of it: [pattern.match(buffer)] is [None] or
    a match object, of which [scan] reads [m.end(0)] and [m.groups()]. *)
Record Match := mkMatch {
  m_end : nat;
  m_groups : list pyval
}.

Definition pattern := bytes -> option Match.

(** A rule [(regex, state, aux...)]. *)
Record rule := mkRule {
  r_pattern : pattern;
  r_state : option string;
  r_aux : list pyval
}.

(** [if state:] for a state that is [None] or a string. *)
Definition state_true (st : option string) : option string :=
  match st with
  | Some EmptyString => None
  | other => other
  end.

(** [class Regex]: the compiled [_rules]. *)
Definition Regex := list rule.

(** [class ByteLimit] *)
Record ByteLimit := mkByteLimit {
  _limit : Z;
  _threshold : option Z;
  _delivered : Z
}.

(** [ByteLimit(limit, threshold=None)] *)
Definition ByteLimit_init (limit : Z) (threshold : option Z) : ByteLimit :=
  mkByteLimit limit threshold 0.

Inductive scanner :=
| SRegex (r : Regex)
| SByteLimit (b : ByteLimit).

(** The Scannable personality of an object: the active scanner and the
    read buffer. *)
Record Scannable := mkScannable {
  scan : option scanner;
  _rbuf : bytes
}.

(** [Scannable.__init__] *)
Definition Scannable_init : Scannable := mkScannable None [].

(** How a run of [_scan] ends.  [OutOfFuel] is the model's bound on the
    [while] loop running out. *)
Inductive ending :=
| Finished
| Raised (e : exn)
| OutOfFuel.

Section Scanners.

(** The state behind the callout (its recipients). *)
Context {W : Type}.
Variable callout : call -> M W pyval.

(** The context [Regex.scan] builds for a match of rule number [k]:
    [Context(state, scan=self, rule=rule, match=m)], with [aux] set when
    the rule has more than two members.  The rule is recorded by its
    position and the match object by its subject, end and groups. *)
Definition match_context (st : string) (k : nat) (r : rule) (buffer : bytes)
    (m : Match) : Core.Context :=
  Core.mkContext st None
    ([("rule"%string, PInt (Z.of_nat k));
      ("match"%string, PList [PStr buffer; PInt (Z.of_nat (m_end m)); PList (m_groups m)])]
     ++ match r_aux r with
        | [] => []
        | aux => [("aux"%string, PList aux)]
        end).

(** The [for rule in self._rules] loop of [Regex.scan]. *)
Fixpoint try_rules (rules : list rule) (k : nat) (buffer : bytes)
    : M W (option bytes) :=
  match rules with
  | [] => ret None
  | r :: rest =>
      match r_pattern r buffer with
      | Some m =>
          let remains := slice_from buffer (Z.of_nat (m_end m)) in
          match state_true (r_state r) with
          | Some st =>
              do _ <~ callout (mkCall (Core.ACtx (match_context st k r buffer m))
                                      (m_groups m) []);
              ret (Some remains)
          | None => ret (Some remains)
          end
      | None => try_rules rest (S k) buffer
      end
  end.

(** [Regex.scan(buffer, callout)] *)
Definition Regex_scan (self : Regex) (buffer : bytes) : M W (option bytes) :=
  match buffer with
  | [] => ret None
  | _ => try_rules self 0 buffer
  end.

(** The callout acting behind a scanner's own state. *)
Definition on_world {S} (c : call) : M (S * W) pyval :=
  fun '(s, w) => let '(w', r) := callout c w in ((s, w'), r).

Definition on_scanner {S A} (f : S -> S * A) : M (S * W) A :=
  fun '(s, w) => let '(s', a) := f s in ((s', w), inr a).

(** [ByteLimit.scan(buffer, callout)].  Both callouts pass the scanner
    as the keyword argument [scan]. *)
Definition ByteLimit_scan (buffer : bytes) : M (ByteLimit * W) (option bytes) :=
  do self <~ on_scanner (fun b => (b, b));
  let available := _delivered self + len buffer in
  if match _threshold self with
     | Some t => negb (t =? 0) && (available <? t)
     | None => false
     end
  then ret None
  else
    let '(count, send, left_) :=
      if available >? _limit self
      then let count := _limit self - _delivered self in
           (count, slice buffer 0 count, slice_from buffer count)
      else (len buffer, buffer, []) in
    do _ <~ on_world (mkCall (Core.AStr "limit-data") [PStr send]
                             [("scan"%string, PRef 0)]);
    do _ <~ on_scanner (fun b =>
              (mkByteLimit (_limit b) (_threshold b) (_delivered b + count), tt));
    do self <~ on_scanner (fun b => (b, b));
    if _delivered self =? _limit self
    then do _ <~ on_world (mkCall (Core.AStr "limit-reached") []
                                  [("scan"%string, PRef 0)]);
         ret (Some left_)
    else ret (Some left_).

(** [self.scan.scan(buffer, callout)] for either scanner. *)
Definition scanner_scan (sc : scanner) (buffer : bytes) (w : W)
    : scanner * W * (exn + option bytes) :=
  match sc with
  | SRegex r =>
      let '(w', res) := Regex_scan r buffer w in (SRegex r, w', res)
  | SByteLimit b =>
      let '((b', w'), res) := ByteLimit_scan buffer (b, w) in (SByteLimit b', w', res)
  end.

(** The [while self._rbuf] loop of [Scannable._scan].  The recipients
    of the callout are taken not to flush the read buffer or change the
    scanner while they run, so the test [if self._rbuf] before the
    assignment holds. *)
Fixpoint _scan_loop (fuel : nat) (self : Scannable) (w : W)
    : Scannable * W * ending :=
  match _rbuf self with
  | [] => (self, w, Finished)
  | _ =>
    match fuel with
    | O => (self, w, OutOfFuel)
    | S fuel' =>
      match scan self with
      | None =>
          match callout (mkCall (Core.ACtx RAW) [PStr (_rbuf self)] []) w with
          | (w', inl e) => (self, w', Raised e)
          | (w', inr _) => (mkScannable None [], w', Finished)
          end
      | Some sc =>
          match scanner_scan sc (_rbuf self) w with
          | (sc', w', inl e) => (mkScannable (Some sc') (_rbuf self), w', Raised e)
          | (sc', w', inr None) => (mkScannable (Some sc') (_rbuf self), w', Finished)
          | (sc', w', inr (Some result)) =>
              _scan_loop fuel' (mkScannable (Some sc') result) w'
          end
      end
    end
  end.

(** [Scannable._scan(data)] with a bound on the loop. *)
Definition _scan_fuel (fuel : nat) (data : bytes) (self : Scannable) (w : W)
    : Scannable * W * ending :=
  _scan_loop fuel (mkScannable (scan self) (_rbuf self ++ data)) w.

(** [Scannable._scan(data)].  A turn of the loop that goes on has either
    shortened the buffer or left the loop where it was, so one turn per
    buffered byte and one more is all a run that ends can take. *)
Definition _scan (data : bytes) (self : Scannable) (w : W)
    : Scannable * W * ending :=
  _scan_fuel (S (length (_rbuf self ++ data))) data self w.

(** [Scannable._flush_scan()] *)
Definition _flush_scan (self : Scannable) : Scannable :=
  mkScannable (scan self) [].

(** Deliver the chunks one [_scan] call after the other; a call that
    does not finish ends the run. *)
Fixpoint feed (chunks : list bytes) (self : Scannable) (w : W)
    : Scannable * W * ending :=
  match chunks with
  | [] => (self, w, Finished)
  | data :: rest =>
      match _scan data self w with
      | (self', w', Finished) => feed rest self' w'
      | stopped => stopped
      end
  end.

End Scanners.

(** The callout of a Callable whose recipients take note of each call
    and return [None]: [def callout(self, ctx, *args)] takes no keyword
    argument (TypeError), and asserts that it was given a context. *)
Definition Callable_callout : call -> M (list call) pyval :=
  fun c =>
    match c_kwargs c with
    | _ :: _ => raise TypeError
    | [] =>
        match Core.as_context (c_ctx c) with
        | None => raise AssertionError
        | Some ctx =>
            do _ <~ modify (fun log => log ++ [mkCall (Core.ACtx ctx) (c_args c) []]);
            ret PNone
        end
    end.

(** A callout that accepts any call, keywords included, and notes it. *)
Definition recording_callout : call -> M (list call) pyval :=
  fun c => do _ <~ modify (fun log => log ++ [c]); ret PNone.

(** What C4 compares of a call: the context's state and the arguments. *)
Definition decoded (c : call) : option string * list pyval :=
  (match Core.as_context (c_ctx c) with
   | Some ctx => Some (Core.state ctx)
   | None => None
   end, c_args c).

(** *** Compiled patterns

    The [match] method of the pattern of [Command._line] in
    [selectable.py], a captured run of characters other than newline
    followed by a newline: the text before the first newline is the
    group, and the match ends after that newline. *)
Fixpoint before_newline (s : bytes) : option bytes :=
  match s with
  | [] => None
  | c :: s' =>
      if Ascii.eqb c LF then Some []
      else option_map (cons c) (before_newline s')
  end.

Definition re_line : pattern :=
  fun buffer =>
    match before_newline buffer with
    | Some line => Some (mkMatch (S (length line)) [PStr line])
    | None => None
    end.

(** [Command._line], the one-rule scanner with state ['command']. *)
Definition _line : Regex := [mkRule re_line (Some "command"%string) []].

Definition is_digit (c : ascii) : bool :=
  (48 <=? nat_of_ascii c)%nat && (nat_of_ascii c <=? 57)%nat.

Fixpoint leading (p : ascii -> bool) (s : bytes) : bytes :=
  match s with
  | c :: s' => if p c then c :: leading p s' else []
  | [] => []
  end.

(** The [match] method of the pattern [([0-9]+)]: the longest run of
    digits the buffer starts with, when there is one. *)
Definition re_digits : pattern :=
  fun buffer =>
    match leading is_digit buffer with
    | [] => None
    | run => Some (mkMatch (length run) [PStr run])
    end.

End Scan.

(** ** asyn/selectable.py: the upstream side of a filter

    A filter writes to its upstream, flushes it, shuts it down and
    closes it; for the filters below the upstream is the record of those
    calls. *)

Module Upstream.

Record t := mk {
  written : list bytes;
  flushed : nat;
  closed : bool
}.

Definition fresh : t := mk [] 0 false.

(** [upstream.write(data)] *)
Definition write (data : bytes) (u : t) : t :=
  mk (written u ++ [data]) (flushed u) (closed u).

(** [upstream.write_flush()] *)
Definition write_flush (u : t) : t :=
  mk (written u) (S (flushed u)) (closed u).

(** [upstream.close()] *)
Definition close (u : t) : t := mk (written u) (flushed u) true.

(** The bytes on the wire: everything written, in order. *)
Definition wire (u : t) : bytes := concat (written u).

End Upstream.

(** ** asyn/http_chunk.py: the chunked-transfer filter *)

Module HttpChunk.

Definition hex_digit (d : N) : ascii :=
  nth (N.to_nat d) (bs "0123456789ABCDEF") "0"%char.

Fixpoint hex_loop (fuel : nat) (n : N) (acc : bytes) : bytes :=
  match fuel with
  | O => acc
  | S fuel' =>
      if (n <? 16)%N then hex_digit n :: acc
      else hex_loop fuel' (n / 16)%N (hex_digit (n mod 16)%N :: acc)
  end.

(** ["%X" % n] for a length [n]: upper-case hexadecimal, no prefix. *)
Definition format_X (n : nat) : bytes :=
  hex_loop (S (N.size_nat (N.of_nat n))) (N.of_nat n) [].

Definition hex_value (c : ascii) : option Z :=
  let n := Z.of_nat (nat_of_ascii c) in
  if (48 <=? n) && (n <=? 57) then Some (n - 48)
  else if (65 <=? n) && (n <=? 70) then Some (n - 55)
  else if (97 <=? n) && (n <=? 102) then Some (n - 87)
  else None.

Fixpoint hex_digits (s : bytes) (acc : Z) : option Z :=
  match s with
  | [] => Some acc
  | c :: s' =>
      match hex_value c with
      | Some d => hex_digits s' (16 * acc + d)
      | None => None
      end
  end.

Definition is_space (c : ascii) : bool :=
  let n := nat_of_ascii c in
  (n =? 32)%nat || ((9 <=? n)%nat && (n <=? 13)%nat).

Fixpoint lstrip (s : bytes) : bytes :=
  match s with
  | c :: s' => if is_space c then lstrip s' else s
  | [] => []
  end.

Definition strip (s : bytes) : bytes := rev (lstrip (rev (lstrip s))).

(** [int(s, 16)]: blanks around the number, a sign and a [0x] prefix are
    accepted; a string without hexadecimal digits, or with anything else
    in it, is a ValueError ([None]). *)
Definition int_16 (s : bytes) : option Z :=
  let s := strip s in
  let '(sign, s) :=
    match s with
    | "-"%char :: s' => (-1, s')
    | "+"%char :: s' => (1, s')
    | _ => (1, s)
    end in
  let s :=
    match s with
    | "0"%char :: "x"%char :: s' => s'
    | "0"%char :: "X"%char :: s' => s'
    | _ => s
    end in
  match s with
  | [] => None
  | _ => option_map (Z.mul sign) (hex_digits s 0)
  end.

(** [class ChunkedCoder(asyn.FilterCallable)]: the pending header
    bytes, the bytes that remain of the current chunk (its trailing
    line end counted), the Scannable personality, and the upstream. *)
Record ChunkedCoder := mkCoder {
  _pending : option bytes;
  _remain : Z;
  scannable : Scan.Scannable;
  upstream : option Upstream.t
}.

(** [ChunkedCoder(source)], through [open]. *)
Definition open (source : Upstream.t) : ChunkedCoder :=
  mkCoder None 0 Scan.Scannable_init (Some source).

Definition set_pending (p : option bytes) (self : ChunkedCoder) : ChunkedCoder :=
  mkCoder p (_remain self) (scannable self) (upstream self).
Definition set_remain (r : Z) (self : ChunkedCoder) : ChunkedCoder :=
  mkCoder (_pending self) r (scannable self) (upstream self).
Definition set_scannable (sc : Scan.Scannable) (self : ChunkedCoder) : ChunkedCoder :=
  mkCoder (_pending self) (_remain self) sc (upstream self).
Definition set_upstream (u : option Upstream.t) (self : ChunkedCoder) : ChunkedCoder :=
  mkCoder (_pending self) (_remain self) (scannable self) u.

Section Incoming.

Context {W : Type}.
Variable callout : Scan.call -> M W pyval.

(** The [while data] loop of [_pass_downstream]. *)
Fixpoint pass_loop (fuel : nat) (data : bytes) (self : ChunkedCoder) (w : W)
    : ChunkedCoder * W * Scan.ending :=
  match data, fuel with
  | [], _ => (self, w, Scan.Finished)
  | _, O => (self, w, Scan.OutOfFuel)
  | _, S fuel' =>
      (* if self._remain: *)
      let '(self, w, e, data) :=
        if _remain self =? 0 then (self, w, Scan.Finished, data)
        else
          let rlen := Z.min (len data) (_remain self) in
          let self := set_remain (_remain self - rlen) self in
          let sendlen := rlen - Z.min (2 - _remain self) 0 in
          let '(sc, w, e) :=
            Scan._scan callout (slice_to data sendlen) (scannable self) w in
          (set_scannable sc self, w, e, slice_from data rlen) in
      match e with
      | Scan.Finished =>
          (* assert self._remain == 0 or not data *)
          if negb ((_remain self =? 0) || match data with [] => true | _ => false end)
          then (self, w, Scan.Raised AssertionError)
          else if (_remain self =? 0) && match data with [] => false | _ => true end
          then
            let hlen := find data CRLF in
            if hlen =? -1 then (set_pending (Some data) self, w, Scan.Finished)
            else
              let header := partition_head (slice_to data hlen) ";"%char in
              match int_16 header with
              | None => (self, w, Scan.Raised ValueError)
              | Some n =>
                  let self := set_remain (n + 2) self in
                  let data := slice_from data (hlen + 2) in
                  if _remain self =? 2
                  then
                    let self := set_pending (Some data) self in
                    match callout (Scan.mkCall (Core.AStr "END") [PStr data] []) w with
                    | (w, inl e) => (self, w, Scan.Raised e)
                    | (w, inr _) => (self, w, Scan.Finished)
                    end
                  else pass_loop fuel' data self w
              end
          else pass_loop fuel' data self w
      | stopped => (self, w, stopped)
      end
  end.

(** [_pass_downstream(data)].  A turn of the loop that goes on has
    taken at least one byte off [data]. *)
Definition _pass_downstream (data : bytes) (self : ChunkedCoder) (w : W)
    : ChunkedCoder * W * Scan.ending :=
  let '(data, self) :=
    match _pending self with
    | Some ((_ :: _) as p) => (p ++ data, set_pending None self)
    | _ => (data, self)
    end in
  pass_loop (S (length data)) data self w.

(** [FilterCallable.close()] *)
Definition close (self : ChunkedCoder) : ChunkedCoder :=
  let self :=
    match upstream self with
    | Some u => set_upstream None (set_upstream (Some (Upstream.close u)) self)
    | None => self
    end in
  set_scannable (Scan._flush_scan (scannable self)) self.

(** [incoming(ctx, data)]: raw data goes through the chunk parser;
    everything else is [FilterCallable.incoming]. *)
Definition incoming (ctx : Core.Context) (data : bytes) (self : ChunkedCoder) (w : W)
    : ChunkedCoder * W * Scan.ending :=
  if String.eqb (Core.state ctx) "RAW" then _pass_downstream data self w
  else
    let self :=
      match Core.error ctx with
      | Some _ => self
      | None => if String.eqb (Core.state ctx) "END" then close self else self
      end in
    if match Core.error ctx with Some _ => true | None => String.eqb (Core.state ctx) "END" end
    then match callout (Scan.mkCall (Core.ACtx ctx) [] []) w with
         | (w, inl e) => (self, w, Scan.Raised e)
         | (w, inr _) => (self, w, Scan.Finished)
         end
    else (self, w, Scan.Finished).

End Incoming.

Definition on_upstream (f : Upstream.t -> Upstream.t) : M ChunkedCoder unit :=
  fun self =>
    match upstream self with
    | Some u => (set_upstream (Some (f u)) self, inr tt)
    | None => (self, inl AttributeError)
    end.

(** [write(data)]: each call is sent as one chunk. *)
Definition write (data : bytes) : M ChunkedCoder unit :=
  do _ <~ on_upstream (Upstream.write (format_X (length data) ++ CRLF));
  on_upstream (Upstream.write (data ++ CRLF)).

(** [write_flush()]: the last-chunk marker, no trailers, and the flush
    of the upstream. *)
Definition write_flush : M ChunkedCoder unit :=
  do _ <~ on_upstream (Upstream.write (bs "0" ++ CRLF ++ CRLF));
  on_upstream Upstream.write_flush.

End HttpChunk.

(** ** asyn/zfilter.py: the gzip filter *)

Module ZFilter.

(** [zlib.MAX_WBITS] *)
Definition MAX_WBITS : Z := 15.

Section Zlib.

(** The zlib module is not part of the repository.  Its compression and
    decompression objects are parameters: a state, and the methods the
    filter calls on it. *)
Variables Compress Decompress : Type.
(** [zlib.compressobj(level)] *)
Variable compressobj : Z -> Compress.
(** [z.compress(data)] *)
Variable compress : bytes -> Compress -> Compress * bytes.
(** [z.flush(zlib.Z_FINISH)] *)
Variable flush_finish : Compress -> Compress * bytes.
(** [zlib.decompressobj(wbits)] *)
Variable decompressobj : Z -> Decompress.
(** [z.decompress(data)], which raises on malformed input *)
Variable decompress : bytes -> Decompress -> Decompress * (exn + bytes).
(** [z.flush()] *)
Variable flush : Decompress -> Decompress * (exn + bytes).

(** [class GZipCoder(asyn.FilterCallable)] *)
Record GZipCoder := mkCoder {
  _zr : option Decompress;
  _zw : option Compress;
  compresslevel : Z;
  upstream : option Upstream.t
}.

(** [GZipCoder(source, compresslevel=6)] *)
Definition open (source : Upstream.t) (level : Z) : GZipCoder :=
  mkCoder None None level (Some source).

Definition on_upstream (f : Upstream.t -> Upstream.t) : M GZipCoder unit :=
  fun self =>
    match upstream self with
    | Some u => (mkCoder (_zr self) (_zw self) (compresslevel self) (Some (f u)), inr tt)
    | None => (self, inl AttributeError)
    end.

Definition set_zw (z : Compress) (self : GZipCoder) : GZipCoder :=
  mkCoder (_zr self) (Some z) (compresslevel self) (upstream self).
Definition set_zr (z : Decompress) (self : GZipCoder) : GZipCoder :=
  mkCoder (Some z) (_zw self) (compresslevel self) (upstream self).

(** [write(data)].  The call of [upstream.write] stands inside the
    [if not self._zw] block, after the creation of the compressor. *)
Definition write (data : bytes) : M GZipCoder unit :=
  fun self =>
    match _zw self with
    | None =>
        let z := compressobj (compresslevel self) in
        let '(z, out) := compress data z in
        on_upstream (Upstream.write out) (set_zw z self)
    | Some _ => (self, inr tt)
    end.

(** [write_flush()] *)
Definition write_flush : M GZipCoder unit :=
  fun self =>
    let '(self, r) :=
      match _zw self with
      | Some z =>
          let '(z, rest) := flush_finish z in
          match rest with
          | [] => (set_zw z self, inr tt)
          | _ => on_upstream (Upstream.write rest) (set_zw z self)
          end
      | None => (self, inr tt)
      end in
    match r with
    | inl e => (self, inl e)
    | inr _ => on_upstream Upstream.write_flush self
    end.

(** [incoming(ctx, data)]: raw data, the end of the input, and, through
    [FilterCallable.incoming], errors; the callouts go to the recipients
    [callout] stands for. *)
Definition incoming {W} (callout : Scan.call -> M W pyval)
    (ctx : Core.Context) (data : bytes) : M (GZipCoder * W) pyval :=
  fun '(self, w) =>
    if String.eqb (Core.state ctx) "RAW" then
      let z := match _zr self with
               | Some z => z
               | None => decompressobj (16 + MAX_WBITS)
               end in
      match decompress data z with
      | (z, inl e) => ((set_zr z self, w), inl e)
      | (z, inr out) =>
          let '(w, r) := callout (Scan.mkCall (Core.ACtx ctx) [PStr out] []) w in
          ((set_zr z self, w), r)
      end
    else if String.eqb (Core.state ctx) "END" then
      match _zr self with
      | None => ((self, w), inl AttributeError)
      | Some z =>
          match flush z with
          | (z, inl e) => ((set_zr z self, w), inl e)
          | (z, inr rest) =>
              let self := set_zr z self in
              let '(w, r) :=
                match rest with
                | [] => (w, inr PNone)
                | _ => callout (Scan.mkCall (Core.AStr "RAW") [PStr rest] []) w
                end in
              match r with
              | inl e => ((self, w), inl e)
              | inr _ =>
                  let '(w, r) := callout (Scan.mkCall (Core.ACtx ctx) [] []) w in
                  ((self, w), r)
              end
          end
      end
    else
      match Core.error ctx with
      | Some _ =>
          let '(w, r) := callout (Scan.mkCall (Core.ACtx ctx) [] []) w in
          ((self, w), r)
      | None => ((self, w), inr PNone)
      end.

(** [write()] of each string in turn. *)
Fixpoint write_all (writes : list bytes) : M GZipCoder unit :=
  match writes with
  | [] => ret tt
  | data :: rest => do _ <~ write data; write_all rest
  end.

(** What the upstream was handed by the writes and the final
    [write_flush()]. *)
Definition passed_upstream (level : Z) (writes : list bytes) : list bytes :=
  let '(self, _) :=
    (do _ <~ write_all writes; write_flush) (open Upstream.fresh level) in
  match upstream self with
  | Some u => Upstream.written u
  | None => []
  end.

End Zlib.

End ZFilter.

(** ** The heap queue algorithm of Python 2's [heapq]

    [controller.py] keeps its timers in a list managed by
    [heapq.heappush] and [heapq.heappop].  [heapq] belongs to Python's
    library; its two operations are written out here as the library
    has them, over an arbitrary comparison [cmp_lt], because the
    controller changes the key of an entry while it sits in the list. *)

Module HeapQ.

Section Heap.

Context {A : Type}.
Variable cmp_lt : A -> A -> bool.

(** The [while pos > startpos] loop of [_siftdown]. *)
Fixpoint _siftdown_loop (fuel : nat) (heap : list A) (startpos pos : nat)
    (newitem : A) : list A :=
  match fuel with
  | O => <[pos:=newitem]> heap
  | S fuel' =>
      if (startpos <? pos)%nat then
        let parentpos := ((pos - 1) / 2)%nat in
        match heap !! parentpos with
        | Some parent =>
            if cmp_lt newitem parent
            then _siftdown_loop fuel' (<[pos:=parent]> heap) startpos parentpos newitem
            else <[pos:=newitem]> heap
        | None => <[pos:=newitem]> heap
        end
      else <[pos:=newitem]> heap
  end.

(** [_siftdown(heap, startpos, pos)]: move the item at [pos] towards
    the root while it is smaller than its parent. *)
Definition _siftdown (heap : list A) (startpos pos : nat) : list A :=
  match heap !! pos with
  | Some newitem => _siftdown_loop (length heap) heap startpos pos newitem
  | None => heap
  end.

(** The [while childpos < endpos] loop of [_siftup]: bubble the smaller
    child up until a leaf is reached. *)
Fixpoint _siftup_loop (fuel : nat) (heap : list A) (pos : nat) : list A * nat :=
  match fuel with
  | O => (heap, pos)
  | S fuel' =>
      let childpos := (2 * pos + 1)%nat in
      if (childpos <? length heap)%nat then
        let rightpos := (childpos + 1)%nat in
        let childpos :=
          match heap !! childpos, heap !! rightpos with
          | Some l, Some r => if negb (cmp_lt l r) then rightpos else childpos
          | _, _ => childpos
          end in
        match heap !! childpos with
        | Some child => _siftup_loop fuel' (<[pos:=child]> heap) childpos
        | None => (heap, pos)
        end
      else (heap, pos)
  end.

(** [_siftup(heap, pos)] *)
Definition _siftup (heap : list A) (pos : nat) : list A :=
  match heap !! pos with
  | Some newitem =>
      let '(heap', pos') := _siftup_loop (length heap) heap pos in
      _siftdown (<[pos':=newitem]> heap') pos pos'
  | None => heap
  end.

(** [heappush(heap, item)] *)
Definition heappush (heap : list A) (item : A) : list A :=
  let heap := heap ++ [item] in
  _siftdown heap 0 (length heap - 1).

(** [heappop(heap)]: the popped item and the heap left, or [None] for
    the IndexError of an empty heap. *)
Definition heappop (heap : list A) : option (A * list A) :=
  match reverse heap with
  | [] => None
  | lastelt :: front =>
      let heap := reverse front in
      match heap with
      | [] => Some (lastelt, [])
      | returnitem :: _ => Some (returnitem, _siftup (<[0%nat:=lastelt]> heap) 0)
      end
  end.

End Heap.

End HeapQ.

(** ** asyn/controller.py: timers *)

Module Controller.

(** Times are seconds since the epoch, floats in the source; the timer
    code only orders and adds them.  Here they are integers, which
    order and add exactly; [Timers] below has the same code over any
    numbers, the floats included. *)
Definition time := Z.

(** [TIMERLIMIT = 1000] *)
Definition TIMERLIMIT : nat := 1000.

(** [class Scheduled(core.Callable)] *)
Record Scheduled := mkScheduled {
  when : option time;
  _callbacks : list Core.callee
}.

(** The context of a timer callout:
    [Ctx('TIMER', sched=top, control=self, when=top.when, now=now)]. *)
Record Ctx := mkCtx {
  sched : nat;
  ctx_when : time;
  now : time
}.

(** [class Controller], its timer side.  The queue holds references to
    Scheduled objects, which live in [scheduled] by identity; [ticks]
    counts the readings of the clock and [fired] notes the callouts. *)
Record t := mk {
  _schedq : list nat;
  scheduled : gmap nat Scheduled;
  allocated : nat;
  running : bool;
  ticks : nat;
  fired : list Ctx
}.

(** [Controller()] *)
Definition init : t := mk [] ∅ 0 false 0 [].

Definition set_schedq (q : list nat) (c : t) : t :=
  mk q (scheduled c) (allocated c) (running c) (ticks c) (fired c).
Definition set_scheduled (m : gmap nat Scheduled) (c : t) : t :=
  mk (_schedq c) m (allocated c) (running c) (ticks c) (fired c).
Definition set_running (b : bool) (c : t) : t :=
  mk (_schedq c) (scheduled c) (allocated c) b (ticks c) (fired c).

Definition when_of (c : t) (id : nat) : option time :=
  match scheduled c !! id with
  | Some s => when s
  | None => None
  end.

(** [cmp(a, b) <= 0] on [when] values: [None] sorts before every
    number. *)
Definition when_le (a b : option time) : bool :=
  match a, b with
  | None, _ => true
  | Some _, None => false
  | Some x, Some y => x <=? y
  end.

(** [heapq]'s comparison on objects that define [__cmp__] only:
    [not y <= x], with [Scheduled.__cmp__] comparing the [when]s. *)
Definition cmp_lt (c : t) (x y : nat) : bool :=
  negb (when_le (when_of c y) (when_of c x)).

(** [Scheduled.cancel()] *)
Definition cancel (id : nat) (c : t) : t :=
  match scheduled c !! id with
  | Some s => set_scheduled (<[id:=mkScheduled None (_callbacks s)]> (scheduled c)) c
  | None => c
  end.

(** [Controller.stop()] *)
Definition stop (c : t) : t := set_running false c.

(** What a timer's callout does with the controller, call by call. *)
Inductive action :=
| Reschedule (at_ after : option time)
| Schedule (callback : Core.callee) (at_ after : option time)
| Cancel (id : nat)
| Stop.

Section Timers.

(** The clock: the value of the [n]-th [time.time()] of the run. *)
Variable clock : nat -> time.

(** What each registered callable does when called with a timer
    context. *)
Variable handler : Core.callee -> Ctx -> list action.

(** [time.time()] *)
Definition time_time : M t time :=
  fun c => (mk (_schedq c) (scheduled c) (allocated c) (running c)
               (S (ticks c)) (fired c),
            inr (clock (ticks c))).

(** [heapq.heappush(self._schedq, entity)] *)
Definition push (id : nat) : M t unit :=
  modify (fun c => set_schedq (HeapQ.heappush (cmp_lt c) (_schedq c) id) c).

(** [schedule(entity, at=None, after=None)]: [entity] is an existing
    Scheduled object or a callable to wrap into a new one. *)
Definition schedule (entity : nat + Core.callee) (at_ after : option time)
    : M t nat :=
  do now <~ time_time;
  do when_ <~ match at_, after with
              | Some a, _ => ret a
              | None, Some d =>
                  if d >=? 0 then ret (now + d) else raise AssertionError
              | None, None => ret now
              end;
  do id <~ (fun c =>
              match entity with
              | inl id =>
                  let cbs := match scheduled c !! id with
                             | Some s => _callbacks s
                             | None => []
                             end in
                  (set_scheduled (<[id:=mkScheduled (Some when_) cbs]> (scheduled c)) c,
                   inr id)
              | inr callback =>
                  let id := allocated c in
                  (mk (_schedq c)
                      (<[id:=mkScheduled (Some when_) [callback]]> (scheduled c))
                      (S id) (running c) (ticks c) (fired c),
                   inr id)
              end);
  do _ <~ push id;
  ret id.

Definition nonzero (x : option time) : option time :=
  match x with
  | Some 0 => None
  | other => other
  end.

(** [Ctx.reschedule(at=None, after=None)] *)
Definition reschedule (ctx : Ctx) (at_ after : option time) : M t unit :=
  match nonzero at_ with
  | Some a => do _ <~ schedule (inl (sched ctx)) (Some a) None; ret tt
  | None =>
      match nonzero after with
      | Some d =>
          do _ <~ schedule (inl (sched ctx)) (Some (ctx_when ctx + d)) None; ret tt
      | None => ret tt
      end
  end.

Definition perform (ctx : Ctx) (a : action) : M t unit :=
  match a with
  | Reschedule at_ after => reschedule ctx at_ after
  | Schedule callback at_ after =>
      do _ <~ schedule (inr callback) at_ after; ret tt
  | Cancel id => modify (cancel id)
  | Stop => modify stop
  end.

Fixpoint perform_all (ctx : Ctx) (actions : list action) : M t unit :=
  match actions with
  | [] => ret tt
  | a :: rest => do _ <~ perform ctx a; perform_all ctx rest
  end.

(** [top.callout(ctx)]: the callout is noted, and each callable of the
    latched list does its work in turn. *)
Fixpoint call_callbacks (latched : list Core.callee) (ctx : Ctx) : M t unit :=
  match latched with
  | [] => ret tt
  | cb :: rest => do _ <~ perform_all ctx (handler cb ctx); call_callbacks rest ctx
  end.

Definition timer_callout (ctx : Ctx) : M t unit :=
  fun c =>
    let latched := match scheduled c !! sched ctx with
                   | Some s => _callbacks s
                   | None => []
                   end in
    call_callbacks latched ctx
      (mk (_schedq c) (scheduled c) (allocated c) (running c) (ticks c)
          (fired c ++ [ctx])).

(** [heapq.heappop(self._schedq)] *)
Definition pop : M t unit :=
  fun c =>
    match HeapQ.heappop (cmp_lt c) (_schedq c) with
    | Some (_, q) => (set_schedq q c, inr tt)
    | None => (c, inl IndexError)
    end.

(** The loop of [_dispatch], [backstop] turns of it at most. *)
Fixpoint _dispatch_loop (backstop : nat) : M t unit :=
  fun c =>
    match running c, _schedq c with
    | true, top :: _ =>
        match backstop with
        | O => (c, inr tt)
        | S backstop' =>
            match when_of c top with
            | None => (do _ <~ pop; _dispatch_loop backstop') c
            | Some w =>
                (do now <~ time_time;
                 if w >? now then ret tt
                 else
                   do _ <~ pop;
                   do _ <~ timer_callout (mkCtx top w now);
                   _dispatch_loop backstop') c
            end
        end
    | _, _ => (c, inr tt)
    end.

(** [_dispatch()] *)
Definition _dispatch : M t unit := _dispatch_loop TIMERLIMIT.

End Timers.

End Controller.

(** ** asyn/controller.py: timers, whatever the numbers

    The timer code once more, with nothing fixed about its times.
    [Controller] above takes them for integers, which serves where only
    their order matters.  In the source they are Python floats
    ([time.time()]), and what [Ctx.reschedule] computes is a sum of
    floats.  Here a time is a value of any type that carries what the
    code does with one; the floats are one such type, the integers
    another. *)

Module Timers.

(** What the timer code does with its times. *)
Class Number (time : Type) := {
  plus : time -> time -> time;                   (* [a + b] *)
  gt : time -> time -> bool;                     (* [a > b] *)
  ge_zero : time -> bool;                        (* [a >= 0] *)
  truth : time -> bool;                          (* [a] as a condition *)
  cmp_le : option time -> option time -> bool    (* [cmp(a, b) <= 0], [None] included *)
}.

(** Python's [int] and [long]. *)
#[global] Instance Z_Number : Number Z := {|
  plus := Z.add;
  gt := Z.gtb;
  ge_zero := fun a => a >=? 0;
  truth := fun a => negb (a =? 0);
  cmp_le := Controller.when_le
|}.

(** Python's [float], IEEE 754 binary64.  [cmp] of a NaN depends on
    where the two objects lie in memory; the comparison here takes it
    for not below. *)
#[global] Instance float_Number : Number PrimFloat.float := {|
  plus := PrimFloat.add;
  gt := fun a b => PrimFloat.ltb b a;
  ge_zero := fun a => PrimFloat.leb PrimFloat.zero a;
  truth := fun a => negb (PrimFloat.eqb a PrimFloat.zero);
  cmp_le := fun a b =>
    match a, b with
    | None, _ => true
    | Some _, None => false
    | Some x, Some y => PrimFloat.leb x y
    end
|}.

(** [TIMERLIMIT = 1000] *)
Definition TIMERLIMIT : nat := Controller.TIMERLIMIT.

(** [class Scheduled(core.Callable)] *)
Record Scheduled (time : Type) := mkScheduled {
  when : option time;
  _callbacks : list Core.callee
}.
Arguments mkScheduled {time} _ _.
Arguments when {time} _.
Arguments _callbacks {time} _.

(** The context of a timer callout:
    [Ctx('TIMER', sched=top, control=self, when=top.when, now=now)]. *)
Record Ctx (time : Type) := mkCtx {
  sched : nat;
  ctx_when : time;
  now : time
}.
Arguments mkCtx {time} _ _ _.
Arguments sched {time} _.
Arguments ctx_when {time} _.
Arguments now {time} _.

(** [class Controller], its timer side.  The queue holds references to
    Scheduled objects, which live in [scheduled] by identity; [ticks]
    counts the readings of the clock and [fired] notes the callouts. *)
Record t (time : Type) := mk {
  _schedq : list nat;
  scheduled : gmap nat (Scheduled time);
  allocated : nat;
  running : bool;
  ticks : nat;
  fired : list (Ctx time)
}.
Arguments mk {time} _ _ _ _ _ _.
Arguments _schedq {time} _.
Arguments scheduled {time} _.
Arguments allocated {time} _.
Arguments running {time} _.
Arguments ticks {time} _.
Arguments fired {time} _.

(** What a timer's callout does with the controller, call by call. *)
Inductive action (time : Type) :=
| Reschedule (at_ after : option time)
| Schedule (callback : Core.callee) (at_ after : option time)
| Cancel (id : nat)
| Stop.
Arguments Reschedule {time} _ _.
Arguments Schedule {time} _ _ _.
Arguments Cancel {time} _.
Arguments Stop {time}.

Section Timers.

Context {time : Type} {N : Number time}.

(** [Controller()] *)
Definition init : t time := mk [] ∅ 0 false 0 [].

Definition set_schedq (q : list nat) (c : t time) : t time :=
  mk q (scheduled c) (allocated c) (running c) (ticks c) (fired c).
Definition set_scheduled (m : gmap nat (Scheduled time)) (c : t time) : t time :=
  mk (_schedq c) m (allocated c) (running c) (ticks c) (fired c).
Definition set_running (b : bool) (c : t time) : t time :=
  mk (_schedq c) (scheduled c) (allocated c) b (ticks c) (fired c).

Definition when_of (c : t time) (id : nat) : option time :=
  match scheduled c !! id with
  | Some s => when s
  | None => None
  end.

(** [heapq]'s comparison on objects that define [__cmp__] only:
    [not y <= x], with [Scheduled.__cmp__] comparing the [when]s. *)
Definition cmp_lt (c : t time) (x y : nat) : bool :=
  negb (cmp_le (when_of c y) (when_of c x)).

(** [Scheduled.cancel()] *)
Definition cancel (id : nat) (c : t time) : t time :=
  match scheduled c !! id with
  | Some s => set_scheduled (<[id:=mkScheduled None (_callbacks s)]> (scheduled c)) c
  | None => c
  end.

(** [Controller.stop()] *)
Definition stop (c : t time) : t time := set_running false c.

(** The clock: the value of the [n]-th [time.time()] of the run. *)
Variable clock : nat -> time.

(** What each registered callable does when called with a timer
    context. *)
Variable handler : Core.callee -> Ctx time -> list (action time).

(** [time.time()] *)
Definition time_time : M (t time) time :=
  fun c => (mk (_schedq c) (scheduled c) (allocated c) (running c)
               (S (ticks c)) (fired c),
            inr (clock (ticks c))).

(** [heapq.heappush(self._schedq, entity)] *)
Definition push (id : nat) : M (t time) unit :=
  modify (fun c => set_schedq (HeapQ.heappush (cmp_lt c) (_schedq c) id) c).

(** [schedule(entity, at=None, after=None)]: [entity] is an existing
    Scheduled object or a callable to wrap into a new one. *)
Definition schedule (entity : nat + Core.callee) (at_ after : option time)
    : M (t time) nat :=
  do now <~ time_time;
  do when_ <~ match at_, after with
              | Some a, _ => ret a
              | None, Some d =>
                  if ge_zero d then ret (plus now d) else raise AssertionError
              | None, None => ret now
              end;
  do id <~ (fun c =>
              match entity with
              | inl id =>
                  let cbs := match scheduled c !! id with
                             | Some s => _callbacks s
                             | None => []
                             end in
                  (set_scheduled (<[id:=mkScheduled (Some when_) cbs]> (scheduled c)) c,
                   inr id)
              | inr callback =>
                  let id := allocated c in
                  (mk (_schedq c)
                      (<[id:=mkScheduled (Some when_) [callback]]> (scheduled c))
                      (S id) (running c) (ticks c) (fired c),
                   inr id)
              end);
  do _ <~ push id;
  ret id.

(** [if at:] and [elif after:]: [None] and zero count as absent. *)
Definition nonzero (x : option time) : option time :=
  match x with
  | Some a => if truth a then Some a else None
  | None => None
  end.

(** [Ctx.reschedule(at=None, after=None)] *)
Definition reschedule (ctx : Ctx time) (at_ after : option time) : M (t time) unit :=
  match nonzero at_ with
  | Some a => do _ <~ schedule (inl (sched ctx)) (Some a) None; ret tt
  | None =>
      match nonzero after with
      | Some d =>
          do _ <~ schedule (inl (sched ctx)) (Some (plus (ctx_when ctx) d)) None;
          ret tt
      | None => ret tt
      end
  end.

Definition perform (ctx : Ctx time) (a : action time) : M (t time) unit :=
  match a with
  | Reschedule at_ after => reschedule ctx at_ after
  | Schedule callback at_ after =>
      do _ <~ schedule (inr callback) at_ after; ret tt
  | Cancel id => modify (cancel id)
  | Stop => modify stop
  end.

Fixpoint perform_all (ctx : Ctx time) (actions : list (action time))
    : M (t time) unit :=
  match actions with
  | [] => ret tt
  | a :: rest => do _ <~ perform ctx a; perform_all ctx rest
  end.

(** [top.callout(ctx)]: the callout is noted, and each callable of the
    latched list does its work in turn. *)
Fixpoint call_callbacks (latched : list Core.callee) (ctx : Ctx time)
    : M (t time) unit :=
  match latched with
  | [] => ret tt
  | cb :: rest => do _ <~ perform_all ctx (handler cb ctx); call_callbacks rest ctx
  end.

Definition timer_callout (ctx : Ctx time) : M (t time) unit :=
  fun c =>
    let latched := match scheduled c !! sched ctx with
                   | Some s => _callbacks s
                   | None => []
                   end in
    call_callbacks latched ctx
      (mk (_schedq c) (scheduled c) (allocated c) (running c) (ticks c)
          (fired c ++ [ctx])).

(** [heapq.heappop(self._schedq)] *)
Definition pop : M (t time) unit :=
  fun c =>
    match HeapQ.heappop (cmp_lt c) (_schedq c) with
    | Some (_, q) => (set_schedq q c, inr tt)
    | None => (c, inl IndexError)
    end.

(** The loop of [_dispatch], [backstop] turns of it at most. *)
Fixpoint _dispatch_loop (backstop : nat) : M (t time) unit :=
  fun c =>
    match running c, _schedq c with
    | true, top :: _ =>
        match backstop with
        | O => (c, inr tt)
        | S backstop' =>
            match when_of c top with
            | None => (do _ <~ pop; _dispatch_loop backstop') c
            | Some w =>
                (do now <~ time_time;
                 if gt w now then ret tt
                 else
                   do _ <~ pop;
                   do _ <~ timer_callout (mkCtx top w now);
                   _dispatch_loop backstop') c
            end
        end
    | _, _ => (c, inr tt)
    end.

(** [_dispatch()] *)
Definition _dispatch : M (t time) unit := _dispatch_loop TIMERLIMIT.

End Timers.

End Timers.

(** ** asyn/selectable.py and the descriptor map of asyn/controller.py *)

Module Selectable.

(** [BUFSIZE = 4096] *)
Definition BUFSIZE : Z := 4096.

(** [END = Context('END')] and [CLOSE = Context('CLOSE')] *)
Definition END : Core.Context := Core.Context_of "END".
Definition CLOSE : Core.Context := Core.Context_of "CLOSE".

(** [errno.EAGAIN], as the plugin's platform numbers it. *)
Definition EAGAIN : Z := 35.

(** The class an object was made from, for the methods that subclasses
    override. *)
Inductive kind := KSelectable | KIO | KStream.

(** A descriptor object: the fields of [Selectable], [IO] and [Stream].
    [control] tells whether [self.control] still is the Controller;
    [io_closed] counts the calls of [self.io.close()]. *)
Record obj := mkObj {
  cls : kind;
  control : bool;
  _callbacks : list Core.callee;
  fileno : Z;
  _keep_file : bool;
  io_closed : nat;
  scannable : Scan.Scannable;
  _wbuf : bytes;
  _shutdown : bool
}.

(** The Controller's descriptor map, the objects by identity, and the
    callouts made so far, each with the object that made it.  The
    recipients of a callout take note of it and leave the objects
    alone. *)
Record world := mkWorld {
  _map : gmap Z nat;
  objects : gmap nat obj;
  allocated : nat;
  emitted : list (nat * Scan.call)
}.

Definition init : world := mkWorld ∅ ∅ 0 [].

Definition update (id : nat) (f : obj -> obj) (w : world) : world :=
  mkWorld (_map w) (alter f id (objects w)) (allocated w) (emitted w).

Definition set_control (b : bool) (o : obj) : obj :=
  mkObj (cls o) b (_callbacks o) (fileno o) (_keep_file o) (io_closed o)
        (scannable o) (_wbuf o) (_shutdown o).
Definition set_scannable (sc : Scan.Scannable) (o : obj) : obj :=
  mkObj (cls o) (control o) (_callbacks o) (fileno o) (_keep_file o) (io_closed o)
        sc (_wbuf o) (_shutdown o).
Definition set_wbuf (b : bytes) (o : obj) : obj :=
  mkObj (cls o) (control o) (_callbacks o) (fileno o) (_keep_file o) (io_closed o)
        (scannable o) b (_shutdown o).
Definition set_shutdown (b : bool) (o : obj) : obj :=
  mkObj (cls o) (control o) (_callbacks o) (fileno o) (_keep_file o) (io_closed o)
        (scannable o) (_wbuf o) b.
Definition set_keep_file (b : bool) (o : obj) : obj :=
  mkObj (cls o) (control o) (_callbacks o) (fileno o) b (io_closed o)
        (scannable o) (_wbuf o) (_shutdown o).
Definition io_close (o : obj) : obj :=
  mkObj (cls o) (control o) (_callbacks o) (fileno o) (_keep_file o) (S (io_closed o))
        (scannable o) (_wbuf o) (_shutdown o).
Definition set_callbacks (l : list Core.callee) (o : obj) : obj :=
  mkObj (cls o) (control o) l (fileno o) (_keep_file o) (io_closed o)
        (scannable o) (_wbuf o) (_shutdown o).

(** Read the object [id]; calling a method on what is no object is an
    AttributeError. *)
Definition self (id : nat) : M world obj :=
  fun w => match objects w !! id with
           | Some o => (w, inr o)
           | None => (w, inl AttributeError)
           end.

(** [self.callout(ctx, *args)] of object [id].  The callables are
    taken to note the callout and return [None]; [Recipients] below has
    them act on the objects. *)
Definition callout (id : nat) (c : Scan.call) : M world pyval :=
  fun w =>
    let '(log, r) := Scan.Callable_callout c [] in
    (mkWorld (_map w) (objects w) (allocated w) (emitted w ++ map (pair id) log), r).

(** [self.callout_error(error)] for an exception. *)
Definition callout_error (id : nat) (e : exn) : M world pyval :=
  callout id (Scan.mkCall (Core.ACtx (Core.Error_of e)) [] []).

(** [Controller.insert(selectable)] *)
Definition insert (id : nat) : M world unit :=
  do o <~ self id;
  fun w =>
    match _map w !! fileno o with
    | Some _ => (w, inl AssertionError)
    | None => (mkWorld (<[fileno o:=id]> (_map w)) (objects w) (allocated w)
                       (emitted w), inr tt)
    end.

(** [Controller.remove(selectable)]: [del self._map[selectable.fileno()]] *)
Definition remove (id : nat) : M world unit :=
  do o <~ self id;
  fun w =>
    match _map w !! fileno o with
    | Some _ => (mkWorld (delete (fileno o) (_map w)) (objects w) (allocated w)
                         (emitted w), inr tt)
    | None => (w, inl KeyError)
    end.

(** The constructors [Selectable(control, callout)],
    [IO(control, io, callout)] and [Stream(control, io, callout)]: the
    object comes into being with the next identity, and registers.  When
    [insert] raises, the constructor raises and nobody holds the
    object. *)
Definition new (k : kind) (fd : Z) (callout : option Core.callee) : M world nat :=
  fun w =>
    let id := allocated w in
    let o := mkObj k true (match callout with Some c => [c] | None => [] end)
                   fd false 0 Scan.Scannable_init [] false in
    match insert id (mkWorld (_map w) (<[id:=o]> (objects w)) (S id) (emitted w)) with
    | (_, inl e) => (w, inl e)
    | (w', inr _) => (w', inr id)
    end.

(** [Selectable.close()] *)
Definition Selectable_close (id : nat) : M world unit :=
  do o <~ self id;
  if control o then
    do _ <~ callout id (Scan.mkCall (Core.ACtx CLOSE) [] []);
    do _ <~ remove id;
    modify (update id (set_control false))
  else ret tt.

(** [IO.close()].  [self.io.close()] is counted and taken to return,
    as it does for a file object and for the first close of a bare
    descriptor. *)
Definition IO_close (id : nat) : M world unit :=
  do _ <~ Selectable_close id;
  do o <~ self id;
  if _keep_file o then ret tt else modify (update id io_close).

(** [Stream.read_flush()] *)
Definition read_flush (id : nat) : M world unit :=
  modify (update id (fun o => set_scannable (Scan._flush_scan (scannable o)) o)).

(** [Stream.close()] *)
Definition Stream_close (id : nat) : M world unit :=
  do _ <~ IO_close id;
  read_flush id.

(** [self.close()], by the class of the object. *)
Definition close (id : nat) : M world unit :=
  do o <~ self id;
  match cls o with
  | KSelectable => Selectable_close id
  | KIO => IO_close id
  | KStream => Stream_close id
  end.

(** [IO.keep_file()] *)
Definition keep_file (id : nat) : M world unit :=
  do _ <~ self id; modify (update id (set_keep_file true)).

(** [_null_read()] *)
Definition _null_read (id : nat) : M world unit :=
  do _ <~ callout id (Scan.mkCall (Core.ACtx END) [] []);
  close id.

(** [Stream._wants_read()] *)
Definition _wants_read (o : obj) : bool :=
  match cls o with
  | KStream => match _callbacks o with [] => false | _ => true end
  | _ => false
  end.

(** [Stream._wants_write()], as a truth value *)
Definition _wants_write (o : obj) : bool :=
  match cls o with
  | KStream => match _wbuf o with [] => false | _ => true end
  | _ => false
  end.

(** [self._scan(input)] of a Stream, with its own callout.  The
    objects made here keep the scanner they start with, [None], for
    which the loop of [_scan] ends after one callout. *)
Definition _scan (id : nat) (input : bytes) : M world unit :=
  do o <~ self id;
  fun w =>
    let '(sc, w, e) := Scan._scan (callout id) input (scannable o) w in
    let w := update id (set_scannable sc) w in
    match e with
    | Scan.Finished => (w, inr tt)
    | Scan.Raised e => (w, inl e)
    | Scan.OutOfFuel => (w, inr tt)
    end.

(** [Stream._can_read()], given what [os.read] does: the bytes read, or
    the error number of the OSError it raises.  What it does is the
    caller's to say; the state of the descriptor is not modelled. *)
Definition _can_read (id : nat) (os_read : Z + bytes) : M world unit :=
  do _ <~ self id;
  match os_read with
  | inl errno => do _ <~ callout_error id (OSError errno); ret tt
  | inr [] => _null_read id
  | inr input => _scan id input
  end.

(** [Stream._can_write()], given what [os.write] does if it is called:
    the number of bytes written, or the error number of the OSError. *)
Definition _can_write (id : nat) (os_write : Z + nat) : M world unit :=
  do o <~ self id;
  match _wbuf o, os_write with
  | _ :: _, inl errno =>
      if errno =? EAGAIN then ret tt
      else do _ <~ callout_error id (OSError errno); ret tt
  | wbuf, _ =>
      do _ <~ match wbuf, os_write with
              | _ :: _, inr written =>
                  modify (update id (set_wbuf (slice_from wbuf (Z.of_nat written))))
              | _, _ => ret tt
              end;
      do o <~ self id;
      match _wbuf o with
      | [] => if _shutdown o then close id else ret tt
      | _ => ret tt
      end
  end.

(** [Stream.write(whatever)] *)
Definition write (id : nat) (whatever : bytes) (os_write : Z + nat) : M world unit :=
  do o <~ self id;
  do _ <~ modify (update id (set_wbuf (_wbuf o ++ whatever)));
  _can_write id os_write.

(** [Stream.shutdown()]; for the other classes, [close()]. *)
Definition shutdown (id : nat) (os_write : Z + nat) : M world unit :=
  do o <~ self id;
  match cls o with
  | KStream =>
      do _ <~ modify (update id (set_shutdown true));
      _can_write id os_write
  | _ => close id
  end.

(** [add_callout] and [remove_callout] of the object's Callable. *)
Definition add_callout (id : nat) (c : option Core.callee) : M world unit :=
  do _ <~ self id;
  modify (update id (fun o =>
    set_callbacks
      (Core._callbacks (Core.add_callout c (Core.mkCallable (_callbacks o) None))) o)).

(** What is done to the objects, one call after the other. *)
Inductive op :=
| New (k : kind) (fd : Z) (callout : option Core.callee)
| Close (id : nat)
| Shutdown (id : nat) (os_write : Z + nat)
| KeepFile (id : nat)
| AddCallout (id : nat) (c : option Core.callee)
| CanRead (id : nat) (os_read : Z + bytes)
| CanWrite (id : nat) (os_write : Z + nat)
| Write (id : nat) (whatever : bytes) (os_write : Z + nat).

Definition step (o : op) : M world unit :=
  match o with
  | New k fd c => do _ <~ new k fd c; ret tt
  | Close id => close id
  | Shutdown id r => shutdown id r
  | KeepFile id => keep_file id
  | AddCallout id c => add_callout id c
  | CanRead id r => _can_read id r
  | CanWrite id r => _can_write id r
  | Write id b r => write id b r
  end.

(** Run the calls in order; an exception is caught by the caller, which
    goes on with the next call. *)
Fixpoint run (ops : list op) (w : world) : world :=
  match ops with
  | [] => w
  | o :: rest => run rest (step o w).1
  end.

End Selectable.

(** ** asyn/selectable.py and asyn/core.py: callables that act

    [Selectable.close()] calls out [CLOSE] while the object still has
    its Controller, and the registered callables run inside that call.
    Here they do what Python lets them do: call the methods of the
    objects again, catch what those raise, raise themselves, and keep
    state of their own between calls.  A callable is a program over the
    methods.  Method calls nest as deep as a bound allows, and past it
    a call raises RuntimeError, as Python does at its recursion limit.
    (Python counts frames, so there the error can also come where a
    callable is called; here a callable that is called runs.)  The
    objects are of class [Selectable] itself: [IO.close()] and
    [Stream.close()] call [Selectable.close()] first and then see to
    their file and read buffer only. *)

Module Recipients.

Definition END : Core.Context := Selectable.END.
Definition CLOSE : Core.Context := Selectable.CLOSE.

(** A [Selectable]: whether [self.control] still is the Controller, the
    callables of its [Callable] side, and what its [fileno()] returns. *)
Record obj := mkObj {
  control : bool;
  _callbacks : list Core.callee;
  fileno : Z
}.

Definition set_control (b : bool) (o : obj) : obj :=
  mkObj b (_callbacks o) (fileno o).
Definition set_callbacks (l : list Core.callee) (o : obj) : obj :=
  mkObj (control o) l (fileno o).

(** The methods a client or a callable calls on an object. *)
Inductive method :=
| Close (id : nat)
| Shutdown (id : nat)
| NullRead (id : nat)
| AddCallout (id : nat) (c : option Core.callee)
| RemoveCallout (id : nat) (c : Core.callee) (required : bool)
| SetCallout (id : nat) (c : option Core.callee)
| ClearCallouts (id : nat).

Section Programs.

(** What the callables keep between calls (their closures). *)
Variable R : Type.

(** The body of a callable: it returns, raises, calls a method and goes
    on with what the call returned or raised, or reads or writes what
    it keeps. *)
Inductive prog :=
| Return (v : pyval)
| Raise (e : exn)
| Call (m : method) (k : exn + pyval -> prog)
| Load (k : R -> prog)
| Store (r : R) (k : prog).

(** The Controller's descriptor map, the objects by identity, the
    callouts made so far, each with the object that made it, and what
    the callables keep. *)
Record world := mkWorld {
  _map : gmap Z nat;
  objects : gmap nat obj;
  allocated : nat;
  emitted : list (nat * Core.Context);
  kept : R
}.

Definition init (r : R) : world := mkWorld ∅ ∅ 0 [] r.

Definition update (id : nat) (f : obj -> obj) (w : world) : world :=
  mkWorld (_map w) (alter f id (objects w)) (allocated w) (emitted w) (kept w).

Definition emit (id : nat) (ctx : Core.Context) (w : world) : world :=
  mkWorld (_map w) (objects w) (allocated w) (emitted w ++ [(id, ctx)]) (kept w).

Definition set_kept (r : R) (w : world) : world :=
  mkWorld (_map w) (objects w) (allocated w) (emitted w) r.

(** Read the object [id]; calling a method on what is no object is an
    AttributeError. *)
Definition self (id : nat) : M world obj :=
  fun w => match objects w !! id with
           | Some o => (w, inr o)
           | None => (w, inl AttributeError)
           end.

(** [Controller.insert(selectable)] *)
Definition insert (id : nat) : M world unit :=
  do o <~ self id;
  fun w =>
    match _map w !! fileno o with
    | Some _ => (w, inl AssertionError)
    | None => (mkWorld (<[fileno o:=id]> (_map w)) (objects w) (allocated w)
                       (emitted w) (kept w), inr tt)
    end.

(** [Controller.remove(selectable)]: [del self._map[selectable.fileno()]] *)
Definition remove (id : nat) : M world unit :=
  do o <~ self id;
  fun w =>
    match _map w !! fileno o with
    | Some _ => (mkWorld (delete (fileno o) (_map w)) (objects w) (allocated w)
                         (emitted w) (kept w), inr tt)
    | None => (w, inl KeyError)
    end.

(** [Selectable(control, callout)], for a class whose [fileno()] returns
    [fd].  When [insert] raises, so does the constructor, and nobody
    holds the object. *)
Definition new (fd : Z) (callout : option Core.callee) : M world nat :=
  fun w =>
    let id := allocated w in
    let o := mkObj true (match callout with Some c => [c] | None => [] end) fd in
    match insert id (mkWorld (_map w) (<[id:=o]> (objects w)) (S id) (emitted w)
                             (kept w)) with
    | (_, inl e) => (w, inl e)
    | (w', inr _) => (w', inr id)
    end.

(** [add_callout], [remove_callout], [set_callout] and [clear_callouts]
    of the object's [Callable] side. *)
Definition add_callout (id : nat) (c : option Core.callee) : M world unit :=
  do _ <~ self id;
  modify (update id (fun o =>
    match c with
    | Some c => set_callbacks (_callbacks o ++ [c]) o
    | None => o
    end)).

Definition remove_callout (id : nat) (c : Core.callee) (required : bool)
    : M world unit :=
  do o <~ self id;
  match Core.list_remove c (_callbacks o) with
  | Some l => modify (update id (set_callbacks l))
  | None => if required then raise ValueError else ret tt
  end.

Definition set_callout (id : nat) (c : option Core.callee) : M world unit :=
  do _ <~ self id;
  modify (update id (set_callbacks (match c with Some c => [c] | None => [] end))).

Definition clear_callouts (id : nat) : M world unit :=
  do _ <~ self id;
  modify (update id (set_callbacks [])).

(** What each registered callable does when it is called with a
    context. *)
Variable recipients : Core.callee -> Core.Context -> prog.

Section Frame.

(** The methods as a callable reaches them, one call deeper. *)
Variable deeper : method -> M world pyval.

(** Calling a callable: its body runs against the objects as they
    are. *)
Fixpoint run_prog (p : prog) : M world pyval :=
  match p with
  | Return v => ret v
  | Raise e => raise e
  | Call m k => fun w => let '(w', r) := deeper m w in run_prog (k r) w'
  | Load k => fun w => run_prog (k (kept w)) w
  | Store r k => fun w => run_prog k (set_kept r w)
  end.

(** [[cb(ctx, *args) for cb in latched]] *)
Fixpoint call_each (latched : list Core.callee) (ctx : Core.Context)
    : M world (list pyval) :=
  match latched with
  | [] => ret []
  | cb :: rest =>
      do v <~ run_prog (recipients cb ctx);
      do vs <~ call_each rest ctx;
      ret (v :: vs)
  end.

(** [self.callout(ctx)] of object [id]: the callout is noted, the list
    of callables is latched, and each is called in turn. *)
Definition callout (id : nat) (ctx : Core.Context) : M world pyval :=
  do o <~ self id;
  do _ <~ modify (emit id ctx);
  do results <~ call_each (_callbacks o) ctx;
  ret (fold_left Core.default_reducer results PNone).

(** [Selectable.close()].  [self.control.remove(self)] reads
    [self.control] again after the callout: when it is [None] by then,
    the attribute lookup fails. *)
Definition Selectable_close (id : nat) : M world unit :=
  do o <~ self id;
  if control o then
    do _ <~ callout id CLOSE;
    do o' <~ self id;
    if control o' then
      do _ <~ remove id;
      modify (update id (set_control false))
    else raise AttributeError
  else ret tt.

(** [Selectable._null_read()] *)
Definition _null_read (id : nat) : M world unit :=
  do _ <~ callout id END;
  Selectable_close id.

(** A method call, as Python makes it. *)
Definition perform (m : method) : M world pyval :=
  do _ <~ match m with
          | Close id => Selectable_close id
          | Shutdown id => Selectable_close id
          | NullRead id => _null_read id
          | AddCallout id c => add_callout id c
          | RemoveCallout id c required => remove_callout id c required
          | SetCallout id c => set_callout id c
          | ClearCallouts id => clear_callouts id
          end;
  ret PNone.

End Frame.

(** A method call with [depth] calls to go before Python's recursion
    limit: at the limit the call raises, before it a callable reaches
    the methods with one call less to go. *)
Fixpoint invoke (depth : nat) (m : method) : M world pyval :=
  match depth with
  | O => raise RuntimeError
  | S d => perform (invoke d) m
  end.

(** What a client does, one call after the other. *)
Inductive op :=
| New (fd : Z) (callout : option Core.callee)
| Do (m : method).

Definition step (depth : nat) (o : op) : M world unit :=
  match o with
  | New fd c => do _ <~ new fd c; ret tt
  | Do m => do _ <~ invoke depth m; ret tt
  end.

(** Run the calls in order; an exception is caught by the client, which
    goes on with the next call. *)
Fixpoint run (depth : nat) (ops : list op) (w : world) : world :=
  match ops with
  | [] => w
  | o :: rest => run depth rest (step depth o w).1
  end.

End Programs.

Arguments Return {R} v.
Arguments Raise {R} e.
Arguments Call {R} m k.
Arguments Load {R} k.
Arguments Store {R} r k.
Arguments mkWorld {R} _ _ _ _ _.
Arguments _map {R} w.
Arguments objects {R} w.
Arguments allocated {R} w.
Arguments emitted {R} w.
Arguments kept {R} w.
Arguments init {R} r.
Arguments update {R} id f w.
Arguments emit {R} id ctx w.
Arguments set_kept {R} r w.
Arguments self {R} id.
Arguments insert {R} id.
Arguments remove {R} id.
Arguments new {R} fd callout.
Arguments add_callout {R} id c.
Arguments remove_callout {R} id c required.
Arguments set_callout {R} id c.
Arguments clear_callouts {R} id.
Arguments run_prog {R} deeper p.
Arguments call_each {R} recipients deeper latched ctx.
Arguments callout {R} recipients deeper id ctx.
Arguments Selectable_close {R} recipients deeper id.
Arguments _null_read {R} recipients deeper id.
Arguments perform {R} recipients deeper m.
Arguments invoke {R} recipients depth m.
Arguments step {R} recipients depth o.
Arguments run {R} recipients depth ops w.

End Recipients.

(** ** asyn/inject.py: inject-and-wait

    [inject_wait] called from a thread other than the running reactor
    thread, as a transition system over the two threads.  Each thread is
    at a point of its code; a step is one thread doing what stands at
    its point, when the lock of the condition variable lets it. *)

Module Inject.

Inductive thread := Caller | Reactor.

(** Where the calling thread is in [inject_wait]. *)
Inductive caller_at :=
| CStart                 (* before [with cond:] *)
| CLocked                (* holds the lock, before [self.inject(runner)] *)
| CTest                  (* holds the lock, at the test of the [while] *)
| CWaiting               (* in [cond.wait()], lock released, not notified *)
| CWoken                 (* in [cond.wait()], notified, needs the lock back *)
| CUnlocked              (* past the [with] block, lock released *)
| CReturned (v : pyval)  (* [inject_wait] returned [v] *)
| CRaised (e : exn).     (* [inject_wait] raised [e] *)

(** Where the reactor thread is: in [select], in the loop of
    [_Inject._can_read], or inside [runner]. *)
Inductive reactor_at :=
| RSelect                (* blocked in [select.select] *)
| RDrain                 (* at [self._q.popleft()] *)
| RRunner                (* in [runner], before [with cond:] *)
| RCalling               (* holds the lock, before the call *)
| RNotify                (* [reply] is set, before [cond.notify()] *)
| RRelease               (* leaving the [with] block *)
| RGone.                 (* an exception ended the loop of [run] *)

Record state := mkState {
  caller : caller_at;
  reactor : reactor_at;
  lock : option thread;        (* who holds the lock of [cond] *)
  _q : nat;                    (* runners waiting in [self._q] *)
  pipe : nat;                  (* bytes waiting in the wake-up pipe *)
  reply_error : option exn;    (* [reply['error']] *)
  reply_value : pyval;         (* [reply['value']] *)
  executed : nat               (* how often the reactor made the call *)
}.

(** [cond = threading.Condition()] and
    [reply = { 'error': None, 'value': None }], the reactor in
    [select]. *)
Definition initial : state :=
  mkState CStart RSelect None 0 0 None PNone 0.

Section Steps.

(** What the injected call does on the reactor thread: raise an
    exception or return a value. *)
Variable outcome : exn + pyval.

(** One step of the calling thread, if it can take one. *)
Definition caller_step (s : state) : option state :=
  match caller s with
  | CStart =>
      match lock s with
      | None => Some (mkState CLocked (reactor s) (Some Caller) (_q s) (pipe s)
                              (reply_error s) (reply_value s) (executed s))
      | Some _ => None
      end
  | CLocked =>
      (* [self._q.append(...)]; [os.write(self._w, "x")] *)
      Some (mkState CTest (reactor s) (lock s) (S (_q s)) (S (pipe s))
                    (reply_error s) (reply_value s) (executed s))
  | CTest =>
      (* [while reply['error'] is None and reply['value'] is None:] *)
      match reply_error s, is_None (reply_value s) with
      | None, true =>
          Some (mkState CWaiting (reactor s) None (_q s) (pipe s)
                        (reply_error s) (reply_value s) (executed s))
      | _, _ =>
          Some (mkState CUnlocked (reactor s) None (_q s) (pipe s)
                        (reply_error s) (reply_value s) (executed s))
      end
  | CWaiting => None
  | CWoken =>
      match lock s with
      | None => Some (mkState CTest (reactor s) (Some Caller) (_q s) (pipe s)
                              (reply_error s) (reply_value s) (executed s))
      | Some _ => None
      end
  | CUnlocked =>
      (* [if reply['error']: raise reply['error']]; [return reply['value']] *)
      match reply_error s with
      | Some e => Some (mkState (CRaised e) (reactor s) (lock s) (_q s) (pipe s)
                                (reply_error s) (reply_value s) (executed s))
      | None => Some (mkState (CReturned (reply_value s)) (reactor s) (lock s) (_q s)
                              (pipe s) (reply_error s) (reply_value s) (executed s))
      end
  | CReturned _ | CRaised _ => None
  end.

(** One step of the reactor thread, if it can take one. *)
Definition reactor_step (s : state) : option state :=
  match reactor s with
  | RSelect =>
      (* the pipe is readable: [os.read(self._r, BUFSIZE)] *)
      match pipe s with
      | O => None
      | S _ => Some (mkState (caller s) RDrain (lock s) (_q s) 0
                             (reply_error s) (reply_value s) (executed s))
      end
  | RDrain =>
      match _q s with
      | O => Some (mkState (caller s) RSelect (lock s) 0 (pipe s)
                           (reply_error s) (reply_value s) (executed s))
      | S n => Some (mkState (caller s) RRunner (lock s) n (pipe s)
                             (reply_error s) (reply_value s) (executed s))
      end
  | RRunner =>
      match lock s with
      | None => Some (mkState (caller s) RCalling (Some Reactor) (_q s) (pipe s)
                              (reply_error s) (reply_value s) (executed s))
      | Some _ => None
      end
  | RCalling =>
      (* [try: reply['value'] = call(...)]
         [except Exception, e: reply['error'] = e] *)
      match outcome with
      | inr v => Some (mkState (caller s) RNotify (lock s) (_q s) (pipe s)
                               (reply_error s) v (S (executed s)))
      | inl e =>
          if is_Exception e
          then Some (mkState (caller s) RNotify (lock s) (_q s) (pipe s)
                             (Some e) (reply_value s) (S (executed s)))
          else
            (* [SystemExit] and [KeyboardInterrupt] pass [except Exception]:
               the [with] block gives the lock back on the way out,
               [reply] stays as it was, [cond.notify()] is skipped,
               [_can_read] does not catch them either, and [run] ends *)
            Some (mkState (caller s) RGone None (_q s) (pipe s)
                          (reply_error s) (reply_value s) (S (executed s)))
      end
  | RNotify =>
      (* [cond.notify()] wakes the thread that waits, if one does *)
      Some (mkState (match caller s with CWaiting => CWoken | other => other end)
                    RRelease (lock s) (_q s) (pipe s)
                    (reply_error s) (reply_value s) (executed s))
  | RRelease =>
      Some (mkState (caller s) RDrain None (_q s) (pipe s)
                    (reply_error s) (reply_value s) (executed s))
  | RGone => None
  end.

(** A step of the system: a step of either thread. *)
Inductive step : state -> state -> Prop :=
| step_caller s s' : caller_step s = Some s' -> step s s'
| step_reactor s s' : reactor_step s = Some s' -> step s s'.

(** The states the system can get to from [initial]. *)
Inductive reachable : state -> Prop :=
| reach_initial : reachable initial
| reach_step s s' : reachable s -> step s s' -> reachable s'.

(** [inject_wait] has come back to its caller. *)
Definition done (s : state) : bool :=
  match caller s with
  | CReturned _ | CRaised _ => true
  | _ => false
  end.

(** Neither thread can take a step. *)
Definition stuck (s : state) : bool :=
  match caller_step s, reactor_step s with
  | None, None => true
  | _, _ => false
  end.

(** Run the system under a schedule that says which thread goes next;
    a thread that cannot step leaves the state as it is. *)
Fixpoint run (schedule : list thread) (s : state) : state :=
  match schedule with
  | [] => s
  | t :: rest =>
      match (match t with Caller => caller_step s | Reactor => reactor_step s end) with
      | Some s' => run rest s'
      | None => run rest s
      end
  end.

End Steps.

End Inject.

(** * Properties *)

(** ** Callback funnels (asyn/core.py) *)

(** *** What the callables see *)

(** One invocation of a registered callable, as the callable itself
    notes it: who was called, with which context and arguments, and
    whether the call came back. *)
Record invocation := mkInvocation {
  who : Core.callee;
  with_ctx : Core.Context;
  with_args : list pyval;
  came_back : bool
}.

(** The callables of [obs], each noting its own invocation in a list of
    its world before doing what [obs] has it do.  The list is out of
    reach of [callout()] and of [obs]: it grows only when a callable is
    really called. *)
Definition noting {W : Type} (obs : Core.observers (W:=W))
    : Core.observers (W:=list invocation * W) :=
  λ cb ctx args s,
    let '((cal', w'), r) := obs cb ctx args (s.1, s.2.2) in
    ((cal', (s.2.1 ++ [mkInvocation cb ctx args (returns r)], w')), r).

(** The invocations of all of [l], each coming back. *)
Definition all_called (c : Core.Context) (args : list pyval) (l : list Core.callee)
    : list invocation :=
  map (λ cb, mkInvocation cb c args true) l.

Section NotingFacts.

Context {W : Type}.
Implicit Types (obs : Core.observers (W:=W)).

Lemma call_each_noting obs latched c args cal notes w :
  let '((_, (notes', _)), r, _) :=
    Core.call_each (noting obs) latched c args (cal, (notes, w)) in
  match r with
  | inr _ => notes' = notes ++ all_called c args latched
  | inl _ => ∃ pre cb rest,
      latched = pre ++ cb :: rest
      ∧ notes' = notes ++ all_called c args pre ++ [mkInvocation cb c args false]
  end.
Proof.
  revert cal notes w. induction latched as [|cb rest IH]; intros cal notes w.
  - cbn. by rewrite app_nil_r.
  - cbn [Core.call_each]. unfold noting at 1. cbn [fst snd].
    destruct (obs cb c args (cal, w)) as [[cal1 w1] [e|v]].
    + cbn. exists [], cb, rest. done.
    + cbn -[Core.call_each app all_called].
      specialize (IH cal1 (notes ++ [mkInvocation cb c args true]) w1).
      destruct (Core.call_each (noting obs) rest c args
                  (cal1, (notes ++ [mkInvocation cb c args true], w1)))
        as [[[cal2 [notes2 w2]] r] tr].
      destruct r as [e|vs].
      * destruct IH as (pre & cb' & rest' & -> & ->).
        exists (cb :: pre), cb', rest'. split; [done|].
        cbn. by rewrite <- !app_assoc.
      * rewrite IH. cbn. by rewrite <- app_assoc.
Qed.

End NotingFacts.

(** C3.  Whatever the registered callables do to the Callable while they
    run (adding, removing, replacing or clearing callables, themselves
    included), one [callout()] calls exactly the callables of the list
    as it stood when [callout()] was entered, once each and in that
    order, each with the context and the arguments of the callout: all
    of them when the callout returns, and, when it raises, those up to
    the one whose exception ended it.  The invocations are those the
    callables note themselves. *)
Theorem callout_invokes_entry_snapshot {W : Type}
    (obs : Core.observers (W:=W)) (ctx : Core.ctx_arg) (args : list pyval)
    (cal : Core.Callable) (notes : list invocation) (w : W) :
  let '((_, (notes', _)), r, _) :=
    Core.callout (noting obs) ctx args (cal, (notes, w)) in
  match Core.as_context ctx with
  | None => notes' = notes ∧ r = inl AssertionError
  | Some c =>
      match r with
      | inr _ => notes' = notes ++ all_called c args (Core._callbacks cal)
      | inl _ => ∃ pre cb rest,
          Core._callbacks cal = pre ++ cb :: rest
          ∧ notes' = notes ++ all_called c args pre
                           ++ [mkInvocation cb c args false]
      end
  end.
Proof.
  unfold Core.callout. destruct (Core.as_context ctx) as [c|]; [|done].
  cbn [fst].
  pose proof (call_each_noting obs (Core._callbacks cal) c args cal notes w) as H.
  destruct (Core.call_each (noting obs) (Core._callbacks cal) c args
              (cal, (notes, w))) as [[[cal' [notes' w']] r] tr].
  destruct r as [e|results]; [done|].
  cbn [fst]. by destruct (Core._callback_reducer cal').
Qed.

(** The core test of [asyn/_regression.py]: [c0], [c1], [c2] return
    [None], [1], [2] and leave the Callable alone. *)
Definition regression_obs : Core.observers (W:=unit) :=
  λ cb _ _, ret (match cb with O => PNone | _ => PInt (Z.of_nat cb) end).

Example regression_three_callouts :
  let cal := Core.add_callout (Some 1%nat)
               (Core.add_callout (Some 2%nat) (Core.set_callout (Some 0%nat)
                  (Core.Callable_init None))) in
  Core.callout regression_obs (Core.AStr "blah") [] (cal, tt)
  = ((cal, tt), inr (PInt 2), [0; 2; 1]%nat).
Proof. reflexivity. Qed.

Example regression_no_reducer :
  let cal := Core.set_callout_reduce None
               (Core.add_callout (Some 1%nat) (Core.set_callout (Some 0%nat)
                  (Core.Callable_init None))) in
  Core.callout regression_obs (Core.AStr "blah") [] (cal, tt)
  = ((cal, tt), inr (PList [PNone; PInt 1]), [0; 1]%nat).
Proof. reflexivity. Qed.

(** Every callable unregisters itself and registers a newcomer while it
    runs: the callout under way still enters the three it latched. *)
Definition churning_obs : Core.observers (W:=unit) :=
  λ cb _ _ s,
    let '(s1, r) := Core.remove_callout cb true (fst s) in
    ((Core.add_callout (Some (cb + 10)%nat) s1, snd s),
     match r with inl e => inl e | inr _ => inr PNone end).

Example churning_callout :
  let cal := Core.mkCallable [0; 1; 2]%nat (Some Core.default_reducer) in
  Core.callout churning_obs (Core.AStr "blah") [] (cal, tt)
  = ((Core.mkCallable [10; 11; 12]%nat (Some Core.default_reducer), tt),
     inr PNone, [0; 1; 2]%nat).
Proof. reflexivity. Qed.

(** ** Scanners (asyn/scan.py) *)

(** A Scannable with the given rules and an empty read buffer. *)
Definition regex_scannable (rules : Scan.Regex) : Scan.Scannable :=
  Scan.mkScannable (Some (Scan.SRegex rules)) [].

(** The decoded events of feeding [chunks] to a fresh Scannable. *)
Definition scan_events (rules : Scan.Regex) (chunks : list bytes)
    : list (option string * list pyval) :=
  let '(_, log, _) :=
    Scan.feed Scan.Callable_callout chunks (regex_scannable rules) [] in
  map Scan.decoded log.

(** The scenario of the specification: [AB] then [C\n] through the line
    rule gives one event, carrying [ABC]. *)
Example line_rule_reassembles :
  Scan.feed Scan.Callable_callout [bs "AB"; bs "C" ++ [LF]]
            (regex_scannable Scan._line) []
  = (regex_scannable Scan._line,
     [Scan.mkCall
        (Core.ACtx (Core.mkContext "command" None
           [("rule"%string, PInt 0);
            ("match"%string, PList [PStr (bs "ABC" ++ [LF]); PInt 4; PList [PStr (bs "ABC")]])]))
        [PStr (bs "ABC")] []],
     Scan.Finished).
Proof. reflexivity. Qed.

(** A one-rule tokenizer for runs of digits. *)
Definition digits_rules : Scan.Regex :=
  [Scan.mkRule Scan.re_digits (Some "number"%string) []].

(** C4 as stated fails: a rule that can match before its token is
    complete decodes [12] and [3] from two chunks, and [123] from one. *)
Lemma regex_events_depend_on_chunking :
  let chunks := [bs "12"; bs "3"] in
  scan_events digits_rules chunks
    = [(Some "number"%string, [PStr (bs "12")]); (Some "number"%string, [PStr (bs "3")])]
  ∧ scan_events digits_rules [concat chunks]
    = [(Some "number"%string, [PStr (bs "123")])]
  ∧ scan_events digits_rules chunks ≠ scan_events digits_rules [concat chunks].
Proof. split; [reflexivity | split; [reflexivity | discriminate]]. Qed.

(** The rule [Regex.scan] settles on for a buffer: the first whose
    pattern matches, with its position and the match. *)
Fixpoint first_match (rules : list Scan.rule) (k : nat) (buffer : bytes)
    : option (nat * Scan.rule * Scan.Match) :=
  match rules with
  | [] => None
  | r :: rest =>
      match Scan.r_pattern r buffer with
      | Some m => Some (k, r, m)
      | None => first_match rest (S k) buffer
      end
  end.

(** A rule set whose decisions later bytes cannot change: when a rule
    wins on a buffer, it consumes at least one byte and no more than the
    buffer holds, and on every extension of the buffer the same rule
    wins with the same end and groups. *)
Definition prefix_stable (rules : Scan.Regex) : Prop :=
  ∀ buffer k r m,
    first_match rules 0 buffer = Some (k, r, m) →
    (0 < Scan.m_end m ≤ length buffer)%nat
    ∧ ∀ ext, ∃ m', first_match rules 0 (buffer ++ ext) = Some (k, r, m')
                   ∧ Scan.m_end m' = Scan.m_end m
                   ∧ Scan.m_groups m' = Scan.m_groups m.

(** What a buffer decodes to, as a function: the decoded events in
    order, and the bytes left waiting. *)
Fixpoint drain (fuel : nat) (rules : Scan.Regex) (buffer : bytes)
    : list (option string * list pyval) * bytes :=
  match buffer, fuel with
  | [], _ => ([], [])
  | _, O => ([], buffer)
  | _, S fuel' =>
      match first_match rules 0 buffer with
      | None => ([], buffer)
      | Some (k, r, m) =>
          let '(evs, rest) := drain fuel' rules (drop (Scan.m_end m) buffer) in
          (match Scan.state_true (Scan.r_state r) with
           | Some st => (Some st, Scan.m_groups m) :: evs
           | None => evs
           end, rest)
      end
  end.

Section RegexFacts.

Variable rules : Scan.Regex.
Hypothesis stable : prefix_stable rules.

Lemma slice_from_nat {A} (s : list A) (n : nat) :
  slice_from s (Z.of_nat n) = drop n s.
Proof.
  unfold slice_from, slice_index.
  destruct (Z.ltb_spec (Z.of_nat n) 0); [lia|].
  destruct (decide (n ≤ length s)%nat).
  - f_equal. lia.
  - rewrite !drop_ge by lia. done.
Qed.

Lemma try_rules_first_match rs k buffer (w : list Scan.call) :
  Scan.try_rules Scan.Callable_callout rs k buffer w =
  match first_match rs k buffer with
  | None => (w, inr None)
  | Some (k', r, m) =>
      (match Scan.state_true (Scan.r_state r) with
       | Some st => w ++ [Scan.mkCall
                            (Core.ACtx (Scan.match_context st k' r buffer m))
                            (Scan.m_groups m) []]
       | None => w
       end, inr (Some (drop (Scan.m_end m) buffer)))
  end.
Proof.
  revert k. induction rs as [|r rs IH]; intros k; simpl; [done|].
  destruct (Scan.r_pattern r buffer) as [m|]; [|apply IH].
  rewrite slice_from_nat. by destruct (Scan.state_true (Scan.r_state r)).
Qed.

Lemma scan_loop_regex_step fuel buffer (w : list Scan.call) :
  buffer ≠ [] →
  Scan._scan_loop Scan.Callable_callout (S fuel)
    (Scan.mkScannable (Some (Scan.SRegex rules)) buffer) w
  = match Scan.try_rules Scan.Callable_callout rules 0 buffer w with
    | (w', inl e) =>
        (Scan.mkScannable (Some (Scan.SRegex rules)) buffer, w', Scan.Raised e)
    | (w', inr None) =>
        (Scan.mkScannable (Some (Scan.SRegex rules)) buffer, w', Scan.Finished)
    | (w', inr (Some result)) =>
        Scan._scan_loop Scan.Callable_callout fuel
          (Scan.mkScannable (Some (Scan.SRegex rules)) result) w'
    end.
Proof.
  destruct buffer as [|c b]; [done|]. intros _. cbn.
  by destruct (Scan.try_rules _ _ _ _ _) as [? [?|[?|]]].
Qed.

Lemma drain_step fuel buffer :
  buffer ≠ [] →
  drain (S fuel) rules buffer
  = match first_match rules 0 buffer with
    | None => ([], buffer)
    | Some (k, r, m) =>
        let '(evs, rest) := drain fuel rules (drop (Scan.m_end m) buffer) in
        (match Scan.state_true (Scan.r_state r) with
         | Some st => (Some st, Scan.m_groups m) :: evs
         | None => evs
         end, rest)
    end.
Proof. by destruct buffer. Qed.

(** With enough fuel the loop ends, keeps the scanner, and its log and
    buffer are those of [drain]. *)
Lemma scan_loop_drain fuel buffer (w : list Scan.call) :
  (length buffer < fuel)%nat →
  ∃ w', Scan._scan_loop Scan.Callable_callout fuel
          (Scan.mkScannable (Some (Scan.SRegex rules)) buffer) w
        = (Scan.mkScannable (Some (Scan.SRegex rules)) (drain fuel rules buffer).2,
           w ++ w', Scan.Finished)
        ∧ map Scan.decoded w' = (drain fuel rules buffer).1.
Proof.
  revert buffer w. induction fuel as [|fuel IH]; intros buffer w Hlen; [lia|].
  destruct (decide (buffer = [])) as [->|Hne].
  { exists []. by rewrite app_nil_r. }
  rewrite scan_loop_regex_step, drain_step, try_rules_first_match by done.
  destruct (first_match rules 0 buffer) as [[[k r] m]|] eqn:Efm.
  - destruct (stable _ _ _ _ Efm) as [[Hpos Hle] _].
    set (w1 := match Scan.state_true (Scan.r_state r) with
               | Some st => _ | None => w end).
    destruct (IH (drop (Scan.m_end m) buffer) w1) as (w' & Hrun & Hdec).
    { rewrite length_drop. lia. }
    rewrite Hrun.
    destruct (drain fuel rules (drop (Scan.m_end m) buffer)) as [evs rest] eqn:Ed.
    simpl in *. subst w1.
    destruct (Scan.state_true (Scan.r_state r)) as [st|].
    + eexists (_ :: w'). rewrite <- app_assoc. simpl. split; [done|].
      by rewrite Hdec.
    + by exists w'.
  - exists []. by rewrite app_nil_r.
Qed.

Lemma drain_fuel f1 f2 buffer :
  (length buffer < f1)%nat → (length buffer < f2)%nat →
  drain f1 rules buffer = drain f2 rules buffer.
Proof.
  revert f2 buffer. induction f1 as [|f1 IH]; intros f2 buffer H1 H2; [lia|].
  destruct f2 as [|f2]; [lia|].
  destruct (decide (buffer = [])) as [->|Hne]; [done|].
  rewrite !drain_step by done.
  destruct (first_match rules 0 buffer) as [[[k r] m]|] eqn:Efm; [|done].
  destruct (stable _ _ _ _ Efm) as [[Hpos Hle] _].
  rewrite (IH f2); [done| |]; rewrite length_drop; lia.
Qed.

(** Decoding a buffer and then what it left together with the bytes that
    follow gives what decoding all of it at once gives. *)
Lemma drain_app n buffer ext :
  (length buffer < n)%nat →
  drain (S (length (buffer ++ ext))) rules (buffer ++ ext)
  = let '(e1, r1) := drain (S (length buffer)) rules buffer in
    let '(e2, r2) := drain (S (length (r1 ++ ext))) rules (r1 ++ ext) in
    (e1 ++ e2, r2).
Proof.
  revert buffer. induction n as [|n IH]; intros buffer Hn; [lia|].
  destruct (decide (buffer = [])) as [->|Hne].
  { change (drain (S (length ext)) rules ext
            = let '(e2, r2) := drain (S (length ext)) rules ext in ([] ++ e2, r2)).
    by destruct (drain (S (length ext)) rules ext). }
  rewrite (drain_step (length buffer)) by done.
  destruct (first_match rules 0 buffer) as [[[k r] m]|] eqn:Efm.
  - destruct (stable _ _ _ _ Efm) as [[Hpos Hle] Hext].
    destruct (Hext ext) as (m' & Efm' & Hend & Hgroups).
    rewrite drain_step by (by destruct buffer).
    rewrite Efm', Hend, Hgroups.
    rewrite drop_app_le by done.
    rewrite (drain_fuel _ (S (length (drop (Scan.m_end m) buffer ++ ext))));
      [|rewrite !length_app, length_drop; lia|lia].
    rewrite (IH (drop (Scan.m_end m) buffer)) by (rewrite length_drop; lia).
    rewrite (drain_fuel (length buffer) (S (length (drop (Scan.m_end m) buffer))));
      [|rewrite length_drop; lia|lia].
    destruct (drain (S (length (drop (Scan.m_end m) buffer))) rules
                (drop (Scan.m_end m) buffer)) as [e1 r1].
    destruct (drain (S (length (r1 ++ ext))) rules (r1 ++ ext)) as [e2 r2].
    by destruct (Scan.state_true (Scan.r_state r)).
  - by destruct (drain (S (length (buffer ++ ext))) rules (buffer ++ ext)).
Qed.

(** What a run leaves in the buffer decodes to nothing more. *)
Lemma drain_stalled buffer :
  let r1 := (drain (S (length buffer)) rules buffer).2 in
  drain (S (length r1)) rules r1 = ([], r1).
Proof.
  pose proof (drain_app (S (length buffer)) buffer [] (Nat.lt_succ_diag_r _)) as H.
  rewrite !app_nil_r in H.
  destruct (drain (S (length buffer)) rules buffer) as [e1 r1].
  cbv zeta. cbn [snd]. rewrite app_nil_r in H.
  destruct (drain (S (length r1)) rules r1) as [e2 r2].
  injection H as He Hr. subst r2. f_equal.
  apply (f_equal length) in He. rewrite length_app in He.
  destruct e2; [done|]. simpl in He. lia.
Qed.

Lemma feed_drain chunks r (w : list Scan.call) :
  drain (S (length r)) rules r = ([], r) →
  let all := r ++ concat chunks in
  ∃ w', Scan.feed Scan.Callable_callout chunks
          (Scan.mkScannable (Some (Scan.SRegex rules)) r) w
        = (Scan.mkScannable (Some (Scan.SRegex rules))
             (drain (S (length all)) rules all).2,
           w ++ w', Scan.Finished)
        ∧ map Scan.decoded w' = (drain (S (length all)) rules all).1.
Proof.
  revert r w. induction chunks as [|c cs IH]; intros r w Hr;
    cbv zeta; cbn [concat Scan.feed].
  - rewrite app_nil_r, Hr. exists []. by rewrite app_nil_r.
  - unfold Scan._scan, Scan._scan_fuel. cbn [Scan.scan Scan._rbuf].
    destruct (scan_loop_drain (S (length (r ++ c))) (r ++ c) w) as (w1 & Hrun & Hdec);
      [lia|].
    rewrite Hrun.
    destruct (IH _ (w ++ w1) (drain_stalled (r ++ c))) as (w2 & Hrun2 & Hdec2).
    rewrite Hrun2. exists (w1 ++ w2).
    pose proof (drain_app (S (length (r ++ c))) (r ++ c) (concat cs)
                  (Nat.lt_succ_diag_r _)) as Happ.
    rewrite <- !app_assoc in Happ. rewrite Happ.
    destruct (drain (S (length (r ++ c))) rules (r ++ c)) as [e1 r1].
    cbn [fst snd] in *.
    destruct (drain (S (length (r1 ++ concat cs))) rules (r1 ++ concat cs))
      as [e2 r2].
    cbn [fst snd] in *. rewrite app_assoc, map_app, Hdec, Hdec2. done.
Qed.

End RegexFacts.

(** C4, amended.  For a rule set whose decisions later bytes cannot
    change, feeding a byte string in any partition into chunks ends with
    the same decoded events, in the same order, and the same bytes left
    in the read buffer, as feeding it in one chunk. *)
Theorem regex_chunking_independent (rules : Scan.Regex) (chunks : list bytes) :
  prefix_stable rules →
  let '(s1, log1, end1) :=
    Scan.feed Scan.Callable_callout chunks (regex_scannable rules) [] in
  let '(s2, log2, end2) :=
    Scan.feed Scan.Callable_callout [concat chunks] (regex_scannable rules) [] in
  end1 = Scan.Finished ∧ end2 = Scan.Finished
  ∧ map Scan.decoded log1 = map Scan.decoded log2
  ∧ s1 = s2.
Proof.
  intros Hst. unfold regex_scannable.
  destruct (feed_drain rules Hst chunks [] [] eq_refl) as (w1 & H1 & D1).
  destruct (feed_drain rules Hst [concat chunks] [] [] eq_refl) as (w2 & H2 & D2).
  rewrite H1, H2. cbn [concat app] in *. rewrite app_nil_r in *.
  by rewrite D1, D2.
Qed.

Lemma before_newline_length buffer line :
  Scan.before_newline buffer = Some line → (S (length line) ≤ length buffer)%nat.
Proof.
  revert line. induction buffer as [|c b IH]; intros line; simpl; [done|].
  destruct (Ascii.eqb c LF).
  - intros [= <-]. simpl. lia.
  - destruct (Scan.before_newline b) as [l|]; [|done].
    intros [= <-]. simpl. specialize (IH l eq_refl). lia.
Qed.

Lemma before_newline_app buffer ext line :
  Scan.before_newline buffer = Some line →
  Scan.before_newline (buffer ++ ext) = Some line.
Proof.
  revert line. induction buffer as [|c b IH]; intros line; simpl; [done|].
  destruct (Ascii.eqb c LF); [done|].
  destruct (Scan.before_newline b) as [l|]; [|done].
  intros [= <-]. by rewrite (IH l eq_refl).
Qed.

(** The line rule of [Command] decides at the first newline, which
    later bytes do not move. *)
Lemma line_prefix_stable : prefix_stable Scan._line.
Proof.
  intros buffer k r m. unfold Scan._line. cbn [first_match Scan.r_pattern].
  unfold Scan.re_line.
  destruct (Scan.before_newline buffer) as [line|] eqn:E; [|done].
  intros [= <- <- <-]. cbn [Scan.m_end Scan.m_groups]. split.
  - split; [lia|]. by apply before_newline_length.
  - intros ext. rewrite (before_newline_app _ ext _ E). by eexists.
Qed.

(** The theorem at work on the line rule: [AB], [C\nD], [\n]. *)
Lemma regex_chunking_independent_witness :
  let chunks := [bs "AB"; bs "C" ++ [LF] ++ bs "D"; [LF]] in
  let '(s1, log1, end1) :=
    Scan.feed Scan.Callable_callout chunks (regex_scannable Scan._line) [] in
  let '(s2, log2, end2) :=
    Scan.feed Scan.Callable_callout [concat chunks] (regex_scannable Scan._line) [] in
  end1 = Scan.Finished ∧ end2 = Scan.Finished
  ∧ map Scan.decoded log1 = map Scan.decoded log2
  ∧ s1 = s2.
Proof.
  exact (regex_chunking_independent Scan._line
           [bs "AB"; bs "C" ++ [LF] ++ bs "D"; [LF]] line_prefix_stable).
Defined.

(** *** The byte limiter *)

(** One [scan()] call on a limiter, with a callout that accepts the
    [scan] keyword and notes each call. *)
Definition scan_once (b : Scan.ByteLimit) (buffer : bytes)
    : Scan.ByteLimit * list Scan.call * (exn + option bytes) :=
  let '((b', log), r) := Scan.ByteLimit_scan Scan.recording_callout buffer (b, []) in
  (b', log, r).

(** The calls noted over a sequence of [scan()] calls on one limiter. *)
Fixpoint scan_calls (buffers : list bytes) (b : Scan.ByteLimit) : list Scan.call :=
  match buffers with
  | [] => []
  | buffer :: rest =>
      let '(b', log, _) := scan_once b buffer in
      log ++ scan_calls rest b'
  end.

Definition limit_data (send : bytes) : Scan.call :=
  Scan.mkCall (Core.AStr "limit-data") [PStr send] [("scan"%string, PRef 0)].

Definition limit_reached : Scan.call :=
  Scan.mkCall (Core.AStr "limit-reached") [] [("scan"%string, PRef 0)].

Definition is_reached (c : Scan.call) : bool :=
  match Scan.c_ctx c with
  | Core.AStr st => String.eqb st "limit-reached"
  | _ => false
  end.

Definition count_reached (log : list Scan.call) : nat :=
  length (filter (λ c, is_reached c = true) log).

(** C9 as stated fails: a limiter of three bytes handed [abc] and then
    [d] calls out [limit-reached] twice. *)
Lemma bytelimit_reached_twice :
  scan_calls [bs "abc"; bs "d"] (Scan.ByteLimit_init 3 None)
    = [limit_data (bs "abc"); limit_reached; limit_data []; limit_reached]
  ∧ count_reached (scan_calls [bs "abc"; bs "d"] (Scan.ByteLimit_init 3 None)) = 2%nat.
Proof. split; reflexivity. Qed.

Lemma len_slice_0 (s : bytes) (n : Z) :
  0 ≤ n ≤ len s → len (slice s 0 n) = n.
Proof.
  unfold len, slice, slice_index. intros Hn.
  destruct (Z.ltb_spec 0 0); [lia|]. destruct (Z.ltb_spec n 0); [lia|].
  rewrite length_take, length_drop. lia.
Qed.

(** The limiter as a sequence of [scan()] calls leaves it. *)
Fixpoint scan_all (buffers : list bytes) (b : Scan.ByteLimit) : Scan.ByteLimit :=
  match buffers with
  | [] => b
  | buffer :: rest => scan_all rest (scan_once b buffer).1.1
  end.

(** The bytes a call hands over: those of a [limit-data], none otherwise. *)
Definition payload (c : Scan.call) : Z :=
  match Scan.c_ctx c, Scan.c_args c with
  | Core.AStr st, [PStr send] => if String.eqb st "limit-data" then len send else 0
  | _, _ => 0
  end.

(** The bytes handed over in the [limit-data] calls of a log. *)
Fixpoint bytes_called_out (log : list Scan.call) : Z :=
  match log with
  | [] => 0
  | c :: rest => payload c + bytes_called_out rest
  end.

(** The test [self._threshold and available < self._threshold] of a
    [scan()] call with [d] bytes delivered before it. *)
Definition too_early (threshold : option Z) (d : Z) (buffer : bytes) : bool :=
  match threshold with
  | Some t => negb (t =? 0) && (d + len buffer <? t)
  | None => false
  end.

Lemma slice_0_all (s : bytes) (n : Z) : len s ≤ n → slice s 0 n = s.
Proof.
  unfold len, slice, slice_index. intros Hn.
  destruct (Z.ltb_spec 0 0); [lia|]. destruct (Z.ltb_spec n 0); [lia|].
  replace (Z.to_nat (Z.min 0 (Z.of_nat (length s)))) with 0%nat by lia.
  rewrite drop_0, Nat.sub_0_r. apply firstn_all2. lia.
Qed.

Lemma bytes_called_out_app (l1 l2 : list Scan.call) :
  bytes_called_out (l1 ++ l2) = bytes_called_out l1 + bytes_called_out l2.
Proof.
  induction l1 as [|c l1 IH]; [done|].
  cbn [app bytes_called_out]. rewrite IH. lia.
Qed.

(** One [scan()] call from within the budget. *)
Lemma scan_once_exact (b : Scan.ByteLimit) (buffer : bytes) :
  0 ≤ Scan._delivered b ≤ Scan._limit b →
  let d := Scan._delivered b in
  let L := Scan._limit b in
  let '(b', log, _) := scan_once b buffer in
  Scan._limit b' = L ∧ Scan._threshold b' = Scan._threshold b
  ∧ Scan._delivered b' = d + bytes_called_out log
  ∧ Scan._delivered b' ≤ L
  ∧ log = if too_early (Scan._threshold b) d buffer then []
          else limit_data (slice buffer 0 (L - d))
               :: (if L <=? d + len buffer then [limit_reached] else []).
Proof.
  intros Hd. destruct b as [L thr d]. cbn [Scan._delivered Scan._limit] in Hd.
  unfold scan_once, too_early, Scan.ByteLimit_scan, bind, Scan.on_scanner,
    Scan.on_world, Scan.recording_callout, bind, modify, ret.
  cbn [Scan._delivered Scan._limit Scan._threshold].
  pose proof (Zle_0_nat (length buffer)) as Hlen. fold (len buffer) in Hlen.
  destruct (match thr with
            | Some t => negb (t =? 0) && (d + len buffer <? t)
            | None => false
            end); [cbn; split_and!; (done || lia)|].
  destruct (Z.gtb_spec (d + len buffer) L) as [Hgt|Hle];
    cbn -[Z.add Z.sub len slice slice_from Z.eqb Z.leb].
  - replace (d + (L - d)) with L by lia. rewrite Z.eqb_refl.
    cbn -[Z.add Z.sub len slice slice_from Z.eqb Z.leb].
    rewrite len_slice_0 by lia.
    destruct (Z.leb_spec L (d + len buffer)); [|lia].
    split_and!; (done || lia).
  - rewrite (slice_0_all buffer (L - d)) by lia.
    destruct (Z.eqb_spec (d + len buffer) L) as [E|E];
      cbn -[Z.add Z.sub len slice slice_from Z.eqb Z.leb];
      destruct (Z.leb_spec L (d + len buffer)); try lia;
      split_and!; (done || lia).
Qed.

Lemma scan_all_exact (buffers : list bytes) (b : Scan.ByteLimit) :
  0 ≤ Scan._delivered b ≤ Scan._limit b →
  Scan._limit (scan_all buffers b) = Scan._limit b
  ∧ Scan._threshold (scan_all buffers b) = Scan._threshold b
  ∧ Scan._delivered (scan_all buffers b)
    = Scan._delivered b + bytes_called_out (scan_calls buffers b)
  ∧ Scan._delivered b ≤ Scan._delivered (scan_all buffers b) ≤ Scan._limit b.
Proof.
  revert b. induction buffers as [|buffer rest IH]; intros b Hd.
  - cbn. split_and!; (done || lia).
  - cbn [scan_all scan_calls]. pose proof (scan_once_exact b buffer Hd) as Hs.
    cbv zeta in Hs.
    destruct (scan_once b buffer) as [[b' log] r]. cbn [fst].
    destruct Hs as (HL & Ht & Hdel & Hle & Hlog).
    assert (0 ≤ bytes_called_out log) as Hpos.
    { rewrite Hlog. destruct (too_early _ _ _); [done|].
      pose proof (Zle_0_nat (length (slice buffer 0 (Scan._limit b - Scan._delivered b)))).
      destruct (_ <=? _); cbn -[slice Z.add Z.sub]; unfold len; lia. }
    destruct (IH b') as (HL' & Ht' & Hdel' & Hle'); [lia|].
    rewrite bytes_called_out_app. split_and!; try congruence; lia.
Qed.

(** C9, amended.  Take a limiter of budget [L] after any sequence of
    [scan()] calls, with [d] the bytes its [limit-data] calls have
    handed over so far, and call [scan()] once more, with a callout that
    takes the [scan] keyword.  Then [d] is within [L], and the call
    calls out nothing when the threshold holds it back; otherwise it
    calls out [limit-data] with the first [L - d] bytes of the buffer
    (all of it when it is shorter), followed by [limit-reached] exactly
    when the buffer reaches the budget, [L <= d + len(buffer)]: at no
    call before the budget is complete, at the call that completes it,
    and again at every later call that passes the threshold. *)
Theorem bytelimit_reached_when_budget_spent
    (L : Z) (threshold : option Z) (before : list bytes) (buffer : bytes) :
  0 ≤ L →
  let d := bytes_called_out (scan_calls before (Scan.ByteLimit_init L threshold)) in
  let '(_, log, _) :=
    scan_once (scan_all before (Scan.ByteLimit_init L threshold)) buffer in
  d ≤ L
  ∧ log = if too_early threshold d buffer then []
          else limit_data (slice buffer 0 (L - d))
               :: (if L <=? d + len buffer then [limit_reached] else []).
Proof.
  intros HL d.
  destruct (scan_all_exact before (Scan.ByteLimit_init L threshold))
    as (HL' & Ht & Hdel & Hle); [cbn; lia|].
  change (Scan._limit (Scan.ByteLimit_init L threshold)) with L in *.
  change (Scan._threshold (Scan.ByteLimit_init L threshold)) with threshold in *.
  change (Scan._delivered (Scan.ByteLimit_init L threshold)) with 0 in *.
  fold d in Hdel. rewrite Z.add_0_l in Hdel.
  pose proof (scan_once_exact (scan_all before (Scan.ByteLimit_init L threshold))
                buffer) as Hs.
  cbv zeta in Hs.
  destruct (scan_once _ buffer) as [[b' log] r].
  rewrite HL', Ht, Hdel in Hs. destruct Hs as (_ & _ & _ & _ & ->); [lia|].
  split; [lia|done].
Qed.

Lemma bytelimit_reached_when_budget_spent_witness :
  let d := bytes_called_out (scan_calls [bs "ab"; bs "cd"]
                                        (Scan.ByteLimit_init 3 (Some 2))) in
  let '(_, log, _) :=
    scan_once (scan_all [bs "ab"; bs "cd"] (Scan.ByteLimit_init 3 (Some 2)))
              (bs "e") in
  d ≤ 3
  ∧ log = if too_early (Some 2) d (bs "e") then []
          else limit_data (slice (bs "e") 0 (3 - d))
               :: (if 3 <=? d + len (bs "e") then [limit_reached] else []).
Proof.
  apply (bytelimit_reached_when_budget_spent 3 (Some 2) [bs "ab"; bs "cd"] (bs "e")).
  lia.
Defined.

(** Below the budget nothing is called out as reached: two bytes into a
    limiter of three. *)
Example bytelimit_below_budget :
  scan_calls [bs "a"; bs "b"] (Scan.ByteLimit_init 3 None)
  = [limit_data (bs "a"); limit_data (bs "b")].
Proof. reflexivity. Qed.

(** Fed by a Scannable, the limiter is handed [Callable.callout], which
    takes no keyword: the first delivery raises and nothing is called
    out. *)
Example bytelimit_under_scannable :
  Scan._scan Scan.Callable_callout (bs "abc")
    (Scan.mkScannable (Some (Scan.SByteLimit (Scan.ByteLimit_init 3 None))) []) []
  = (Scan.mkScannable (Some (Scan.SByteLimit (Scan.ByteLimit_init 3 None))) (bs "abc"),
     [], Scan.Raised TypeError).
Proof. reflexivity. Qed.

(** ** The chunked-transfer filter (asyn/http_chunk.py) *)

Fixpoint write_all (writes : list bytes) : M HttpChunk.ChunkedCoder unit :=
  match writes with
  | [] => ret tt
  | data :: rest => do _ <~ HttpChunk.write data; write_all rest
  end.

(** What [write()] of each string and then [write_flush()] hand to the
    upstream, call by call. *)
Definition chunk_writes (writes : list bytes) : list bytes :=
  let '(self, _) :=
    (do _ <~ write_all writes; HttpChunk.write_flush)
      (HttpChunk.open Upstream.fresh) in
  match HttpChunk.upstream self with
  | Some u => Upstream.written u
  | None => []
  end.

(** Hand the pieces to [incoming] as raw data, one call each, with the
    recipients of the filter's callouts noting them. *)
Fixpoint chunk_incoming (pieces : list bytes) (self : HttpChunk.ChunkedCoder)
    (log : list Scan.call) : HttpChunk.ChunkedCoder * list Scan.call * Scan.ending :=
  match pieces with
  | [] => (self, log, Scan.Finished)
  | data :: rest =>
      match HttpChunk.incoming Scan.Callable_callout Scan.RAW data self log with
      | (self', log', Scan.Finished) => chunk_incoming rest self' log'
      | stopped => stopped
      end
  end.

(** The bytes delivered downstream: the data of the [RAW] callouts. *)
Definition raw_bytes (log : list Scan.call) : bytes :=
  concat (map (λ c, match Scan.c_ctx c, Scan.c_args c with
                    | Core.ACtx ctx, [PStr data] =>
                        if String.eqb (Core.state ctx) "RAW" then data else []
                    | _, _ => []
                    end) log).

(** Write, flush, and parse what reached the wire, delivered in the
    pieces the upstream was handed or in one piece. *)
Definition chunk_roundtrip (whole : bool) (writes : list bytes) : bytes * Scan.ending :=
  let pieces := chunk_writes writes in
  let '(_, log, e) :=
    chunk_incoming (if whole then [concat pieces] else pieces)
                   (HttpChunk.open Upstream.fresh) [] in
  (raw_bytes log, e).

(** C1 fails on the code.  One [write()] of [abc] followed by
    [write_flush()] puts [3\r\nabc\r\n0\r\n\r\n] on the wire; parsed
    back, in the pieces written or in one piece, the filter delivers
    [abc\r\n] downstream: the line end that closes the chunk is passed
    on with the data.  The empty input does come back empty. *)
Lemma chunk_roundtrip_appends_line_end :
  concat (chunk_writes [bs "abc"]) = bs "3" ++ CRLF ++ bs "abc" ++ CRLF ++ bs "0" ++ CRLF ++ CRLF
  ∧ chunk_roundtrip true [bs "abc"] = (bs "abc" ++ CRLF, Scan.Finished)
  ∧ chunk_roundtrip false [bs "abc"] = (bs "abc" ++ CRLF, Scan.Finished)
  ∧ chunk_roundtrip true [] = ([], Scan.Finished).
Proof. split_and!; reflexivity. Qed.

(** ** The gzip filter (asyn/zfilter.py) *)

Section GzipFacts.

Variables Compress Decompress : Type.
Variable compressobj : Z → Compress.
Variable compress : bytes → Compress → Compress * bytes.
Variable flush_finish : Compress → Compress * bytes.

Let coder := ZFilter.GZipCoder Compress Decompress.
Let write := ZFilter.write Compress Decompress compressobj compress.
Let write_all := ZFilter.write_all Compress Decompress compressobj compress.
Let fresh (level : Z) : coder := ZFilter.open Compress Decompress Upstream.fresh level.

(** Once the compressor exists, [write()] does nothing. *)
Lemma gzip_write_all_noop (writes : list bytes) (self : coder) :
  is_Some (ZFilter._zw Compress Decompress self) →
  write_all writes self = (self, inr tt).
Proof.
  intros [z Hz]. induction writes as [|data rest IH]; [done|].
  unfold write_all in *. cbn [ZFilter.write_all].
  unfold bind, ZFilter.write at 1. by rewrite Hz.
Qed.

Lemma gzip_first_write (data : bytes) (level : Z) :
  is_Some (ZFilter._zw Compress Decompress (write data (fresh level)).1)
  ∧ (write data (fresh level)).2 = inr tt.
Proof.
  unfold write, fresh, ZFilter.write, ZFilter.open. cbn.
  destruct (compress data (compressobj level)) as [z out]. cbn. eauto.
Qed.

End GzipFacts.

(** C2 fails on the code.  Whatever zlib does, the bytes the filter
    passes upstream for a sequence of writes are those it passes for the
    first write alone: every later [write()] is dropped, so no
    decompressor can give the later bytes back. *)
Theorem gzip_passes_first_write_only
    (Compress Decompress : Type) (compressobj : Z → Compress)
    (compress : bytes → Compress → Compress * bytes)
    (flush_finish : Compress → Compress * bytes)
    (level : Z) (data : bytes) (later : list bytes) :
  ZFilter.passed_upstream Compress Decompress compressobj compress flush_finish
    level (data :: later)
  = ZFilter.passed_upstream Compress Decompress compressobj compress flush_finish
    level [data].
Proof.
  unfold ZFilter.passed_upstream. cbn [ZFilter.write_all]. unfold bind.
  pose proof (gzip_first_write Compress Decompress compressobj compress data level)
    as [Hz Hr].
  destruct (ZFilter.write Compress Decompress compressobj compress data
              (ZFilter.open Compress Decompress Upstream.fresh level)) as [self r].
  cbn [fst snd] in *. subst r.
  by rewrite (gzip_write_all_noop Compress Decompress compressobj compress later self Hz).
Qed.

(** ** Timers (asyn/controller.py) *)

(** Callables that leave the controller alone. *)
Definition quiet : Core.callee → Controller.Ctx → list Controller.action :=
  λ _ _, [].

(** Five calls before the loop runs: three timers for the times 5, 6
    and 7, the second one cancelled, then a timer for the time 3. *)
Definition five_calls (clock : nat → Controller.time) : M Controller.t unit :=
  do _ <~ Controller.schedule clock (inr 0%nat) (Some 5) None;
  do b <~ Controller.schedule clock (inr 1%nat) (Some 6) None;
  do _ <~ Controller.schedule clock (inr 2%nat) (Some 7) None;
  do _ <~ modify (Controller.cancel b);
  do _ <~ Controller.schedule clock (inr 3%nat) (Some 3) None;
  ret tt.

(** C5 fails on the code.  After the five calls the timers for the
    times 5, 3 and 7 are pending and the one for 6 is cancelled.
    [cancel()] clears [when] of an entry that sits inside the heap, so
    the entry sorts before every other while it stays below its parent;
    the timer for 3, pushed next, stops under it.  When the loop runs
    at time 10 the callouts come in the order 5, 3, 7; and at time 4
    the timer for 3, though due, is not fired at all. *)
Lemma cancel_breaks_firing_order :
  let c := Controller.set_running true (five_calls (λ _, 0) Controller.init).1 in
  Controller._schedq c = [0; 1; 2; 3]%nat
  ∧ map (Controller.when_of c) [0; 1; 2; 3]%nat = [Some 5; None; Some 7; Some 3]
  ∧ map (λ x, (Controller.sched x, Controller.ctx_when x))
        (Controller.fired (Controller._dispatch (λ _, 10) quiet c).1)
    = [(0%nat, 5); (3%nat, 3); (2%nat, 7)]
  ∧ Controller.fired (Controller._dispatch (λ _, 4) quiet c).1 = [].
Proof. split_and!; reflexivity. Qed.

(** The scenario of the specification, with no cancellation: timers
    for [t+10], [t+5] and [t+20] (in hundredths of a second) fire in
    the order [t+5], [t+10], [t+20]. *)
Example three_timers_in_order :
  let c := (do _ <~ Controller.schedule (λ _, 100) (inr 0%nat) None (Some 10);
            do _ <~ Controller.schedule (λ _, 100) (inr 1%nat) None (Some 5);
            do _ <~ Controller.schedule (λ _, 100) (inr 2%nat) None (Some 20);
            modify (Controller.set_running true)) Controller.init in
  map Controller.ctx_when
      (Controller.fired (Controller._dispatch (λ _, 125) quiet c.1).1)
  = [105; 110; 120].
Proof. reflexivity. Qed.

(** [n] passes of [_dispatch], as the loop of [run()] makes them. *)
Fixpoint passes (clock : nat → Controller.time)
    (handler : Core.callee → Controller.Ctx → list Controller.action)
    (n : nat) : M Controller.t unit :=
  match n with
  | O => ret tt
  | S n' => do _ <~ Controller._dispatch clock handler; passes clock handler n'
  end.

(** The callouts made for timer [T], oldest first. *)
Definition firings (T : nat) (c : Controller.t) : list Controller.Ctx :=
  filter (λ x, Controller.sched x = T) (Controller.fired c).

Section SparedTimer.

Variable clock : nat → Controller.time.
Variable handler : Core.callee → Controller.Ctx → list Controller.action.
Variable T : nat.

(** What a step may do without touching [T]: leave its object and the
    callouts alone, or cancel it; it never hands out [T]'s identity. *)
Definition spares (c c' : Controller.t) : Prop :=
  (Controller.allocated c ≤ Controller.allocated c')%nat
  ∧ Controller.fired c' = Controller.fired c
  ∧ (Controller.scheduled c' !! T = Controller.scheduled c !! T
     ∨ ∃ s, Controller.scheduled c !! T = Some s
            ∧ Controller.scheduled c' !! T
              = Some (Controller.mkScheduled None (Controller._callbacks s))).

Lemma spares_refl c : spares c c.
Proof. split_and!; auto. Qed.

Lemma spares_trans c1 c2 c3 : spares c1 c2 → spares c2 c3 → spares c1 c3.
Proof.
  intros (Ha & Hf & Hs) (Ha' & Hf' & Hs'). split_and!; [lia|congruence|].
  destruct Hs as [Hs|(s & Hs1 & Hs2)], Hs' as [Hs'|(s' & Hs1' & Hs2')].
  - left. congruence.
  - right. exists s'. split; congruence.
  - right. exists s. split; congruence.
  - right. exists s. rewrite Hs2 in Hs1'. injection Hs1' as <-. split; [done|].
    by rewrite Hs2'.
Qed.

(** A method that spares [T] from every state in which [T] exists. *)
Definition sparing {A} (m : M Controller.t A) : Prop :=
  ∀ c, (T < Controller.allocated c)%nat → spares c (m c).1.

Lemma bind_sparing {A B} (m : M Controller.t A) (k : A → M Controller.t B) :
  sparing m → (∀ a, sparing (k a)) → sparing (bind m k).
Proof.
  intros Hm Hk c HT. unfold bind. specialize (Hm c HT).
  destruct (m c) as [c' [e|a]]; [done|].
  eapply spares_trans; [exact Hm|]. apply Hk. destruct Hm as [? _]. cbn in *. lia.
Qed.

Lemma ret_sparing {A} (a : A) : sparing (ret a).
Proof. intros c _. apply spares_refl. Qed.

Lemma raise_sparing {A} e : sparing (raise (A:=A) e).
Proof. intros c _. apply spares_refl. Qed.

Lemma time_time_sparing : sparing (Controller.time_time clock).
Proof. intros c _. split_and!; auto. Qed.

Lemma push_sparing id : sparing (Controller.push id).
Proof. intros c _. split_and!; auto. Qed.

Lemma pop_sparing : sparing Controller.pop.
Proof.
  intros c _. unfold Controller.pop.
  destruct (HeapQ.heappop _ _) as [[? ?]|]; split_and!; auto.
Qed.

Lemma cancel_sparing id : sparing (modify (Controller.cancel id)).
Proof.
  intros c _. cbn. unfold Controller.cancel.
  destruct (Controller.scheduled c !! id) as [s|] eqn:E; [|apply spares_refl].
  split_and!; [done..|]. cbn. destruct (decide (id = T)) as [->|Hne].
  - right. exists s. by rewrite lookup_insert_eq.
  - left. by rewrite lookup_insert_ne.
Qed.

Lemma stop_sparing : sparing (modify Controller.stop).
Proof. intros c _. split_and!; auto. Qed.

(** Scheduling anything but [T] itself spares [T]. *)
Lemma schedule_sparing entity at_ after :
  entity ≠ inl T → sparing (Controller.schedule clock entity at_ after).
Proof.
  intros Hne. unfold Controller.schedule.
  apply bind_sparing; [apply time_time_sparing|]. intros now.
  apply bind_sparing.
  { destruct at_; [apply ret_sparing|]. destruct after; [|apply ret_sparing].
    destruct (_ >=? 0); [apply ret_sparing|apply raise_sparing]. }
  intros when_. apply bind_sparing.
  2:{ intros id. apply bind_sparing; [apply push_sparing|].
      intros; apply ret_sparing. }
  intros c HT. destruct entity as [id|callback]; cbn.
  - unfold spares; cbn. split_and!; [done..|]. left.
    rewrite lookup_insert_ne; [done|congruence].
  - unfold spares; cbn. split_and!; [lia|done|]. left.
    rewrite lookup_insert_ne; [done|lia].
Qed.

Lemma reschedule_sparing ctx at_ after :
  Controller.sched ctx ≠ T → sparing (Controller.reschedule clock ctx at_ after).
Proof.
  intros Hne. unfold Controller.reschedule.
  destruct (Controller.nonzero at_).
  - apply bind_sparing; [apply schedule_sparing; congruence|].
    intros; apply ret_sparing.
  - destruct (Controller.nonzero after); [|apply ret_sparing].
    apply bind_sparing; [apply schedule_sparing; congruence|].
    intros; apply ret_sparing.
Qed.

Lemma perform_all_sparing ctx actions :
  Controller.sched ctx ≠ T → sparing (Controller.perform_all clock ctx actions).
Proof.
  intros Hne. induction actions as [|a rest IH]; [apply ret_sparing|].
  cbn [Controller.perform_all]. apply bind_sparing; [|by intros].
  destruct a; cbn [Controller.perform].
  - by apply reschedule_sparing.
  - apply bind_sparing; [by apply schedule_sparing|]. intros; apply ret_sparing.
  - apply cancel_sparing.
  - apply stop_sparing.
Qed.

Lemma call_callbacks_sparing latched ctx :
  Controller.sched ctx ≠ T →
  sparing (Controller.call_callbacks clock handler latched ctx).
Proof.
  intros Hne. induction latched as [|c rest IH]; [apply ret_sparing|].
  cbn [Controller.call_callbacks]. apply bind_sparing; [|by intros].
  by apply perform_all_sparing.
Qed.

Lemma firings_app c ctx :
  firings T (Controller.mk (Controller._schedq c) (Controller.scheduled c)
               (Controller.allocated c) (Controller.running c) (Controller.ticks c)
               (Controller.fired c ++ [ctx]))
  = firings T c ++ (if decide (Controller.sched ctx = T) then [ctx] else []).
Proof.
  unfold firings. cbn. by rewrite filter_app.
Qed.

End SparedTimer.

(** A periodic timer under a clock that runs late: first due at 100,
    period 10, and the clock gains 4 with every reading. *)
Definition late_clock : nat → Controller.time := λ k, 100 + 4 * Z.of_nat k.

Definition every_ten : Core.callee → Controller.Ctx → list Controller.action :=
  λ _ _, [Controller.Reschedule None (Some 10)].

Definition one_timer : Controller.t :=
  ((do _ <~ Controller.schedule late_clock (inr 0%nat) (Some 100) None;
    modify (Controller.set_running true)) Controller.init).1.

(** The callouts of that run: each is made at or after the time it was
    due, and each carries the time it was due. *)
Example late_clock_firings :
  map (λ x, (Controller.ctx_when x, Controller.now x))
      (firings 0 (passes (λ k, late_clock (S k)) every_ten 4 one_timer).1)
  = [(100, 108); (110, 116); (120, 124); (130, 132); (140, 140); (150, 152);
     (160, 160); (170, 172); (180, 180); (190, 192); (200, 200)].
Proof. vm_compute. reflexivity. Qed.

(** ** The heap queue keeps its entries ([heapq]) *)

Section HeapEntries.

Context {A : Type}.
Variable cmp_lt : A → A → bool.

Lemma insert_as_cons (l : list A) (i : nat) (x : A) :
  (i < length l)%nat → <[i:=x]> l ≡ₚ x :: delete i l.
Proof.
  revert i. induction l as [|y l IH]; intros i Hi; [cbn in Hi; lia|].
  destruct i as [|i]; [done|]. cbn in Hi. cbn [insert list_insert delete list_delete].
  rewrite (IH i) by lia. apply Permutation_swap.
Qed.

(** Filling the hole at [i] with the item at [j] and taking the item at
    [j] out leaves what taking the item at [i] out leaves. *)
Lemma delete_moved (l : list A) (i j : nat) (y : A) :
  (i < length l)%nat → l !! j = Some y → i ≠ j →
  delete j (<[i:=y]> l) ≡ₚ delete i l.
Proof.
  intros Hi Hj Hne. apply (Permutation_cons_inv (a:=y)).
  rewrite <-(insert_as_cons l i y Hi). symmetry. apply delete_Permutation.
  by rewrite list_lookup_insert_ne.
Qed.

Lemma siftdown_loop_entries fuel (h : list A) startpos pos x :
  (pos < length h)%nat →
  HeapQ._siftdown_loop cmp_lt fuel h startpos pos x ≡ₚ x :: delete pos h.
Proof.
  revert h pos. induction fuel as [|fuel IH]; intros h pos Hpos;
    cbn [HeapQ._siftdown_loop].
  { by apply insert_as_cons. }
  destruct (startpos <? pos)%nat eqn:Hlt; [|by apply insert_as_cons].
  apply Nat.ltb_lt in Hlt.
  destruct (h !! ((pos - 1) / 2)%nat) as [p|] eqn:Hp; [|by apply insert_as_cons].
  destruct (cmp_lt x p); [|by apply insert_as_cons].
  assert ((pos - 1) / 2 < pos)%nat as Hpar.
  { apply Nat.Div0.div_lt_upper_bound. lia. }
  rewrite IH by (rewrite length_insert; lia).
  apply Permutation_skip, delete_moved; [done|done|lia].
Qed.

Lemma siftdown_entries (h : list A) startpos pos :
  HeapQ._siftdown cmp_lt h startpos pos ≡ₚ h.
Proof.
  unfold HeapQ._siftdown. destruct (h !! pos) as [x|] eqn:Hx; [|done].
  rewrite siftdown_loop_entries by (by eapply lookup_lt_Some).
  symmetry. by apply delete_Permutation.
Qed.

(** [heappush] adds the item and keeps every entry. *)
Lemma heappush_entries (heap : list A) (item : A) :
  HeapQ.heappush cmp_lt heap item ≡ₚ item :: heap.
Proof.
  unfold HeapQ.heappush. rewrite siftdown_entries.
  by rewrite Permutation_app_comm.
Qed.

Lemma siftup_loop_entries fuel (h : list A) pos :
  (pos < length h)%nat →
  let '(h1, pos1) := HeapQ._siftup_loop cmp_lt fuel h pos in
  (pos1 < length h1)%nat ∧ delete pos1 h1 ≡ₚ delete pos h.
Proof.
  revert h pos. induction fuel as [|fuel IH]; intros h pos Hpos;
    cbn [HeapQ._siftup_loop]; [done|].
  destruct (2 * pos + 1 <? length h)%nat eqn:Hlt; [|done].
  set (c := match h !! (2 * pos + 1)%nat, h !! (2 * pos + 1 + 1)%nat with
            | Some l, Some r =>
                if negb (cmp_lt l r) then (2 * pos + 1 + 1)%nat else (2 * pos + 1)%nat
            | _, _ => (2 * pos + 1)%nat
            end).
  assert (pos < c)%nat as Hc.
  { unfold c. destruct (h !! _) as [l|]; [|lia]. destruct (h !! _) as [r|]; [|lia].
    destruct (negb _); lia. }
  destruct (h !! c) as [child|] eqn:Hchild; [|done].
  specialize (IH (<[pos:=child]> h) c).
  destruct (HeapQ._siftup_loop cmp_lt fuel (<[pos:=child]> h) c) as [h1 pos1].
  destruct IH as [Hp1 IH].
  { rewrite length_insert. by eapply lookup_lt_Some. }
  split; [done|]. rewrite IH. apply delete_moved; [done|done|lia].
Qed.

Lemma siftup_entries (h : list A) pos : HeapQ._siftup cmp_lt h pos ≡ₚ h.
Proof.
  unfold HeapQ._siftup. destruct (h !! pos) as [x|] eqn:Hx; [|done].
  pose proof (siftup_loop_entries (length h) h pos) as Hup.
  destruct (HeapQ._siftup_loop cmp_lt (length h) h pos) as [h1 pos1].
  destruct Hup as [Hp1 Hup]; [by eapply lookup_lt_Some|].
  rewrite siftdown_entries, insert_as_cons, Hup by done.
  symmetry. by apply delete_Permutation.
Qed.

(** [heappop] hands out the first entry of the list and keeps every
    other. *)
Lemma heappop_entries (top : A) (q : list A) :
  match HeapQ.heappop cmp_lt (top :: q) with
  | Some (x, q') => x = top ∧ q' ≡ₚ q
  | None => False
  end.
Proof.
  unfold HeapQ.heappop.
  destruct (reverse (top :: q)) as [|lastelt front] eqn:Erev.
  { apply (f_equal length) in Erev. rewrite length_reverse in Erev. done. }
  assert (top :: q = reverse front ++ [lastelt]) as E.
  { rewrite <-(reverse_involutive (top :: q)), Erev. by rewrite reverse_cons. }
  destruct (reverse front) as [|ret rest] eqn:Efront.
  { cbn in E. by simplify_eq. }
  cbn in E. injection E as -> ->. split; [done|].
  rewrite siftup_entries. cbn [insert list_insert].
  by rewrite Permutation_app_comm.
Qed.

End HeapEntries.

(** ** Periodic timers (asyn/controller.py) *)

Section PeriodicTimers.

Context {time : Type} {N : Timers.Number time}.

(** [n] passes of [_dispatch], as the loop of [run()] makes them. *)
Fixpoint timer_passes (clock : nat → time)
    (handler : Core.callee → Timers.Ctx time → list (Timers.action time))
    (n : nat) : M (Timers.t time) unit :=
  match n with
  | O => ret tt
  | S n' => do _ <~ Timers._dispatch clock handler; timer_passes clock handler n'
  end.

(** The callouts made for timer [T], oldest first. *)
Definition timer_firings (T : nat) (c : Timers.t time) : list (Timers.Ctx time) :=
  filter (λ x, Timers.sched x = T) (Timers.fired c).

(** The time [w0] with [d] added to it [i] times over, each sum as the
    program computes it. *)
Definition added (w0 d : time) (i : nat) : time :=
  Nat.iter i (λ w, Timers.plus w d) w0.

Variable clock : nat → time.
Variable handler : Core.callee → Timers.Ctx time → list (Timers.action time).
Variables (T : nat) (cb : Core.callee) (w0 d : time).

(** The callable of [T] reschedules its timer [d] after its fire time,
    whatever the context says about the current time. *)
Hypothesis periodic :
  ∀ ctx, Timers.sched ctx = T →
         handler cb ctx = [Timers.Reschedule None (Some d)].

(** [d] counts where [reschedule] tests it, or adding it changes
    nothing. *)
Hypothesis given : Timers.truth d = true ∨ ∀ w, Timers.plus w d = w.



























End PeriodicTimers.


(** A periodic timer with float times under a clock that runs late:
    first due at 100, period a tenth of a second, and the clock gains a
    thirty-second of a second with every reading. *)
Definition tenth : PrimFloat.float := PrimFloat.div 1%float 10%float.

Definition late_clock_f : nat → PrimFloat.float :=
  λ k, Nat.iter k (λ t, PrimFloat.add t (PrimFloat.div 1%float 32%float)) 100%float.

Definition every_tenth
    : Core.callee → Timers.Ctx PrimFloat.float → list (Timers.action PrimFloat.float) :=
  λ _ _, [Timers.Reschedule None (Some tenth)].

Definition one_timer_f : Timers.t PrimFloat.float :=
  ((do _ <~ Timers.schedule late_clock_f (inr 0%nat) (Some 100%float) None;
    modify (Timers.set_running true)) Timers.init).1.


(** The callouts of that run: each is made no earlier than it was due,
    each carries the time it was due, and the times are the sums the
    program computes, one tenth on the other. *)
Example late_clock_f_firings :
  let log := timer_firings 0
               (timer_passes (λ k, late_clock_f (S k)) every_tenth 4 one_timer_f).1 in
  length log = 5%nat
  ∧ map Timers.ctx_when log = map (added 100%float tenth) (seq 0 5)
  ∧ forallb (λ x, PrimFloat.leb (Timers.ctx_when x) (Timers.now x)) log = true.
Proof. vm_compute. by split_and!. Qed.

(** The sums of floats are no multiples: ten tenths added to zero stay
    below one, which ten times a tenth is. *)
Example float_tenths_add_up :
  PrimFloat.eqb (added 0%float tenth 10) (PrimFloat.mul 10%float tenth) = false
  ∧ PrimFloat.ltb (added 0%float tenth 10) 1%float = true
  ∧ PrimFloat.eqb (PrimFloat.mul 10%float tenth) 1%float = true.
Proof. by split_and!. Qed.

(** [reschedule(after=0)] reschedules nothing: [elif after:] takes the
    zero for no argument, and the timer fires once and is gone from the
    queue. *)
Example reschedule_after_zero :
  let every_zero : Core.callee → Timers.Ctx Z → list (Timers.action Z) :=
    λ _ _, [Timers.Reschedule None (Some 0)] in
  let c := ((do _ <~ Timers.schedule (λ _, 100) (inr 0%nat) (Some 100) None;
             modify (Timers.set_running true)) Timers.init).1 in
  let c' := (timer_passes (λ _, 200) every_zero 3 c).1 in
  map Timers.ctx_when (timer_firings 0 c') = [100]
  ∧ Timers._schedq c' = [] ∧ Timers.when_of c' 0 = Some 100.
Proof. vm_compute. by split_and!. Qed.

(** ** Descriptor objects (asyn/selectable.py) *)

Definition CLOSE_call : Scan.call := Scan.mkCall (Core.ACtx Selectable.CLOSE) [] [].

Definition ERROR_call (errno : Z) : Scan.call :=
  Scan.mkCall (Core.ACtx (Core.Error_of (OSError errno))) [] [].

Definition is_CLOSE (id : nat) (e : nat * Scan.call) : bool :=
  (e.1 =? id)%nat &&
  match Scan.c_ctx e.2 with
  | Core.ACtx ctx => String.eqb (Core.state ctx) "CLOSE"
  | _ => false
  end.

(** How often object [id] has called out [CLOSE]. *)
Definition closes (id : nat) (w : Selectable.world) : nat :=
  length (filter (λ e, is_CLOSE id e = true) (Selectable.emitted w)).

(** The state of the descriptor map and the objects that every call
    keeps: identities not handed out yet name nothing; an object that
    still has its Controller is the one the map holds under its
    descriptor and has not called out [CLOSE]; an object that gave its
    Controller up has called out [CLOSE] once; and no object has been
    given a scanner. *)
Definition registered (w : Selectable.world) : Prop :=
  (∀ id, (Selectable.allocated w ≤ id)%nat → Selectable.objects w !! id = None)
  ∧ (∀ id, Selectable.objects w !! id = None → closes id w = 0%nat)
  ∧ ∀ id o, Selectable.objects w !! id = Some o →
      Scan.scan (Selectable.scannable o) = None
      ∧ if Selectable.control o
        then Selectable._map w !! Selectable.fileno o = Some id ∧ closes id w = 0%nat
        else closes id w = 1%nat.

(** What a quiet step keeps of an object. *)
Definition standing (o : Selectable.obj) : bool * Z * option Scan.scanner :=
  (Selectable.control o, Selectable.fileno o, Scan.scan (Selectable.scannable o)).

(** A step that leaves the map, the identities, each object's
    Controller, descriptor and scanner, and the [CLOSE] counts as they
    were. *)
Definition quiet_step (w w' : Selectable.world) : Prop :=
  Selectable._map w' = Selectable._map w
  ∧ Selectable.allocated w' = Selectable.allocated w
  ∧ (∀ id, closes id w' = closes id w)
  ∧ ∀ id, standing <$> Selectable.objects w' !! id
          = standing <$> Selectable.objects w !! id.

Lemma quiet_step_refl w : quiet_step w w.
Proof. by split_and!. Qed.

Lemma quiet_step_trans w1 w2 w3 : quiet_step w1 w2 → quiet_step w2 w3 → quiet_step w1 w3.
Proof.
  intros (A1 & B1 & C1 & D1) (A2 & B2 & C2 & D2).
  split_and!; [congruence|congruence| |]; intros id.
  - by rewrite C2.
  - by rewrite D2.
Qed.

Lemma quiet_step_registered w w' : registered w → quiet_step w w' → registered w'.
Proof.
  intros (Hfresh & Hghost & Hobj) (Hm & Ha & Hc & Ho). split_and!.
  - intros id Hid. rewrite Ha in Hid. specialize (Hfresh id Hid).
    specialize (Ho id). rewrite Hfresh in Ho.
    by destruct (Selectable.objects w' !! id).
  - intros id Hid. rewrite Hc. apply Hghost. specialize (Ho id). rewrite Hid in Ho.
    by destruct (Selectable.objects w !! id).
  - intros id o' Hid. specialize (Ho id). rewrite Hid in Ho.
    destruct (Selectable.objects w !! id) as [o|] eqn:E; [|done].
    injection Ho as Hctl Hfd Hscan. specialize (Hobj id o E).
    rewrite Hctl, Hfd, Hscan, Hm, Hc. done.
Qed.

Definition silent {A} (m : M Selectable.world A) : Prop := ∀ w, quiet_step w (m w).1.

Definition keeps {A} (m : M Selectable.world A) : Prop :=
  ∀ w, registered w → registered (m w).1.

Lemma silent_keeps {A} (m : M Selectable.world A) : silent m → keeps m.
Proof. intros Hq w Hw. eapply quiet_step_registered; [exact Hw|apply Hq]. Qed.

Lemma bind_silent {A B} (m : M Selectable.world A) (k : A → M Selectable.world B) :
  silent m → (∀ a, silent (k a)) → silent (bind m k).
Proof.
  intros Hm Hk w. unfold bind. specialize (Hm w).
  destruct (m w) as [w' [e|a]]; [done|].
  eapply quiet_step_trans; [exact Hm|apply Hk].
Qed.

Lemma bind_keeps {A B} (m : M Selectable.world A) (k : A → M Selectable.world B) :
  keeps m → (∀ a, keeps (k a)) → keeps (bind m k).
Proof.
  intros Hm Hk w Hw. unfold bind. specialize (Hm w Hw).
  destruct (m w) as [w' [e|a]]; [done|]. by apply Hk.
Qed.

Lemma ret_silent {A} (a : A) : silent (ret (S:=Selectable.world) a).
Proof. intros w. apply quiet_step_refl. Qed.

Lemma self_silent id : silent (Selectable.self id).
Proof.
  intros w. unfold Selectable.self.
  destruct (Selectable.objects w !! id); apply quiet_step_refl.
Qed.

(** Changing fields other than the Controller, the descriptor and the
    scanner. *)
Lemma update_silent id (f : Selectable.obj → Selectable.obj) :
  (∀ o, standing (f o) = standing o) →
  silent (modify (Selectable.update id f)).
Proof.
  intros Hf w. cbn. split_and!; [done..|]. intros id'. cbn.
  destruct (decide (id' = id)) as [->|Hne].
  - rewrite lookup_alter_eq. destruct (Selectable.objects w !! id) as [o|]; [|done].
    cbn. by rewrite Hf.
  - by rewrite lookup_alter_ne.
Qed.

(** A callout of anything but [CLOSE]. *)
Lemma callout_silent id (c : Scan.call) :
  (∀ ctx, Core.as_context (Scan.c_ctx c) = Some ctx → Core.state ctx ≠ "CLOSE"%string) →
  silent (Selectable.callout id c).
Proof.
  intros Hc w. unfold Selectable.callout, Scan.Callable_callout.
  assert (Hnil : quiet_step w
            (Selectable.mkWorld (Selectable._map w) (Selectable.objects w)
               (Selectable.allocated w) (Selectable.emitted w ++ []))).
  { split_and!; [done..| |done]. intros id'. unfold closes. cbn.
    by rewrite app_nil_r. }
  destruct (Scan.c_kwargs c); [|exact Hnil].
  destruct (Core.as_context (Scan.c_ctx c)) as [ctx|] eqn:E; [|exact Hnil].
  cbn. split_and!; [done..| |done]. intros id'. unfold closes. cbn.
  rewrite filter_app, length_app. cbn.
  rewrite decide_False; [cbn; lia|].
  unfold is_CLOSE. cbn. rewrite andb_true_iff, String.eqb_eq.
  intros [_ H]. by apply (Hc ctx).
Qed.

(** [Selectable.close()] on an object that still has its Controller:
    one [CLOSE] is called out, the descriptor leaves the map, and the
    Controller is given up. *)
Lemma Selectable_close_open w id o :
  registered w → Selectable.objects w !! id = Some o → Selectable.control o = true →
  Selectable.Selectable_close id w
  = (Selectable.mkWorld (delete (Selectable.fileno o) (Selectable._map w))
       (alter (Selectable.set_control false) id (Selectable.objects w))
       (Selectable.allocated w)
       (Selectable.emitted w ++ [(id, CLOSE_call)]), inr tt).
Proof.
  intros (_ & _ & Hobj) Ho Hc. specialize (Hobj id o Ho). rewrite Hc in Hobj.
  destruct Hobj as [_ [Hmap _]].
  unfold Selectable.Selectable_close, bind, Selectable.self. rewrite Ho, Hc.
  cbn. unfold Selectable.remove, bind, Selectable.self. cbn.
  rewrite Ho. cbn. by rewrite Hmap.
Qed.

(** [Selectable.close()] on an object that gave its Controller up
    does nothing. *)
Lemma Selectable_close_closed w id o :
  Selectable.objects w !! id = Some o → Selectable.control o = false →
  Selectable.Selectable_close id w = (w, inr tt).
Proof.
  intros Ho Hc. unfold Selectable.Selectable_close, bind, Selectable.self.
  by rewrite Ho, Hc.
Qed.

Lemma closes_snoc_CLOSE id id' w m objs a :
  closes id' (Selectable.mkWorld m objs a (Selectable.emitted w ++ [(id, CLOSE_call)]))
  = (closes id' w + if decide (id = id') then 1 else 0)%nat.
Proof.
  unfold closes. cbn. rewrite filter_app, length_app. f_equal.
  rewrite filter_cons, filter_nil. unfold is_CLOSE. cbn.
  rewrite andb_true_r. destruct (Nat.eqb_spec id id'); by repeat case_decide.
Qed.

Lemma Selectable_close_keeps id : keeps (Selectable.Selectable_close id).
Proof.
  intros w Hw. destruct (Selectable.objects w !! id) as [o|] eqn:Ho.
  2:{ unfold Selectable.Selectable_close, bind, Selectable.self. by rewrite Ho. }
  destruct (Selectable.control o) eqn:Hc.
  2:{ by rewrite (Selectable_close_closed w id o). }
  rewrite (Selectable_close_open w id o) by done. cbn [fst].
  destruct Hw as (Hfresh & Hghost & Hobj). pose proof (Hobj id o Ho) as Hid.
  rewrite Hc in Hid. destruct Hid as [Hscan [Hmap Hzero]]. split_and!.
  - intros id' Hid'. cbn in Hid'. specialize (Hfresh id' Hid'). cbn.
    rewrite lookup_alter_ne; [done|]. intros ->. congruence.
  - intros id' Hid'. cbn in Hid'. rewrite closes_snoc_CLOSE.
    destruct (decide (id = id')) as [<-|Hne].
    + by rewrite lookup_alter_eq, Ho in Hid'.
    + rewrite lookup_alter_ne in Hid' by done. rewrite (Hghost id' Hid'). lia.
  - intros id' o' Ho'. rewrite closes_snoc_CLOSE. cbn in Ho' |- *.
    destruct (decide (id = id')) as [<-|Hne].
    + rewrite lookup_alter_eq, Ho in Ho'. injection Ho' as <-. cbn.
      split; [done|lia].
    + rewrite lookup_alter_ne in Ho' by done. specialize (Hobj id' o' Ho').
      destruct Hobj as [Hscan' Hobj]. split; [done|].
      destruct (Selectable.control o'); [|lia]. destruct Hobj as [Hmap' Hz'].
      split; [|lia]. rewrite lookup_delete_ne; [done|]. intros Hfd.
      rewrite Hfd in Hmap. congruence.
Qed.

Lemma CLOSE_state ctx :
  Core.as_context (Core.ACtx Selectable.END) = Some ctx → Core.state ctx ≠ "CLOSE"%string.
Proof. by intros [= <-]. Qed.

Lemma ERROR_state e ctx :
  Core.as_context (Core.ACtx (Core.Error_of e)) = Some ctx →
  Core.state ctx ≠ "CLOSE"%string.
Proof. by intros [= <-]. Qed.

Lemma close_keeps id : keeps (Selectable.close id).
Proof.
  unfold Selectable.close. apply bind_keeps; [apply silent_keeps, self_silent|].
  intros o. destruct (Selectable.cls o).
  - apply Selectable_close_keeps.
  - unfold Selectable.IO_close.
    apply bind_keeps; [apply Selectable_close_keeps|]. intros _.
    apply silent_keeps, bind_silent; [apply self_silent|]. intros o'.
    destruct (Selectable._keep_file o'); [apply ret_silent|].
    by apply update_silent.
  - unfold Selectable.Stream_close, Selectable.IO_close.
    apply bind_keeps.
    + apply bind_keeps; [apply Selectable_close_keeps|]. intros _.
      apply silent_keeps, bind_silent; [apply self_silent|]. intros o'.
      destruct (Selectable._keep_file o'); [apply ret_silent|].
      by apply update_silent.
    + intros _. apply silent_keeps. unfold Selectable.read_flush.
      by apply update_silent.
Qed.

Lemma can_write_keeps id r : keeps (Selectable._can_write id r).
Proof.
  unfold Selectable._can_write. apply bind_keeps; [apply silent_keeps, self_silent|].
  intros o.
  assert (keeps (do o0 <~ Selectable.self id;
                 match Selectable._wbuf o0 with
                 | [] => if Selectable._shutdown o0 then Selectable.close id else ret ()
                 | _ :: _ => ret ()
                 end)) as Htail.
  { apply bind_keeps; [apply silent_keeps, self_silent|]. intros o'.
    destruct (Selectable._wbuf o'); [|apply silent_keeps, ret_silent].
    destruct (Selectable._shutdown o'); [apply close_keeps|apply silent_keeps, ret_silent]. }
  destruct (Selectable._wbuf o) as [|b wbuf], r as [errno|written].
  - apply bind_keeps; [apply silent_keeps, ret_silent|]. by intros _.
  - apply bind_keeps; [apply silent_keeps, ret_silent|]. by intros _.
  - destruct (errno =? Selectable.EAGAIN); apply silent_keeps; [apply ret_silent|].
    apply bind_silent; [|intros; apply ret_silent].
    apply callout_silent, ERROR_state.
  - apply bind_keeps; [|by intros _]. apply silent_keeps. by apply update_silent.
Qed.

Lemma new_keeps k fd c : keeps (Selectable.new k fd c).
Proof.
  intros w Hw. unfold Selectable.new, Selectable.insert, bind, Selectable.self.
  cbn. rewrite lookup_insert_eq. cbn.
  destruct (Selectable._map w !! fd) as [other|] eqn:Hfd; [done|]. cbn.
  destruct Hw as (Hfresh & Hghost & Hobj).
  pose proof (Hfresh (Selectable.allocated w) (le_n _)) as Hnone.
  pose proof (Hghost _ Hnone) as Hzero. split_and!.
  - intros id Hid. cbn in Hid |- *. rewrite lookup_insert_ne by lia.
    apply Hfresh. lia.
  - intros id Hid. cbn in Hid. apply Hghost.
    destruct (decide (id = Selectable.allocated w)) as [->|Hne].
    + by rewrite lookup_insert_eq in Hid.
    + by rewrite lookup_insert_ne in Hid.
  - intros id o Ho. cbn in Ho |- *.
    destruct (decide (id = Selectable.allocated w)) as [->|Hne].
    + rewrite lookup_insert_eq in Ho. injection Ho as <-. cbn.
      by rewrite lookup_insert_eq.
    + rewrite lookup_insert_ne in Ho by done. specialize (Hobj id o Ho).
      destruct Hobj as [Hscan Hobj]. split; [done|].
      destruct (Selectable.control o); [|done]. destruct Hobj as [Hm Hz].
      split; [|done]. rewrite lookup_insert_ne; [done|].
      intros E. rewrite E in Hfd. congruence.
Qed.

Lemma set_scannable_keeps id sc :
  Scan.scan sc = None →
  keeps (modify (Selectable.update id (Selectable.set_scannable sc))).
Proof.
  intros Hsc w (Hfresh & Hghost & Hobj). cbn. split_and!.
  - intros id' Hid'. specialize (Hfresh id' Hid'). cbn.
    destruct (decide (id' = id)) as [->|Hne].
    + by rewrite lookup_alter_eq, Hfresh.
    + by rewrite lookup_alter_ne.
  - intros id' Hid'. apply Hghost. cbn in Hid'.
    destruct (decide (id' = id)) as [->|Hne].
    + rewrite lookup_alter_eq in Hid'. by destruct (Selectable.objects w !! id).
    + by rewrite lookup_alter_ne in Hid'.
  - intros id' o' Ho'. cbn in Ho'. destruct (decide (id' = id)) as [->|Hne].
    + rewrite lookup_alter_eq in Ho'.
      destruct (Selectable.objects w !! id) as [o|] eqn:Ho; [|done].
      injection Ho' as <-. cbn. split; [done|]. by destruct (Hobj id o Ho).
    + rewrite lookup_alter_ne in Ho' by done. by apply Hobj.
Qed.

Lemma RAW_state data ctx :
  Core.as_context (Scan.c_ctx (Scan.mkCall (Core.ACtx Scan.RAW) [PStr data] []))
    = Some ctx →
  Core.state ctx ≠ "CLOSE"%string.
Proof. by intros [= <-]. Qed.

(** The scan of a Stream's input: without a scanner, one [RAW] callout
    and an empty buffer. *)
Lemma scan_keeps id input : keeps (Selectable._scan id input).
Proof.
  intros w Hw. unfold Selectable._scan, bind, Selectable.self.
  destruct (Selectable.objects w !! id) as [o|] eqn:Ho; [|done].
  destruct (proj2 (proj2 Hw) id o Ho) as [Hscan _].
  unfold Scan._scan, Scan._scan_fuel. rewrite Hscan.
  cbn [Scan._scan_loop Scan._rbuf Scan.scan].
  destruct (Scan._rbuf (Selectable.scannable o) ++ input) as [|b rest] eqn:Eb.
  - cbn. by apply (set_scannable_keeps id (Scan.mkScannable None []) eq_refl w).
  - pose proof (callout_silent id _ (RAW_state (b :: rest)) w) as Hq.
    pose proof (quiet_step_registered _ _ Hw Hq) as Hw'.
    unfold Selectable.callout in *. cbn in *.
    by apply (set_scannable_keeps id (Scan.mkScannable None []) eq_refl _ Hw').
Qed.

Lemma step_keeps o : keeps (Selectable.step o).
Proof.
  destruct o; cbn [Selectable.step].
  - apply bind_keeps; [apply new_keeps|]. intros; apply silent_keeps, ret_silent.
  - apply close_keeps.
  - unfold Selectable.shutdown. apply bind_keeps; [apply silent_keeps, self_silent|].
    intros o. destruct (Selectable.cls o); try apply close_keeps.
    apply bind_keeps; [by apply silent_keeps, update_silent|].
    intros _. apply can_write_keeps.
  - apply silent_keeps, bind_silent; [apply self_silent|]. intros _.
    by apply update_silent.
  - apply silent_keeps, bind_silent; [apply self_silent|]. intros _.
    by apply update_silent.
  - unfold Selectable._can_read. apply bind_keeps; [apply silent_keeps, self_silent|].
    intros _. destruct os_read as [errno|[|b input]].
    + apply silent_keeps, bind_silent; [|intros; apply ret_silent].
      apply callout_silent, ERROR_state.
    + unfold Selectable._null_read. apply bind_keeps; [|intros; apply close_keeps].
      apply silent_keeps, callout_silent, CLOSE_state.
    + apply scan_keeps.
  - apply can_write_keeps.
  - unfold Selectable.write. apply bind_keeps; [apply silent_keeps, self_silent|].
    intros o. apply bind_keeps; [by apply silent_keeps, update_silent|].
    intros _. apply can_write_keeps.
Qed.

Lemma init_registered : registered Selectable.init.
Proof.
  split_and!; [by intros id _|by intros id _|].
  intros id o Ho. cbn in Ho. by rewrite lookup_empty in Ho.
Qed.

Lemma run_registered ops w : registered w → registered (Selectable.run ops w).
Proof.
  revert w. induction ops as [|o ops IH]; intros w Hw; [done|].
  cbn. apply IH. by apply step_keeps.
Qed.

Lemma close_by_class w id o :
  Selectable.objects w !! id = Some o →
  Selectable.close id w
  = match Selectable.cls o with
    | Selectable.KSelectable => Selectable.Selectable_close id w
    | Selectable.KIO => Selectable.IO_close id w
    | Selectable.KStream => Selectable.Stream_close id w
    end.
Proof.
  intros Ho. unfold Selectable.close, bind, Selectable.self. rewrite Ho.
  by destruct (Selectable.cls o).
Qed.

Lemma IO_close_after w w1 id o1 :
  Selectable.Selectable_close id w = (w1, inr tt) →
  Selectable.objects w1 !! id = Some o1 →
  Selectable.IO_close id w
  = (if Selectable._keep_file o1 then w1
     else Selectable.update id Selectable.io_close w1, inr tt).
Proof.
  intros H1 Ho1. unfold Selectable.IO_close, bind. rewrite H1.
  unfold Selectable.self. rewrite Ho1. by destruct (Selectable._keep_file o1).
Qed.

(** [close()] of an object that still has its Controller, whatever its
    class: one [CLOSE], the descriptor out of the map, the Controller
    given up. *)
Lemma close_first w id o :
  registered w → Selectable.objects w !! id = Some o → Selectable.control o = true →
  let w' := (Selectable.close id w).1 in
  Selectable.emitted w' = Selectable.emitted w ++ [(id, CLOSE_call)]
  ∧ Selectable._map w' = delete (Selectable.fileno o) (Selectable._map w)
  ∧ Selectable.control <$> Selectable.objects w' !! id = Some false.
Proof.
  intros Hw Ho Hc w'. subst w'. rewrite (close_by_class w id o Ho).
  pose proof (Selectable_close_open w id o Hw Ho Hc) as Hopen.
  set (w1 := Selectable.mkWorld _ _ _ _) in Hopen.
  assert (Selectable.objects w1 !! id = Some (Selectable.set_control false o)) as Ho1.
  { unfold w1. cbn. by rewrite lookup_alter_eq, Ho. }
  pose proof (IO_close_after w w1 id _ Hopen Ho1) as Hio.
  destruct (Selectable.cls o).
  - rewrite Hopen. cbn. by rewrite lookup_alter_eq, Ho.
  - rewrite Hio. cbn [Selectable.set_control Selectable._keep_file].
    destruct (Selectable._keep_file o); cbn; rewrite ?lookup_alter_eq, Ho; done.
  - unfold Selectable.Stream_close, bind. rewrite Hio.
    cbn [Selectable.set_control Selectable._keep_file].
    destruct (Selectable._keep_file o); cbn; rewrite ?lookup_alter_eq, Ho; done.
Qed.

(** [close()] of an object that gave its Controller up: no callout, and
    the map is not touched. *)
Lemma close_again w id o :
  Selectable.objects w !! id = Some o → Selectable.control o = false →
  let w' := (Selectable.close id w).1 in
  Selectable.emitted w' = Selectable.emitted w
  ∧ Selectable._map w' = Selectable._map w.
Proof.
  intros Ho Hc w'. subst w'. rewrite (close_by_class w id o Ho).
  pose proof (Selectable_close_closed w id o Ho Hc) as Hclosed.
  pose proof (IO_close_after w w id o Hclosed Ho) as Hio.
  destruct (Selectable.cls o).
  - by rewrite Hclosed.
  - rewrite Hio. by destruct (Selectable._keep_file o).
  - unfold Selectable.Stream_close, bind. rewrite Hio.
    by destruct (Selectable._keep_file o).
Qed.

(** A Stream that reads the end of its input, and is closed twice more:
    one [END], one [CLOSE]. *)
Example stream_end_then_close :
  let w := Selectable.run
             [Selectable.New Selectable.KStream 5 (Some 0%nat);
              Selectable.CanRead 0 (inr []);
              Selectable.Close 0; Selectable.Close 0] Selectable.init in
  map snd (Selectable.emitted w)
    = [Scan.mkCall (Core.ACtx Selectable.END) [] []; CLOSE_call]
  ∧ Selectable._map w = ∅.
Proof. split; reflexivity. Qed.

(** C7 as stated fails: a Stream whose write fails with EPIPE (32)
    calls out the error and stays as it was, open, in the Controller's
    map, its bytes still queued and wanting to write; the next time the
    descriptor is writable the same bytes are written. *)
Lemma stream_error_leaves_stream_open :
  let w := Selectable.run
             [Selectable.New Selectable.KStream 5 (Some 0%nat);
              Selectable.Write 0 (bs "hello") (inl 32)] Selectable.init in
  map snd (Selectable.emitted w) = [ERROR_call 32]
  ∧ Selectable._map w !! 5 = Some 0%nat
  ∧ (λ o, (Selectable.control o, Selectable._wbuf o, Selectable._wants_write o))
      <$> Selectable.objects w !! 0%nat = Some (true, bs "hello", true)
  ∧ Selectable._wbuf <$>
      Selectable.objects (Selectable.run [Selectable.CanWrite 0 (inr 5%nat)] w) !! 0%nat
    = Some [].
Proof. split_and!; reflexivity. Qed.

(** The world after object [id] has called out the error [errno] and
    nothing else has happened. *)
Definition with_error (id : nat) (errno : Z) (w : Selectable.world) : Selectable.world :=
  Selectable.mkWorld (Selectable._map w) (Selectable.objects w) (Selectable.allocated w)
    (Selectable.emitted w ++ [(id, ERROR_call errno)]).

(** C7, amended.  For a Stream, an OSError of [os.read], whatever its
    number, and an OSError of [os.write] other than EAGAIN, is called
    out as one [ERROR] on the object's funnel, and that is all that
    happens: the object keeps its Controller, its place in the map and
    its buffers. *)
Theorem stream_error_is_called_out
    (w : Selectable.world) (id : nat) (o : Selectable.obj) (errno : Z) :
  Selectable.objects w !! id = Some o →
  Selectable._can_read id (inl errno) w = (with_error id errno w, inr tt)
  ∧ (Selectable._wbuf o ≠ [] → errno ≠ Selectable.EAGAIN →
     Selectable._can_write id (inl errno) w = (with_error id errno w, inr tt)).
Proof.
  intros Ho. split.
  - unfold Selectable._can_read, bind, Selectable.self. by rewrite Ho.
  - intros Hbuf Herr. unfold Selectable._can_write, bind, Selectable.self.
    rewrite Ho. destruct (Selectable._wbuf o) as [|b wbuf]; [done|].
    destruct (Z.eqb_spec errno Selectable.EAGAIN); done.
Qed.

Lemma stream_error_is_called_out_witness :
  let w := Selectable.run
             [Selectable.New Selectable.KStream 5 (Some 0%nat);
              Selectable.Write 0 (bs "hello") (inl Selectable.EAGAIN)]
             Selectable.init in
  Selectable._can_read 0 (inl 9) w = (with_error 0 9 w, inr tt)
  ∧ Selectable._can_write 0 (inl 32) w = (with_error 0 32 w, inr tt).
Proof.
  pose proof (stream_error_is_called_out
                (Selectable.run
                   [Selectable.New Selectable.KStream 5 (Some 0%nat);
                    Selectable.Write 0 (bs "hello") (inl Selectable.EAGAIN)]
                   Selectable.init) 0%nat) as H.
  split.
  - exact (proj1 (H _ 9 eq_refl)).
  - refine (proj2 (H _ 32 eq_refl) _ _); [discriminate | discriminate].
Defined.

(** A write that would block is absorbed: no callout, the bytes stay
    queued. *)
Example stream_write_would_block :
  let w := Selectable.run
             [Selectable.New Selectable.KStream 5 (Some 0%nat);
              Selectable.Write 0 (bs "hello") (inl Selectable.EAGAIN)]
             Selectable.init in
  Selectable.emitted w = []
  ∧ Selectable._wbuf <$> Selectable.objects w !! 0%nat = Some (bs "hello").
Proof. split; reflexivity. Qed.

(** *** Callables that act on the objects *)

Section RecipientFacts.

Context {R : Type}.
Implicit Types (w : Recipients.world R) (p : Recipients.prog R).

Definition CLOSE_by (id : nat) (e : nat * Core.Context) : bool :=
  (e.1 =? id)%nat && String.eqb (Core.state e.2) "CLOSE".

(** How often object [id] has called out [CLOSE]. *)
Definition close_calls (id : nat) w : nat :=
  length (filter (λ e, CLOSE_by id e = true) (Recipients.emitted w)).

(** A method of the [Callable] side. *)
Definition of_Callable (m : Recipients.method) : bool :=
  match m with
  | Recipients.AddCallout _ _ | Recipients.RemoveCallout _ _ _
  | Recipients.SetCallout _ _ | Recipients.ClearCallouts _ => true
  | _ => false
  end.

(** A callable body that comes back whatever happens, and on its way
    calls nothing but methods of the [Callable] side: it enters no
    [close()], and nothing that calls out. *)
Inductive calm : Recipients.prog R → Prop :=
| calm_Return v : calm (Recipients.Return v)
| calm_Call m k :
    of_Callable m = true → (∀ r, calm (k r)) → calm (Recipients.Call m k)
| calm_Load k : (∀ r, calm (k r)) → calm (Recipients.Load k)
| calm_Store r k : calm k → calm (Recipients.Store r k).

(** The state of the descriptor map and the objects that every call
    keeps when the callables are calm on [CLOSE]: identities not handed
    out yet name nothing; an object that still has its Controller is
    the one the map holds under its descriptor and has not called out
    [CLOSE]; an object that gave its Controller up has called out
    [CLOSE] once. *)
Definition enrolled w : Prop :=
  (∀ id, (Recipients.allocated w ≤ id)%nat → Recipients.objects w !! id = None)
  ∧ (∀ id, Recipients.objects w !! id = None → close_calls id w = 0%nat)
  ∧ ∀ id o, Recipients.objects w !! id = Some o →
      if Recipients.control o
      then Recipients._map w !! Recipients.fileno o = Some id
           ∧ close_calls id w = 0%nat
      else close_calls id w = 1%nat.

(** What a step on the [Callable] side keeps of an object. *)
Definition footing (o : Recipients.obj) : bool * Z :=
  (Recipients.control o, Recipients.fileno o).

(** A step that leaves the map, the identities, the callouts and each
    object's Controller and descriptor as they were. *)
Definition aside w w' : Prop :=
  Recipients._map w' = Recipients._map w
  ∧ Recipients.allocated w' = Recipients.allocated w
  ∧ Recipients.emitted w' = Recipients.emitted w
  ∧ ∀ id, footing <$> Recipients.objects w' !! id
          = footing <$> Recipients.objects w !! id.

Lemma aside_refl w : aside w w.
Proof. by split_and!. Qed.

Lemma aside_trans w1 w2 w3 : aside w1 w2 → aside w2 w3 → aside w1 w3.
Proof.
  intros (H1 & H2 & H3 & H4) (H1' & H2' & H3' & H4').
  split_and!; first [congruence | intros id; by rewrite H4', H4].
Qed.

Lemma aside_lookup w w' id o :
  aside w w' → Recipients.objects w !! id = Some o →
  ∃ o', Recipients.objects w' !! id = Some o'
        ∧ Recipients.control o' = Recipients.control o
        ∧ Recipients.fileno o' = Recipients.fileno o.
Proof.
  intros (_ & _ & _ & Hobj) Ho. specialize (Hobj id). rewrite Ho in Hobj.
  destruct (Recipients.objects w' !! id) as [o'|]; [|done].
  exists o'. cbn in Hobj. unfold footing in Hobj. by simplify_eq.
Qed.

Lemma aside_enrolled w w' : enrolled w → aside w w' → enrolled w'.
Proof.
  intros (Hfresh & Hghost & Hobj) (Hm & Ha & He & Hs).
  assert (∀ id, close_calls id w' = close_calls id w) as Hc.
  { intros id. unfold close_calls. by rewrite He. }
  split_and!.
  - intros id Hid. rewrite Ha in Hid. specialize (Hs id).
    rewrite (Hfresh id Hid) in Hs. by destruct (Recipients.objects w' !! id).
  - intros id Hid. rewrite Hc. apply Hghost. specialize (Hs id).
    rewrite Hid in Hs. by destruct (Recipients.objects w !! id).
  - intros id o' Ho'. specialize (Hs id). rewrite Ho' in Hs.
    destruct (Recipients.objects w !! id) as [o|] eqn:Ho; [|done].
    cbn in Hs. unfold footing in Hs. simplify_eq.
    specialize (Hobj id o Ho). rewrite Hc, Hm. by rewrite H, H0.
Qed.

(** Changing the callables of an object is a step aside. *)
Lemma update_aside id (f : Recipients.obj → Recipients.obj) w :
  (∀ o, footing (f o) = footing o) → aside w (Recipients.update id f w).
Proof.
  intros Hf. split_and!; try done. intros j. cbn.
  destruct (decide (j = id)) as [->|Hne].
  - rewrite lookup_alter_eq. destruct (Recipients.objects w !! id); cbn; [|done].
    by rewrite Hf.
  - by rewrite lookup_alter_ne.
Qed.

Lemma set_kept_aside r w : aside w (Recipients.set_kept r w).
Proof. by split_and!. Qed.

Variable recipients : Core.callee → Core.Context → Recipients.prog R.

(** The methods of the [Callable] side step aside, at whatever depth
    and whatever they are handed to reach deeper. *)
Lemma perform_of_Callable_aside deeper m w :
  of_Callable m = true → aside w (Recipients.perform recipients deeper m w).1.
Proof.
  intros Hm. unfold Recipients.perform, bind.
  destruct m as [id|id|id|id c|id c req|id c|id]; try discriminate Hm.
  - unfold Recipients.add_callout, bind, Recipients.self.
    destruct (Recipients.objects w !! id); [|apply aside_refl].
    cbn. apply update_aside. intros o'. by destruct c.
  - unfold Recipients.remove_callout, bind, Recipients.self.
    destruct (Recipients.objects w !! id) as [o|]; [|apply aside_refl].
    destruct (Core.list_remove c (Recipients._callbacks o)).
    + cbn. by apply update_aside.
    + destruct req; apply aside_refl.
  - unfold Recipients.set_callout, bind, Recipients.self.
    destruct (Recipients.objects w !! id); [|apply aside_refl].
    cbn. by apply update_aside.
  - unfold Recipients.clear_callouts, bind, Recipients.self.
    destruct (Recipients.objects w !! id); [|apply aside_refl].
    cbn. by apply update_aside.
Qed.

Lemma invoke_of_Callable_aside depth m w :
  of_Callable m = true → aside w (Recipients.invoke recipients depth m w).1.
Proof.
  intros Hm. destruct depth as [|d]; [apply aside_refl|].
  by apply perform_of_Callable_aside.
Qed.

Section FrameFacts.

Variable deeper : Recipients.method → M (Recipients.world R) pyval.

Hypothesis deeper_aside :
  ∀ m w, of_Callable m = true → aside w (deeper m w).1.

(** A calm body comes back, and has stepped aside. *)
Lemma run_prog_calm p w :
  calm p →
  ∃ w' v, Recipients.run_prog deeper p w = (w', inr v) ∧ aside w w'.
Proof.
  intros Hp. revert w. induction Hp as [v|m k Hm _ IH|k _ IH|r k _ IH]; intros w.
  - exists w, v. split; [done|apply aside_refl].
  - cbn [Recipients.run_prog]. pose proof (deeper_aside m w Hm) as Ha.
    destruct (deeper m w) as [w1 r]. destruct (IH r w1) as (w' & v & E & Ha').
    exists w', v. split; [done|]. eapply aside_trans; [exact Ha|exact Ha'].
  - cbn [Recipients.run_prog]. apply IH.
  - cbn [Recipients.run_prog].
    destruct (IH (Recipients.set_kept r w)) as (w' & v & E & Ha).
    exists w', v. split; [done|].
    eapply aside_trans; [apply set_kept_aside|exact Ha].
Qed.

Lemma call_each_calm latched ctx w :
  (∀ cb, calm (recipients cb ctx)) →
  ∃ w' vs, Recipients.call_each recipients deeper latched ctx w = (w', inr vs)
           ∧ aside w w'.
Proof.
  intros Hc. revert w. induction latched as [|cb rest IH]; intros w.
  { exists w, []. split; [done|apply aside_refl]. }
  cbn [Recipients.call_each]. unfold bind.
  destruct (run_prog_calm (recipients cb ctx) w (Hc cb)) as (w1 & v & -> & Ha).
  destruct (IH w1) as (w2 & vs & -> & Ha1).
  exists w2, (v :: vs). split; [done|]. eapply aside_trans; [exact Ha|exact Ha1].
Qed.

Hypothesis calm_on_CLOSE : ∀ cb, calm (recipients cb Recipients.CLOSE).

(** [close()] of an object that still has its Controller. *)
Lemma close_with_Controller w id o :
  enrolled w → Recipients.objects w !! id = Some o → Recipients.control o = true →
  ∃ w', Recipients.Selectable_close recipients deeper id w = (w', inr tt)
    ∧ Recipients.emitted w' = Recipients.emitted w ++ [(id, Recipients.CLOSE)]
    ∧ Recipients._map w' = delete (Recipients.fileno o) (Recipients._map w)
    ∧ Recipients.allocated w' = Recipients.allocated w
    ∧ (∃ o', Recipients.objects w' !! id = Some o'
             ∧ Recipients.control o' = false
             ∧ Recipients.fileno o' = Recipients.fileno o)
    ∧ ∀ j, j ≠ id → footing <$> Recipients.objects w' !! j
                    = footing <$> Recipients.objects w !! j.
Proof.
  intros Hw Ho Hc.
  destruct Hw as (_ & _ & Hobj). specialize (Hobj id o Ho). rewrite Hc in Hobj.
  destruct Hobj as [Hmap _].
  unfold Recipients.Selectable_close, bind at 1, Recipients.self at 1.
  rewrite Ho, Hc. unfold bind at 1, Recipients.callout, bind at 1, Recipients.self at 1.
  rewrite Ho. unfold bind at 1, modify. unfold bind at 1.
  set (w1 := Recipients.emit id Recipients.CLOSE w).
  destruct (call_each_calm (Recipients._callbacks o) Recipients.CLOSE w1 calm_on_CLOSE)
    as (w2 & vs & -> & Ha).
  cbn [ret].
  assert (Recipients.objects w1 !! id = Some o) as Ho1 by exact Ho.
  destruct (aside_lookup w1 w2 id o Ha Ho1) as (o2 & Ho2 & Hc2 & Hf2).
  destruct Ha as (Hm2 & Ha2 & He2 & Hs2).
  unfold bind at 1, Recipients.self at 1. rewrite Ho2, Hc2, Hc.
  unfold bind at 1, Recipients.remove, bind at 1, Recipients.self at 1.
  rewrite Ho2, Hf2, Hm2. change (Recipients._map w1) with (Recipients._map w).
  rewrite Hmap. cbn [modify].
  eexists. split; [reflexivity|]. cbn. split_and!.
  - by rewrite He2.
  - done.
  - by rewrite Ha2.
  - exists (Recipients.set_control false o2). rewrite lookup_alter_eq, Ho2.
    split_and!; done.
  - intros j Hj. rewrite lookup_alter_ne by done. apply Hs2.
Qed.

(** [close()] of an object that gave its Controller up changes
    nothing. *)
Lemma close_without_Controller w id o :
  Recipients.objects w !! id = Some o → Recipients.control o = false →
  Recipients.Selectable_close recipients deeper id w = (w, inr tt).
Proof.
  intros Ho Hc. unfold Recipients.Selectable_close, bind, Recipients.self.
  by rewrite Ho, Hc.
Qed.

Hypothesis deeper_enrolled : ∀ m w, enrolled w → enrolled (deeper m w).1.

Lemma run_prog_enrolled p w :
  enrolled w → enrolled (Recipients.run_prog deeper p w).1.
Proof.
  revert w. induction p as [v|e|m k IH|k IH|r k IH]; intros w Hw; try done.
  - cbn [Recipients.run_prog]. pose proof (deeper_enrolled m w Hw) as H1.
    destruct (deeper m w) as [w1 r]. by apply IH.
  - cbn [Recipients.run_prog]. by apply IH.
  - cbn [Recipients.run_prog]. apply IH.
    eapply aside_enrolled; [exact Hw|apply set_kept_aside].
Qed.

Lemma call_each_enrolled latched ctx w :
  enrolled w → enrolled (Recipients.call_each recipients deeper latched ctx w).1.
Proof.
  revert w. induction latched as [|cb rest IH]; intros w Hw; [done|].
  cbn [Recipients.call_each]. unfold bind.
  pose proof (run_prog_enrolled (recipients cb ctx) w Hw) as H1.
  destruct (Recipients.run_prog deeper (recipients cb ctx) w) as [w1 [e|v]]; [done|].
  pose proof (IH w1 H1) as H2.
  by destruct (Recipients.call_each recipients deeper rest ctx w1) as [w2 [e|vs]].
Qed.

Lemma close_calls_emit j id ctx w :
  close_calls j (Recipients.emit id ctx w)
  = (close_calls j w + if CLOSE_by j (id, ctx) then 1 else 0)%nat.
Proof.
  unfold close_calls. cbn [Recipients.emit Recipients.emitted].
  rewrite filter_app, length_app. f_equal.
  rewrite filter_cons, filter_nil.
  destruct (CLOSE_by j (id, ctx)); [by rewrite decide_True|by rewrite decide_False].
Qed.

(** A callout of anything but [CLOSE]. *)
Lemma callout_enrolled id ctx w :
  String.eqb (Core.state ctx) "CLOSE" = false →
  enrolled w → enrolled (Recipients.callout recipients deeper id ctx w).1.
Proof.
  intros Hctx Hw. unfold Recipients.callout, bind, Recipients.self.
  destruct (Recipients.objects w !! id) as [o|]; [|done]. cbn [modify].
  assert (enrolled (Recipients.emit id ctx w)) as H1.
  { destruct Hw as (Hfresh & Hghost & Hobj).
    assert (∀ j, close_calls j (Recipients.emit id ctx w) = close_calls j w) as Hc.
    { intros j. rewrite close_calls_emit. unfold CLOSE_by. cbn [fst snd].
      rewrite Hctx, andb_false_r. lia. }
    split_and!; [done| |].
    - intros j Hj. rewrite Hc. by apply Hghost.
    - intros j o' Ho'. rewrite Hc. by apply Hobj. }
  pose proof (call_each_enrolled (Recipients._callbacks o) ctx _ H1) as H2.
  by destruct (Recipients.call_each recipients deeper _ ctx _) as [w2 [e|vs]].
Qed.

Lemma CLOSE_by_CLOSE id j :
  CLOSE_by j (id, Recipients.CLOSE) = bool_decide (id = j).
Proof.
  unfold CLOSE_by. cbn. rewrite andb_true_r.
  destruct (Nat.eqb_spec id j); [by rewrite bool_decide_true|by rewrite bool_decide_false].
Qed.

Lemma close_enrolled id w :
  enrolled w → enrolled (Recipients.Selectable_close recipients deeper id w).1.
Proof.
  intros Hw. destruct (Recipients.objects w !! id) as [o|] eqn:Ho.
  2:{ unfold Recipients.Selectable_close, bind, Recipients.self. by rewrite Ho. }
  destruct (Recipients.control o) eqn:Hc.
  2:{ by rewrite (close_without_Controller w id o Ho Hc). }
  destruct (close_with_Controller w id o Hw Ho Hc)
    as (w' & -> & He & Hm & Ha & (o' & Ho' & Hc' & Hf') & Hothers).
  cbn [fst]. destruct Hw as (Hfresh & Hghost & Hobj).
  assert (∀ j, close_calls j w'
               = (close_calls j w + if bool_decide (id = j) then 1 else 0)%nat) as Hcalls.
  { intros j. rewrite <-CLOSE_by_CLOSE, <-close_calls_emit.
    unfold close_calls. by rewrite He. }
  pose proof (Hobj id o Ho) as Hid. rewrite Hc in Hid. destruct Hid as [Hmap Hzero].
  split_and!.
  - intros j Hj. rewrite Ha in Hj. destruct (decide (j = id)) as [->|Hne].
    + by rewrite (Hfresh id Hj) in Ho.
    + specialize (Hothers j Hne). rewrite (Hfresh j Hj) in Hothers.
      by destruct (Recipients.objects w' !! j).
  - intros j Hj. destruct (decide (j = id)) as [->|Hne]; [congruence|].
    rewrite Hcalls, bool_decide_false by done. rewrite Nat.add_0_r.
    apply Hghost. specialize (Hothers j Hne). rewrite Hj in Hothers.
    by destruct (Recipients.objects w !! j).
  - intros j oj Hj. destruct (decide (j = id)) as [->|Hne].
    + rewrite Ho' in Hj. injection Hj as <-. rewrite Hc', Hcalls, Hzero.
      by rewrite bool_decide_true.
    + rewrite Hcalls, bool_decide_false, Nat.add_0_r by done.
      specialize (Hothers j Hne). rewrite Hj in Hothers.
      destruct (Recipients.objects w !! j) as [oj0|] eqn:Hj0; [|done].
      cbn in Hothers. unfold footing in Hothers. simplify_eq.
      specialize (Hobj j oj0 Hj0). rewrite H. rewrite H0.
      destruct (Recipients.control oj0); [|done].
      destruct Hobj as [Hmapj Hzj]. split; [|done].
      rewrite Hm, lookup_delete_ne; [done|]. intros E. rewrite E in Hmap.
      congruence.
Qed.

Lemma perform_enrolled m w :
  enrolled w → enrolled (Recipients.perform recipients deeper m w).1.
Proof.
  intros Hw. destruct (of_Callable m) eqn:Hm.
  { eapply aside_enrolled; [exact Hw|]. by apply perform_of_Callable_aside. }
  unfold Recipients.perform, bind.
  destruct m as [id|id|id|id c|id c req|id c|id]; try discriminate Hm.
  - pose proof (close_enrolled id w Hw) as H.
    by destruct (Recipients.Selectable_close recipients deeper id w) as [w1 [e|[]]].
  - pose proof (close_enrolled id w Hw) as H.
    by destruct (Recipients.Selectable_close recipients deeper id w) as [w1 [e|[]]].
  - unfold Recipients._null_read, bind.
    pose proof (callout_enrolled id Recipients.END w eq_refl Hw) as H1.
    destruct (Recipients.callout recipients deeper id Recipients.END w)
      as [w1 [e|v]]; [done|]. cbn [fst] in H1.
    pose proof (close_enrolled id w1 H1) as H.
    by destruct (Recipients.Selectable_close recipients deeper id w1) as [w2 [e|[]]].
Qed.

End FrameFacts.

Hypothesis calm_on_CLOSE : ∀ cb, calm (recipients cb Recipients.CLOSE).

Lemma invoke_enrolled depth m w :
  enrolled w → enrolled (Recipients.invoke recipients depth m w).1.
Proof.
  revert m w. induction depth as [|d IH]; intros m w Hw; [done|].
  cbn [Recipients.invoke]. apply perform_enrolled; try done.
  intros m' w'. apply invoke_of_Callable_aside.
Qed.

Lemma new_enrolled fd c w :
  enrolled w → enrolled (Recipients.new fd c w).1.
Proof.
  intros (Hfresh & Hghost & Hobj). unfold Recipients.new, Recipients.insert, bind,
    Recipients.self. cbn. rewrite lookup_insert_eq. cbn.
  destruct (Recipients._map w !! fd) eqn:Hfd; [by split_and!|]. cbn.
  set (id := Recipients.allocated w).
  assert (Recipients.objects w !! id = None) as Hid by (apply Hfresh; lia).
  split_and!; cbn.
  - intros j Hj. rewrite lookup_insert_ne by lia. apply Hfresh. lia.
  - intros j Hj. destruct (decide (j = id)) as [->|Hne].
    + by rewrite lookup_insert_eq in Hj.
    + rewrite lookup_insert_ne in Hj by done. by apply Hghost.
  - intros j oj Hj. destruct (decide (j = id)) as [->|Hne].
    + rewrite lookup_insert_eq in Hj. injection Hj as <-. cbn.
      rewrite lookup_insert_eq. split; [done|]. by apply Hghost.
    + rewrite lookup_insert_ne in Hj by done. specialize (Hobj j oj Hj).
      destruct (Recipients.control oj); [|done]. destruct Hobj as [Hmap Hz].
      split; [|done]. rewrite lookup_insert_ne; [done|]. congruence.
Qed.

Lemma step_enrolled depth o w :
  enrolled w → enrolled (Recipients.step recipients depth o w).1.
Proof.
  intros Hw. destruct o as [fd c|m]; cbn [Recipients.step]; unfold bind.
  - pose proof (new_enrolled fd c w Hw) as H.
    by destruct (Recipients.new fd c w) as [w1 [e|v]].
  - pose proof (invoke_enrolled depth m w Hw) as H.
    by destruct (Recipients.invoke recipients depth m w) as [w1 [e|v]].
Qed.

Lemma run_enrolled depth ops w :
  enrolled w → enrolled (Recipients.run recipients depth ops w).
Proof.
  revert w. induction ops as [|o ops IH]; intros w Hw; [done|].
  cbn [Recipients.run]. by apply IH, step_enrolled.
Qed.

Lemma init_enrolled r : enrolled (Recipients.init r).
Proof. split_and!; [done|done|]. intros id o Ho. by cbn in Ho. Qed.

End RecipientFacts.

(** A callable that closes its object when it hears [CLOSE], the first
    time only: it keeps note of having done so. *)
Definition closes_once (id : nat) : Core.callee → Core.Context → Recipients.prog bool :=
  λ _ ctx,
    if String.eqb (Core.state ctx) "CLOSE"
    then Recipients.Load (λ seen : bool,
           if seen then Recipients.Return PNone
           else Recipients.Store true
                  (Recipients.Call (Recipients.Close id)
                     (λ r, match r with
                           | inl e => Recipients.Raise e
                           | inr _ => Recipients.Return PNone
                           end)))
    else Recipients.Return PNone.

(** A callable that raises when it hears [CLOSE], as the one that
    [copy_to] registers with [if_close] does once the copy was
    cancelled: its [remove_callout] finds nothing to remove. *)
Definition raises_on_CLOSE : Core.callee → Core.Context → Recipients.prog unit :=
  λ _ ctx,
    if String.eqb (Core.state ctx) "CLOSE"
    then Recipients.Raise ValueError
    else Recipients.Return PNone.

(** C10 as stated fails.  An object whose callable closes it on [CLOSE]
    calls out [CLOSE] twice in one [close()], which then raises
    AttributeError: the inner [close()] took the Controller away under
    the outer one.  And an object whose callable raises on [CLOSE]
    stays in the map with its Controller, and calls out [CLOSE] again
    at every further [close()]. *)
Lemma CLOSE_called_out_twice :
  (let w := (Recipients.new 5 (Some 0%nat) (Recipients.init false)).1 in
   let '(w', r) := Recipients.invoke (closes_once 0) 10 (Recipients.Close 0) w in
   close_calls 0 w' = 2%nat ∧ r = inl AttributeError)
  ∧ (let w := Recipients.run raises_on_CLOSE 10
                [Recipients.New 5 (Some 0%nat);
                 Recipients.Do (Recipients.Close 0);
                 Recipients.Do (Recipients.Close 0)] (Recipients.init tt) in
     close_calls 0 w = 2%nat
     ∧ Recipients._map w !! 5 = Some 0%nat
     ∧ Recipients.control <$> Recipients.objects w !! 0%nat = Some true).
Proof. split; [split; reflexivity|split_and!; reflexivity]. Qed.

(** C10, amended.  Let every callable, when it hears [CLOSE], come back
    and call nothing on the way but methods of the [Callable] side (no
    [close()], nothing that calls out); on any other callout the
    callables do as they please.  Then after any sequence of
    constructions and method calls, made at any depth, an object has
    called out [CLOSE] at most once.  The [close()] of an object that
    still has its Controller returns, calls out one [CLOSE], takes the
    object's descriptor out of the Controller's map and gives the
    Controller up; the [close()] of an object that has given it up
    returns and changes nothing. *)
Theorem CLOSE_called_out_at_most_once {R : Type}
    (recipients : Core.callee → Core.Context → Recipients.prog R)
    (depth : nat) (ops : list Recipients.op) (r0 : R) (id : nat) :
  (∀ cb, calm (recipients cb Recipients.CLOSE)) →
  let w := Recipients.run recipients depth ops (Recipients.init r0) in
  (close_calls id w ≤ 1)%nat
  ∧ ∀ o d, Recipients.objects w !! id = Some o →
      let '(w', r) := Recipients.invoke recipients (S d) (Recipients.Close id) w in
      r = inr PNone
      ∧ if Recipients.control o
        then Recipients.emitted w' = Recipients.emitted w ++ [(id, Recipients.CLOSE)]
             ∧ Recipients._map w !! Recipients.fileno o = Some id
             ∧ Recipients._map w' = delete (Recipients.fileno o) (Recipients._map w)
             ∧ Recipients.control <$> Recipients.objects w' !! id = Some false
        else w' = w.
Proof.
  intros Hcalm w.
  pose proof (run_enrolled recipients Hcalm depth ops _ (init_enrolled r0)) as Hw.
  fold w in Hw. split.
  - destruct Hw as (_ & Hghost & Hobj).
    destruct (Recipients.objects w !! id) as [o|] eqn:Ho.
    + specialize (Hobj id o Ho). destruct (Recipients.control o); lia.
    + rewrite (Hghost id Ho). lia.
  - intros o d Ho. cbn [Recipients.invoke]. unfold Recipients.perform, bind.
    destruct (Recipients.control o) eqn:Hc.
    + destruct (close_with_Controller recipients (Recipients.invoke recipients d)
                  (λ m w _, invoke_of_Callable_aside recipients d m w ltac:(done))
                  Hcalm w id o Hw Ho Hc)
        as (w' & -> & He & Hm & _ & (o' & Ho' & Hc' & _) & _).
      cbn [ret]. split; [done|]. split_and!; try done.
      * destruct Hw as (_ & _ & Hobj). specialize (Hobj id o Ho).
        rewrite Hc in Hobj. by destruct Hobj.
      * by rewrite Ho', <-Hc'.
    + by rewrite (close_without_Controller recipients _ w id o Ho Hc).
Qed.

(** A callable that closes its object when it hears [END], as the HTTP
    side does with its upstream, and only mends its registration when
    it hears [CLOSE]. *)
Definition closes_on_END (id : nat) : Core.callee → Core.Context → Recipients.prog unit :=
  λ cb ctx,
    if String.eqb (Core.state ctx) "END"
    then Recipients.Call (Recipients.Close id) (λ _, Recipients.Return PNone)
    else Recipients.Call (Recipients.RemoveCallout id cb false)
                         (λ _, Recipients.Return PNone).

Lemma closes_on_END_calm id cb : calm (closes_on_END id cb Recipients.CLOSE).
Proof. apply calm_Call; [done|]. intros r. apply calm_Return. Qed.

Lemma CLOSE_called_out_at_most_once_witness :
  let w := Recipients.run (closes_on_END 0) 10
             [Recipients.New 5 (Some 0%nat); Recipients.Do (Recipients.NullRead 0)]
             (Recipients.init tt) in
  (close_calls 0 w ≤ 1)%nat
  ∧ ∀ o d, Recipients.objects w !! 0%nat = Some o →
      let '(w', r) := Recipients.invoke (closes_on_END 0) (S d) (Recipients.Close 0) w in
      r = inr PNone
      ∧ if Recipients.control o
        then Recipients.emitted w' = Recipients.emitted w ++ [(0%nat, Recipients.CLOSE)]
             ∧ Recipients._map w !! Recipients.fileno o = Some 0%nat
             ∧ Recipients._map w' = delete (Recipients.fileno o) (Recipients._map w)
             ∧ Recipients.control <$> Recipients.objects w' !! 0%nat = Some false
        else w' = w.
Proof.
  apply (CLOSE_called_out_at_most_once (closes_on_END 0) 10
           [Recipients.New 5 (Some 0%nat); Recipients.Do (Recipients.NullRead 0)] tt 0).
  intros cb. apply closes_on_END_calm.
Defined.

(** The run of the witness: the end of input is called out, the
    callable closes the object, and the [close()] that [_null_read]
    makes next finds nothing left to do. *)
Example null_read_with_closing_callable :
  let w := Recipients.run (closes_on_END 0) 10
             [Recipients.New 5 (Some 0%nat); Recipients.Do (Recipients.NullRead 0)]
             (Recipients.init tt) in
  Recipients.emitted w = [(0%nat, Recipients.END); (0%nat, Recipients.CLOSE)]
  ∧ Recipients._map w = ∅.
Proof. split; reflexivity. Qed.

(** A callable that closes its object at every [CLOSE] it hears: the
    calls nest until Python's limit ends them, with one [CLOSE] called
    out per level, and the object stays in the map. *)
Example close_nests_to_the_limit :
  let always : Core.callee → Core.Context → Recipients.prog unit :=
    λ _ _, Recipients.Call (Recipients.Close 0)
             (λ r, match r with
                   | inl e => Recipients.Raise e
                   | inr _ => Recipients.Return PNone
                   end) in
  let w := (Recipients.new 5 (Some 0%nat) (Recipients.init tt)).1 in
  let '(w', r) := Recipients.invoke always 7 (Recipients.Close 0) w in
  close_calls 0 w' = 7%nat ∧ r = inl RuntimeError
  ∧ Recipients._map w' !! 5 = Some 0%nat.
Proof. vm_compute. by split_and!. Qed.

(** ** Injection (asyn/inject.py) *)

Lemma run_reachable outcome schedule s :
  Inject.reachable outcome s → Inject.reachable outcome (Inject.run outcome schedule s).
Proof.
  revert s. induction schedule as [|t rest IH]; intros s Hs; [done|].
  cbn [Inject.run]. destruct t.
  - destruct (Inject.caller_step s) as [s'|] eqn:E; apply IH; [|done].
    eapply Inject.reach_step; [exact Hs|]. by apply Inject.step_caller.
  - destruct (Inject.reactor_step outcome s) as [s'|] eqn:E; apply IH; [|done].
    eapply Inject.reach_step; [exact Hs|]. by apply Inject.step_reactor.
Qed.

(** While the injected call returns [None], the reply stays as it was
    made and the calling thread stays inside the [with] block. *)
Definition still_waiting (s : Inject.state) : Prop :=
  Inject.reply_error s = None ∧ Inject.reply_value s = PNone
  ∧ match Inject.caller s with
    | Inject.CUnlocked | Inject.CReturned _ | Inject.CRaised _ => False
    | _ => True
    end.

Lemma None_keeps_waiting s :
  Inject.reachable (inr PNone) s → still_waiting s.
Proof.
  induction 1 as [|s s' _ IH Hstep]; [by split_and!|].
  destruct IH as (He & Hv & Hc).
  destruct Hstep as [s s' Hs|s s' Hs]; destruct s as [c r l q p e v n];
    cbn in He, Hv, Hc; subst e v.
  - unfold Inject.caller_step in Hs. cbn in Hs.
    destruct c, l; simplify_eq; by split_and!.
  - unfold Inject.reactor_step in Hs. cbn in Hs.
    destruct r, p, q, l; simplify_eq; split_and!; try done; by destruct c.
Qed.

(** The schedule under which the deadlock shows: the caller posts the
    runner and waits; the reactor wakes, runs the call, notifies and
    goes back to [select]; the caller wakes, tests, and waits again. *)
Definition wait_run_wait : list Inject.thread :=
  [Inject.Caller; Inject.Caller; Inject.Caller;
   Inject.Reactor; Inject.Reactor; Inject.Reactor; Inject.Reactor;
   Inject.Reactor; Inject.Reactor; Inject.Reactor;
   Inject.Caller; Inject.Caller].

(** C8 fails on the code.  [inject_wait] takes [reply['value'] is None]
    for "the call has not run yet".  For a call that returns [None],
    [inject_wait] has not returned in any state that the two threads
    can reach; and they can reach the state in which the reactor has
    made the call once and sits in [select] again, the caller waits on
    the condition, and neither can move. *)
Theorem inject_wait_of_None_never_returns :
  (∀ s, Inject.reachable (inr PNone) s → Inject.done s = false)
  ∧ let s := Inject.run (inr PNone) wait_run_wait Inject.initial in
    Inject.reachable (inr PNone) s
    ∧ Inject.caller s = Inject.CWaiting ∧ Inject.reactor s = Inject.RSelect
    ∧ Inject.executed s = 1%nat
    ∧ Inject.stuck (inr PNone) s = true.
Proof.
  split.
  - intros s Hs. destruct (None_keeps_waiting s Hs) as (_ & _ & Hc).
    unfold Inject.done. by destruct (Inject.caller s).
  - split; [apply run_reachable, Inject.reach_initial|]. by split_and!.
Qed.

(** The same schedule with a call that returns a value other than
    [None], and with one that raises: the caller gets the value, or the
    exception. *)
Example inject_wait_returns_value :
  Inject.caller (Inject.run (inr (PStr (bs "wallaby!"))) (wait_run_wait ++ [Inject.Caller])
                            Inject.initial)
  = Inject.CReturned (PStr (bs "wallaby!")).
Proof. reflexivity. Qed.

Example inject_wait_raises_error :
  Inject.caller (Inject.run (inl KeyError) (wait_run_wait ++ [Inject.Caller])
                            Inject.initial)
  = Inject.CRaised KeyError.
Proof. reflexivity. Qed.

(** * Further properties of the same code *)

(** ** Callback funnels: registration and the reducer (asyn/core.py) *)

(** The first true value of a list of results; when none is true, the
    last result; [None] for no results. *)
Fixpoint first_true (results : list pyval) : pyval :=
  match results with
  | [] => PNone
  | [v] => v
  | v :: rest => if truthy v then v else first_true rest
  end.

Lemma fold_default_reducer_true v results :
  truthy v = true → fold_left Core.default_reducer results v = v.
Proof.
  intros Hv. induction results as [|r rest IH]; [done|].
  cbn. unfold Core.default_reducer at 2. by rewrite Hv.
Qed.

Lemma fold_default_reducer acc results :
  truthy acc = false →
  fold_left Core.default_reducer results acc
  = match results with [] => acc | _ => first_true results end.
Proof.
  revert acc. induction results as [|r rest IH]; intros acc Hacc; [done|].
  cbn [fold_left]. unfold Core.default_reducer at 2. rewrite Hacc.
  destruct (truthy r) eqn:Hr.
  - rewrite fold_default_reducer_true by done. cbn. rewrite Hr. by destruct rest.
  - rewrite IH by done. cbn. rewrite Hr. by destruct rest.
Qed.

(** X1.  With the reducer a Callable starts with, a [callout()] that
    returns gives the first true value among the results of the
    callables, taken in registration order; when no result is true it
    gives the last result, and [None] when no callable is registered. *)
Theorem callout_default_reducer_first_true {W : Type}
    (obs : Core.observers (W:=W)) (ctx : Core.Context) (args : list pyval)
    (s : Core.Callable * W) :
  let calls := Core.call_each obs (Core._callbacks s.1) ctx args s in
  Core._callback_reducer calls.1.1.1 = Some Core.default_reducer →
  (Core.callout obs (Core.ACtx ctx) args s).1.2
  = match calls.1.2 with
    | inl e => inl e
    | inr results => inr (first_true results)
    end.
Proof.
  unfold Core.callout. cbn [Core.as_context].
  destruct (Core.call_each obs (Core._callbacks s.1) ctx args s) as [[s' r] tr].
  cbn. intros Hred. destruct r as [e|results]; [done|]. rewrite Hred. cbn.
  rewrite fold_default_reducer by done. by destruct results.
Qed.

Lemma callout_default_reducer_first_true_witness :
  let cal := Core.mkCallable [0; 2; 1]%nat (Some Core.default_reducer) in
  (Core.callout regression_obs (Core.ACtx (Core.Context_of "blah")) [] (cal, tt)).1.2
  = inr (first_true [PNone; PInt 2; PInt 1]).
Proof.
  exact (callout_default_reducer_first_true regression_obs (Core.Context_of "blah") []
           (Core.mkCallable [0; 2; 1]%nat (Some Core.default_reducer), tt) eq_refl).
Defined.

Lemma list_remove_absent c l : c ∉ l → Core.list_remove c l = None.
Proof.
  induction l as [|y l IH]; [done|]. intros Hc. cbn.
  rewrite decide_False by (intros ->; apply Hc; left).
  rewrite IH; [done|]. intros H. apply Hc. by right.
Qed.

Lemma list_remove_snoc c l : c ∉ l → Core.list_remove c (l ++ [c]) = Some l.
Proof.
  induction l as [|y l IH]; intros Hc; cbn.
  - by rewrite decide_True.
  - rewrite decide_False by (intros ->; apply Hc; left).
    rewrite IH; [done|]. intros H. apply Hc. by right.
Qed.

(** X2.  Registering a callable that was not registered and unregistering
    it again gives the Callable back; unregistering one that is not
    registered raises ValueError when [required], does nothing
    otherwise, and in both cases leaves the Callable alone. *)
Theorem add_then_remove_callout (self : Core.Callable) (c : Core.callee)
    (required : bool) :
  c ∉ Core._callbacks self →
  Core.remove_callout c required (Core.add_callout (Some c) self) = (self, inr tt)
  ∧ Core.remove_callout c required self
    = (self, if required then inl ValueError else inr tt).
Proof.
  intros Hc. unfold Core.remove_callout, Core.add_callout, Core.set_callbacks.
  cbn. rewrite list_remove_snoc, list_remove_absent by done.
  destruct self, required; done.
Qed.

Lemma add_then_remove_callout_witness :
  let self := Core.mkCallable [1; 2]%nat (Some Core.default_reducer) in
  Core.remove_callout 7%nat true (Core.add_callout (Some 7%nat) self) = (self, inr tt)
  ∧ Core.remove_callout 7%nat true self = (self, inl ValueError).
Proof.
  apply (add_then_remove_callout
           (Core.mkCallable [1; 2]%nat (Some Core.default_reducer)) 7%nat true).
  cbn. rewrite !not_elem_of_cons. split_and!; [done..|apply not_elem_of_nil].
Defined.

(** A callable registered twice is called twice, and unregistering it
    takes out its first registration. *)
Example remove_takes_first_registration :
  Core.remove_callout 1%nat true
    (Core.add_callout (Some 1%nat)
       (Core.mkCallable [1; 2]%nat (Some Core.default_reducer)))
  = (Core.mkCallable [2; 1]%nat (Some Core.default_reducer), inr tt).
Proof. reflexivity. Qed.

(** ** Scanners: how a run of [_scan] ends (asyn/scan.py) *)

(** Every match of the rule set consumes at least one byte. *)
Definition consuming (rules : Scan.Regex) : Prop :=
  ∀ buffer k r m, first_match rules 0 buffer = Some (k, r, m) → (0 < Scan.m_end m)%nat.

Lemma scan_loop_regex_unread rules fuel buffer (w : list Scan.call) :
  let '(s', w', e) :=
    Scan._scan_loop Scan.Callable_callout fuel
      (Scan.mkScannable (Some (Scan.SRegex rules)) buffer) w in
  Scan.scan s' = Some (Scan.SRegex rules)
  ∧ Scan._rbuf s' `suffix_of` buffer
  ∧ w `prefix_of` w'
  ∧ (consuming rules → (length buffer < fuel)%nat → e = Scan.Finished).
Proof.
  revert buffer w. induction fuel as [|fuel IH]; intros buffer w.
  { destruct buffer; cbn; split_and!; try done; intros; cbn in *; lia. }
  destruct (decide (buffer = [])) as [->|Hne]; [by cbn|].
  rewrite scan_loop_regex_step, try_rules_first_match by done.
  destruct (first_match rules 0 buffer) as [[[k r] m]|] eqn:Efm; [|by split_and!].
  set (w1 := match Scan.state_true (Scan.r_state r) with
             | Some st => _ | None => w end).
  assert (w `prefix_of` w1) as Hw1.
  { subst w1. destruct (Scan.state_true (Scan.r_state r)); [|done].
    by apply prefix_app_r. }
  specialize (IH (drop (Scan.m_end m) buffer) w1).
  destruct (Scan._scan_loop _ fuel _ w1) as [[s' w'] e].
  destruct IH as (Hs & Hsuf & Hpre & Hend). split_and!; [done| | |].
  - etrans; [exact Hsuf|]. apply suffix_drop.
  - by etrans.
  - intros Hcons Hlen. apply Hend; [done|]. rewrite length_drop.
    specialize (Hcons _ _ _ _ Efm). destruct buffer; [done|]. cbn in *. lia.
Qed.

(** X3.  A Scannable with a rule scanner whose matches all consume: each
    [_scan] ends, without an exception; it keeps the scanner; what it
    leaves in the read buffer is a tail of what was buffered plus the
    new data; and the callouts made before stay as they were. *)
Theorem regex_scan_ends_with_unread_tail
    (rules : Scan.Regex) (data buffered : bytes) (log : list Scan.call) :
  consuming rules →
  let '(s', log', e) :=
    Scan._scan Scan.Callable_callout data
      (Scan.mkScannable (Some (Scan.SRegex rules)) buffered) log in
  e = Scan.Finished
  ∧ Scan.scan s' = Some (Scan.SRegex rules)
  ∧ Scan._rbuf s' `suffix_of` buffered ++ data
  ∧ log `prefix_of` log'.
Proof.
  intros Hcons. unfold Scan._scan, Scan._scan_fuel. cbn [Scan.scan Scan._rbuf].
  pose proof (scan_loop_regex_unread rules (S (length (buffered ++ data)))
                (buffered ++ data) log) as H.
  destruct (Scan._scan_loop _ _ _ log) as [[s' log'] e].
  destruct H as (Hs & Hsuf & Hpre & Hend). split_and!; try done.
  apply Hend; [done|lia].
Qed.

Lemma line_consuming : consuming Scan._line.
Proof.
  intros buffer k r m H. by destruct (line_prefix_stable buffer k r m H) as [[? _] _].
Qed.

Lemma regex_scan_ends_with_unread_tail_witness :
  let '(s', log', e) :=
    Scan._scan Scan.Callable_callout (bs "two" ++ [LF] ++ bs "thr")
      (Scan.mkScannable (Some (Scan.SRegex Scan._line)) (bs "one" ++ [LF] ++ bs "and ")) [] in
  e = Scan.Finished
  ∧ Scan.scan s' = Some (Scan.SRegex Scan._line)
  ∧ Scan._rbuf s' `suffix_of` (bs "one" ++ [LF] ++ bs "and ") ++ (bs "two" ++ [LF] ++ bs "thr")
  ∧ [] `prefix_of` log'.
Proof.
  exact (regex_scan_ends_with_unread_tail Scan._line (bs "two" ++ [LF] ++ bs "thr")
           (bs "one" ++ [LF] ++ bs "and ") [] line_consuming).
Defined.

(** What a rule calls out for a match: its context with the arguments
    of the match when its state is true, nothing otherwise. *)
Definition rule_call (k : nat) (r : Scan.rule) (buffer : bytes) (m : Scan.Match)
    : list Scan.call :=
  match Scan.state_true (Scan.r_state r) with
  | Some st => [Scan.mkCall (Core.ACtx (Scan.match_context st k r buffer m))
                            (Scan.m_groups m) []]
  | None => []
  end.

(** X4.  A rule that matches without consuming stops the loop of [_scan]
    from ever ending: the same buffer is scanned again and again, the
    rule's callout is made at every turn if its state is true, the
    buffer stays as it was, and whatever bound is put on the loop is
    used up. *)
Theorem empty_match_never_ends
    (rules : Scan.Regex) (buffer : bytes) (k : nat) (r : Scan.rule) (m : Scan.Match)
    (fuel : nat) (log : list Scan.call) :
  buffer ≠ [] →
  first_match rules 0 buffer = Some (k, r, m) →
  Scan.m_end m = 0%nat →
  Scan._scan_loop Scan.Callable_callout fuel
    (Scan.mkScannable (Some (Scan.SRegex rules)) buffer) log
  = (Scan.mkScannable (Some (Scan.SRegex rules)) buffer,
     log ++ concat (replicate fuel (rule_call k r buffer m)),
     Scan.OutOfFuel).
Proof.
  intros Hne Hfm Hend. revert log. induction fuel as [|fuel IH]; intros log.
  { destruct buffer; [done|]. cbn. by rewrite app_nil_r. }
  rewrite scan_loop_regex_step, try_rules_first_match, Hfm, Hend by done.
  rewrite drop_0, IH. cbn [replicate concat]. rewrite app_assoc.
  unfold rule_call. by destruct (Scan.state_true (Scan.r_state r)); rewrite ?app_nil_r.
Qed.

(** The [match] method of the pattern [[0-9]*]: the digits the buffer
    starts with, none included. *)
Definition re_digits_star : Scan.pattern :=
  λ buffer, let run := Scan.leading Scan.is_digit buffer in
            Some (Scan.mkMatch (length run) [PStr run]).

Lemma empty_match_never_ends_witness :
  Scan._scan_loop Scan.Callable_callout 1000
     (Scan.mkScannable
        (Some (Scan.SRegex [Scan.mkRule re_digits_star (Some "number"%string) []]))
        (bs "x1")) []
  = (Scan.mkScannable
        (Some (Scan.SRegex [Scan.mkRule re_digits_star (Some "number"%string) []]))
        (bs "x1"),
     [] ++ concat (replicate 1000
                     (rule_call 0 (Scan.mkRule re_digits_star (Some "number"%string) [])
                                (bs "x1") (Scan.mkMatch 0 [PStr []]))),
     Scan.OutOfFuel).
Proof.
  apply (empty_match_never_ends
           [Scan.mkRule re_digits_star (Some "number"%string) []] (bs "x1")
           0%nat (Scan.mkRule re_digits_star (Some "number"%string) [])
           (Scan.mkMatch 0 [PStr []]) 1000 []); [discriminate | reflexivity | reflexivity].
Defined.

(** *** The byte limiter *)

(** The test [self._threshold and available < self._threshold]. *)
Definition held_back (b : Scan.ByteLimit) (buffer : bytes) : bool :=
  match Scan._threshold b with
  | Some t => negb (t =? 0) && (Scan._delivered b + len buffer <? t)
  | None => false
  end.

Lemma slice_0_app_from (s : bytes) (n : Z) :
  0 ≤ n → slice s 0 n ++ slice_from s n = s.
Proof.
  intros Hn. unfold slice, slice_from, slice_index.
  destruct (Z.ltb_spec 0 0); [lia|]. destruct (Z.ltb_spec n 0); [lia|].
  replace (Z.to_nat (Z.min 0 (Z.of_nat (length s)))) with 0%nat by lia.
  rewrite drop_0, Nat.sub_0_r. apply take_drop.
Qed.

(** X5.  One [scan()] call of a limiter within its budget either is held
    back by the threshold, and then returns [None], calls nothing out
    and counts nothing; or it calls out [limit-data] with a first part
    of the buffer, returns the rest of it, and counts the part it
    delivered, never past the budget. *)
Theorem bytelimit_scan_splits_buffer (b : Scan.ByteLimit) (buffer : bytes) :
  0 ≤ Scan._delivered b ≤ Scan._limit b →
  let '(b', log, r) := scan_once b buffer in
  if held_back b buffer
  then b' = b ∧ log = [] ∧ r = inr None
  else ∃ send rest,
      r = inr (Some rest) ∧ send ++ rest = buffer
      ∧ head log = Some (limit_data send)
      ∧ Scan._delivered b' = Scan._delivered b + len send
      ∧ Scan._delivered b' ≤ Scan._limit b.
Proof.
  intros Hd. destruct b as [L thr d]. cbn [Scan._delivered Scan._limit] in Hd.
  unfold scan_once, held_back, Scan.ByteLimit_scan, bind, Scan.on_scanner,
    Scan.on_world, Scan.recording_callout, bind, modify, ret.
  cbn [Scan._delivered Scan._limit Scan._threshold].
  destruct (match thr with
            | Some t => negb (t =? 0) && (d + len buffer <? t)
            | None => false
            end); [done|].
  destruct (Z.gtb_spec (d + len buffer) L) as [Hgt|Hle];
    cbn -[Z.add Z.sub len slice slice_from Z.eqb].
  - replace (d + (L - d)) with L by lia. rewrite Z.eqb_refl.
    cbn -[Z.add Z.sub len slice slice_from Z.eqb].
    exists (slice buffer 0 (L - d)), (slice_from buffer (L - d)).
    rewrite len_slice_0 by lia. split_and!; [done| |done|lia|lia].
    apply slice_0_app_from. lia.
  - destruct (d + len buffer =? L) eqn:E;
      cbn -[Z.add Z.sub len slice slice_from Z.eqb];
      exists buffer, []; rewrite app_nil_r; split_and!; done.
Qed.

Lemma bytelimit_scan_splits_buffer_witness :
  let '(b', log, r) := scan_once (Scan.mkByteLimit 5 (Some 2) 3) (bs "abcd") in
  if held_back (Scan.mkByteLimit 5 (Some 2) 3) (bs "abcd")
  then b' = Scan.mkByteLimit 5 (Some 2) 3 ∧ log = [] ∧ r = inr None
  else ∃ send rest,
      r = inr (Some rest) ∧ send ++ rest = bs "abcd"
      ∧ head log = Some (limit_data send)
      ∧ Scan._delivered b' = 3 + len send
      ∧ Scan._delivered b' ≤ 5.
Proof.
  apply (bytelimit_scan_splits_buffer (Scan.mkByteLimit 5 (Some 2) 3) (bs "abcd")).
  cbn. lia.
Defined.

(** X6.  Fed by a Scannable, whose callout is [Callable.callout], a limiter
    that its threshold does not hold back raises TypeError at its first
    [limit-data]: [Callable.callout] takes no keyword argument.
    Nothing is called out, nothing is counted, and the bytes stay in the
    read buffer. *)
Theorem bytelimit_fed_by_scannable_raises
    (b : Scan.ByteLimit) (data buffered : bytes) (log : list Scan.call) :
  buffered ++ data ≠ [] →
  held_back b (buffered ++ data) = false →
  Scan._scan Scan.Callable_callout data
    (Scan.mkScannable (Some (Scan.SByteLimit b)) buffered) log
  = (Scan.mkScannable (Some (Scan.SByteLimit b)) (buffered ++ data), log,
     Scan.Raised TypeError).
Proof.
  intros Hne Hheld. unfold Scan._scan, Scan._scan_fuel. cbn [Scan.scan Scan._rbuf].
  destruct (buffered ++ data) as [|c buffer] eqn:Eb; [done|].
  cbn [Scan._scan_loop Scan.scan Scan._rbuf length Scan.scanner_scan].
  unfold Scan.ByteLimit_scan, bind, Scan.on_scanner. unfold held_back in Hheld.
  cbn [fst snd]. rewrite Hheld.
  by destruct (Scan._delivered b + len (c :: buffer) >? Scan._limit b), b.
Qed.

Lemma bytelimit_fed_by_scannable_raises_witness :
  Scan._scan Scan.Callable_callout (bs "cd")
    (Scan.mkScannable (Some (Scan.SByteLimit (Scan.ByteLimit_init 3 (Some 2)))) (bs "ab")) []
  = (Scan.mkScannable (Some (Scan.SByteLimit (Scan.ByteLimit_init 3 (Some 2))))
       (bs "ab" ++ bs "cd"), [], Scan.Raised TypeError).
Proof.
  apply (bytelimit_fed_by_scannable_raises (Scan.ByteLimit_init 3 (Some 2))
           (bs "cd") (bs "ab") []); [discriminate | reflexivity].
Defined.

(** ** The chunked-transfer filter, any writes (asyn/http_chunk.py) *)

(** The characters ["%X"] produces. *)
Definition hexc (c : ascii) : Prop := c ∈ bs "0123456789ABCDEF".

Lemma hex_digit_spec (d : N) :
  (d < 16)%N → hexc (HttpChunk.hex_digit d) ∧ HttpChunk.hex_value (HttpChunk.hex_digit d) = Some (Z.of_N d).
Proof.
  intros Hd. assert (∃ k, d = N.of_nat k ∧ (k < 16)%nat) as (k & -> & Hk).
  { exists (N.to_nat d). lia. }
  unfold hexc. do 16 (destruct k as [|k]; [split; [set_solver|reflexivity]|]). lia.
Qed.

Lemma hex_loop_app (fuel : nat) (n : N) (acc : bytes) :
  HttpChunk.hex_loop fuel n acc = HttpChunk.hex_loop fuel n [] ++ acc.
Proof.
  revert n acc. induction fuel as [|fuel IH]; intros n acc; [done|]. cbn.
  destruct (n <? 16)%N; [done|].
  rewrite (IH _ (_ :: acc)), (IH _ [_]), <-app_assoc. done.
Qed.

Lemma hex_digits_app (xs ys : bytes) (a : Z) :
  HttpChunk.hex_digits (xs ++ ys) a
  = match HttpChunk.hex_digits xs a with
    | Some b => HttpChunk.hex_digits ys b
    | None => None
    end.
Proof.
  revert a. induction xs as [|c xs IH]; intros a; [done|]. cbn.
  destruct (HttpChunk.hex_value c); [apply IH|done].
Qed.

Lemma hex_loop_spec (fuel : nat) (n : N) :
  (n < 16 * 2 ^ N.of_nat fuel)%N →
  let ds := HttpChunk.hex_loop (S fuel) n [] in
  ds ≠ [] ∧ Forall hexc ds ∧ HttpChunk.hex_digits ds 0 = Some (Z.of_N n).
Proof.
  revert n. induction fuel as [|fuel IH]; intros n Hn; cbn zeta.
  - cbn [HttpChunk.hex_loop].
    destruct (N.ltb_spec n 16) as [Hlt|Hge]; [|cbn in Hn; lia].
    destruct (hex_digit_spec n Hlt) as [Hc Hv]. split_and!; [done|by constructor|].
    cbn [HttpChunk.hex_digits]. rewrite Hv. f_equal.
  - change (HttpChunk.hex_loop (S (S fuel)) n []) with
      (if (n <? 16)%N then [HttpChunk.hex_digit n]
       else HttpChunk.hex_loop (S fuel) (n / 16) [HttpChunk.hex_digit (n mod 16)]).
    destruct (N.ltb_spec n 16) as [Hlt|Hge].
    + destruct (hex_digit_spec n Hlt) as [Hc Hv]. split_and!; [done|by constructor|].
      cbn [HttpChunk.hex_digits]. rewrite Hv. f_equal.
    + assert (n / 16 < 16 * 2 ^ N.of_nat fuel)%N as Hq.
      { apply N.Div0.div_lt_upper_bound.
        replace (N.of_nat (S fuel)) with (N.succ (N.of_nat fuel)) in Hn by lia.
        rewrite N.pow_succ_r' in Hn. lia. }
      destruct (IH _ Hq) as (Hne & Hall & Hval).
      assert (n mod 16 < 16)%N as Hm by (apply N.mod_lt; lia).
      destruct (hex_digit_spec _ Hm) as [Hc Hv].
      rewrite hex_loop_app. split_and!.
      * intros E. by apply app_eq_nil in E as [? _].
      * apply Forall_app. split; [done|by constructor].
      * rewrite hex_digits_app, Hval. cbn [HttpChunk.hex_digits]. rewrite Hv. f_equal.
        pose proof (N.div_mod n 16). lia.
Qed.

Lemma size_nat_gt (n : N) : (n < 2 ^ N.of_nat (N.size_nat n))%N.
Proof.
  destruct n as [|p]; [done|]. cbn [N.size_nat].
  induction p as [p IH|p IH|]; cbn [Pos.size_nat].
  - replace (N.of_nat (S (Pos.size_nat p))) with (N.succ (N.of_nat (Pos.size_nat p))) by lia.
    rewrite N.pow_succ_r'. lia.
  - replace (N.of_nat (S (Pos.size_nat p))) with (N.succ (N.of_nat (Pos.size_nat p))) by lia.
    rewrite N.pow_succ_r'. lia.
  - done.
Qed.

Lemma format_X_spec (n : nat) :
  HttpChunk.format_X n ≠ [] ∧ Forall hexc (HttpChunk.format_X n)
  ∧ HttpChunk.hex_digits (HttpChunk.format_X n) 0 = Some (Z.of_nat n).
Proof.
  pose proof (hex_loop_spec (N.size_nat (N.of_nat n)) (N.of_nat n)) as H.
  cbn zeta in H. unfold HttpChunk.format_X.
  destruct H as (? & ? & Hv).
  { pose proof (size_nat_gt (N.of_nat n)). lia. }
  split_and!; [done..|]. rewrite Hv. f_equal. lia.
Qed.

Lemma hexc_cases (c : ascii) (P : ascii → Prop) :
  hexc c → Forall P (bs "0123456789ABCDEF") → P c.
Proof. intros Hc HP. by eapply Forall_forall in HP. Qed.

Lemma hexc_plain (c : ascii) :
  hexc c →
  HttpChunk.is_space c = false ∧ Ascii.eqb c ";" = false ∧ Ascii.eqb CR c = false
  ∧ c ≠ "-"%char ∧ c ≠ "+"%char ∧ c ≠ "x"%char ∧ c ≠ "X"%char.
Proof.
  intros Hc. pattern c.
  apply (hexc_cases c _ Hc).
  repeat (constructor; [by split_and!|]). constructor.
Qed.

Lemma lstrip_hex (s : bytes) : Forall hexc s → HttpChunk.lstrip s = s.
Proof.
  intros [|c s' Hc _]; [done|]. cbn. by destruct (hexc_plain c Hc) as (-> & _).
Qed.

Lemma int_16_hex (s : bytes) :
  s ≠ [] → Forall hexc s → HttpChunk.int_16 s = HttpChunk.hex_digits s 0.
Proof.
  intros Hne Hall. unfold HttpChunk.int_16, HttpChunk.strip.
  rewrite (lstrip_hex s Hall), (lstrip_hex (rev s)), rev_involutive
    by by apply Forall_rev.
  assert (∀ o : option Z, option_map (Z.mul 1) o = o) as Hone.
  { intros [v|]; cbn [option_map]; [f_equal; lia|done]. }
  destruct Hall as [|c s' Hc Hall]; [done|].
  unfold hexc in Hc. cbn in Hc.
  repeat (apply elem_of_cons in Hc as [->|Hc]); try (by apply elem_of_nil in Hc);
    try apply Hone.
  destruct Hall as [|c' s'' Hc' Hall]; [apply Hone|].
  unfold hexc in Hc'. cbn in Hc'.
  repeat (apply elem_of_cons in Hc' as [->|Hc']); try (by apply elem_of_nil in Hc');
    apply Hone.
Qed.

(** The header [write()] sends for a chunk parses back to the length. *)
Lemma int_16_format_X (n : nat) :
  HttpChunk.int_16 (HttpChunk.format_X n) = Some (Z.of_nat n).
Proof.
  destruct (format_X_spec n) as (Hne & Hall & Hv). by rewrite int_16_hex.
Qed.

Lemma partition_head_hex (s : bytes) : Forall hexc s → partition_head s ";" = s.
Proof.
  induction 1 as [|c s Hc _ IH]; [done|]. cbn.
  destruct (hexc_plain c Hc) as (_ & -> & _). by rewrite IH.
Qed.

Lemma find_from_hex (s rest : bytes) (k : Z) :
  Forall hexc s → find_from (s ++ CRLF ++ rest) CRLF k = k + len s.
Proof.
  intros Hall. revert k. induction Hall as [|c s Hc _ IH]; intros k.
  - destruct rest; cbn; unfold len; cbn [length]; lia.
  - cbn [app find_from startswith CRLF].
    destruct (hexc_plain c Hc) as (_ & _ & -> & _).
    change ([CR; LF] ++ rest) with (CRLF ++ rest) in IH. cbn [app] in IH.
    rewrite IH. unfold len. cbn [length]. lia.
Qed.

Lemma slice_to_app {A} (a b : list A) : slice_to (a ++ b) (len a) = a.
Proof.
  unfold slice_to, slice_index, len. destruct (Z.ltb_spec (Z.of_nat (length a)) 0); [lia|].
  rewrite length_app. replace (Z.to_nat _) with (length a) by lia.
  by rewrite take_app_length.
Qed.

Lemma slice_from_app {A} (a b : list A) : slice_from (a ++ b) (len a) = b.
Proof.
  unfold slice_from, slice_index, len. destruct (Z.ltb_spec (Z.of_nat (length a)) 0); [lia|].
  rewrite length_app. replace (Z.to_nat _) with (length a) by lia.
  by rewrite drop_app_length.
Qed.

(** The second half of a turn of the loop of [_pass_downstream]: the
    assertion, and the chunk header when the chunk before it is through. *)
Definition next_header (fuel : nat) (data : bytes) (self : HttpChunk.ChunkedCoder)
    (w : list Scan.call) : HttpChunk.ChunkedCoder * list Scan.call * Scan.ending :=
  if negb ((HttpChunk._remain self =? 0) || match data with [] => true | _ => false end)
  then (self, w, Scan.Raised AssertionError)
  else if (HttpChunk._remain self =? 0) && match data with [] => false | _ => true end
  then
    let hlen := find data CRLF in
    if hlen =? -1 then (HttpChunk.set_pending (Some data) self, w, Scan.Finished)
    else
      let header := partition_head (slice_to data hlen) ";"%char in
      match HttpChunk.int_16 header with
      | None => (self, w, Scan.Raised ValueError)
      | Some n =>
          let self := HttpChunk.set_remain (n + 2) self in
          let data := slice_from data (hlen + 2) in
          if HttpChunk._remain self =? 2
          then
            let self := HttpChunk.set_pending (Some data) self in
            match Scan.Callable_callout (Scan.mkCall (Core.AStr "END") [PStr data] []) w with
            | (w, inl e) => (self, w, Scan.Raised e)
            | (w, inr _) => (self, w, Scan.Finished)
            end
          else HttpChunk.pass_loop Scan.Callable_callout fuel data self w
      end
  else HttpChunk.pass_loop Scan.Callable_callout fuel data self w.

Lemma pass_loop_turn fuel data self (w : list Scan.call) :
  data ≠ [] →
  HttpChunk.pass_loop Scan.Callable_callout (S fuel) data self w
  = let '(self, w, e, data) :=
      if HttpChunk._remain self =? 0 then (self, w, Scan.Finished, data)
      else
        let rlen := Z.min (len data) (HttpChunk._remain self) in
        let self := HttpChunk.set_remain (HttpChunk._remain self - rlen) self in
        let sendlen := rlen - Z.min (2 - HttpChunk._remain self) 0 in
        let '(sc, w, e) :=
          Scan._scan Scan.Callable_callout (slice_to data sendlen)
            (HttpChunk.scannable self) w in
        (HttpChunk.set_scannable sc self, w, e, slice_from data rlen) in
    match e with
    | Scan.Finished => next_header fuel data self w
    | stopped => (self, w, stopped)
    end.
Proof. intros Hne. destruct data; [done|]. reflexivity. Qed.

Definition RAW_call (data : bytes) : Scan.call :=
  Scan.mkCall (Core.ACtx Scan.RAW) [PStr data] [].

Definition END_call (data : bytes) : Scan.call :=
  Scan.mkCall (Core.ACtx (Core.Context_of "END")) [PStr data] [].

Lemma scan_raw (data : bytes) (log : list Scan.call) :
  data ≠ [] →
  Scan._scan Scan.Callable_callout data Scan.Scannable_init log
  = (Scan.Scannable_init, log ++ [RAW_call data], Scan.Finished).
Proof. intros Hne. destruct data; [done|]. reflexivity. Qed.

Lemma raw_bytes_app (l1 l2 : list Scan.call) :
  raw_bytes (l1 ++ l2) = raw_bytes l1 ++ raw_bytes l2.
Proof. unfold raw_bytes. by rewrite map_app, concat_app. Qed.

(** The wire image of the chunks of [writes], and the last-chunk marker. *)
Definition chunks_of (writes : list bytes) : bytes :=
  concat (map (λ d, HttpChunk.format_X (length d) ++ CRLF ++ d ++ CRLF) writes).

Definition last_chunk : bytes := bs "0" ++ CRLF ++ CRLF.

(** The writes before the first empty one. *)
Fixpoint before_empty (writes : list bytes) : list bytes :=
  match writes with
  | [] => []
  | [] :: _ => []
  | d :: rest => d :: before_empty rest
  end.

Lemma next_header_parse fuel (n : nat) tail self (log : list Scan.call) :
  HttpChunk._remain self = 0 →
  next_header fuel (HttpChunk.format_X n ++ CRLF ++ tail) self log
  = let self' := HttpChunk.set_remain (Z.of_nat n + 2) self in
    if decide (n = 0%nat)
    then (HttpChunk.set_pending (Some tail) self', log ++ [END_call tail], Scan.Finished)
    else HttpChunk.pass_loop Scan.Callable_callout fuel tail self' log.
Proof.
  intros Hr. destruct (format_X_spec n) as (Hne & Hall & _).
  unfold next_header. rewrite Hr. set (h := HttpChunk.format_X n) in *.
  replace (match h ++ CRLF ++ tail with [] => true | _ => false end)
    with false by (by destruct h).
  replace (match h ++ CRLF ++ tail with [] => false | _ => true end)
    with true by (by destruct h).
  cbn [Z.eqb orb negb andb]. unfold find. rewrite find_from_hex by done.
  destruct (Z.eqb_spec (0 + len h) (-1)) as [E|_]; [unfold len in E; lia|].
  rewrite Z.add_0_l, slice_to_app, partition_head_hex by done.
  subst h. rewrite int_16_format_X.
  replace (slice_from (HttpChunk.format_X n ++ CRLF ++ tail)
             (len (HttpChunk.format_X n) + 2)) with tail.
  2: { rewrite app_assoc.
       replace (len (HttpChunk.format_X n) + 2) with (len (HttpChunk.format_X n ++ CRLF)).
       - by rewrite slice_from_app.
       - unfold len. rewrite length_app. cbn [length CRLF]. lia. }
  cbv zeta. cbn [HttpChunk._remain HttpChunk.set_remain].
  destruct (decide (n = 0%nat)) as [->|Hn].
  - reflexivity.
  - destruct (Z.eqb_spec (Z.of_nat n + 2) 2); [lia|done].
Qed.

Lemma next_header_chunks (writes : list bytes) :
  ∀ fuel self (log : list Scan.call),
    HttpChunk._remain self = 0 →
    HttpChunk.scannable self = Scan.Scannable_init →
    (length (chunks_of writes ++ last_chunk) ≤ fuel)%nat →
    let r := next_header fuel (chunks_of writes ++ last_chunk) self log in
    r.2 = Scan.Finished
    ∧ raw_bytes r.1.2
      = raw_bytes log ++ concat (map (λ d, d ++ CRLF) (before_empty writes)).
Proof.
  induction writes as [|d rest IH]; intros fuel self log Hr Hsc Hfuel; cbv zeta.
  - change (chunks_of [] ++ last_chunk) with (HttpChunk.format_X 0 ++ CRLF ++ CRLF).
    rewrite next_header_parse by done. cbv zeta. rewrite decide_True by done.
    split; [reflexivity|]. cbn [fst snd]. rewrite raw_bytes_app. reflexivity.
  - destruct d as [|c d'].
    + change (chunks_of ([] :: rest) ++ last_chunk)
        with (HttpChunk.format_X 0 ++ CRLF ++ (CRLF ++ chunks_of rest ++ last_chunk)).
      rewrite next_header_parse by done. cbv zeta. rewrite decide_True by done.
      split; [reflexivity|]. cbn [fst snd]. rewrite raw_bytes_app. reflexivity.
    + set (d := c :: d') in *. set (T := chunks_of rest ++ last_chunk) in *.
      assert (chunks_of (@cons bytes d rest) ++ last_chunk
              = HttpChunk.format_X (length d) ++ CRLF ++ ((d ++ CRLF) ++ T)) as Ewire.
      { unfold chunks_of, T. cbn [map concat]. by rewrite <-!app_assoc. }
      rewrite Ewire in Hfuel |- *. rewrite next_header_parse by done.
      cbv zeta. destruct (decide (length d = 0%nat)) as [E|_]; [done|].
      destruct fuel as [|fuel].
      { rewrite !length_app in Hfuel. cbn in Hfuel. lia. }
      assert (len (d ++ CRLF) = Z.of_nat (length d) + 2) as Elen.
      { unfold len. rewrite length_app. cbn [length CRLF]. lia. }
      assert (HttpChunk.pass_loop Scan.Callable_callout (S fuel) ((d ++ CRLF) ++ T)
                (HttpChunk.set_remain (Z.of_nat (length d) + 2) self) log
              = next_header fuel T
                  (HttpChunk.set_scannable Scan.Scannable_init
                     (HttpChunk.set_remain 0 self))
                  (log ++ [RAW_call (d ++ CRLF)])) as ->.
      { rewrite pass_loop_turn by done.
        cbn [HttpChunk._remain HttpChunk.set_remain HttpChunk.scannable
             HttpChunk.set_scannable].
        destruct (Z.eqb_spec (Z.of_nat (length d) + 2) 0) as [E|_]; [lia|].
        replace (Z.min (len ((d ++ CRLF) ++ T)) (Z.of_nat (length d) + 2))
          with (len (d ++ CRLF)).
        2: { rewrite <-Elen. unfold len. rewrite (length_app (d ++ CRLF)). lia. }
        replace (Z.of_nat (length d) + 2 - len (d ++ CRLF)) with 0 by lia.
        change (Z.min (2 - 0) 0) with 0.
        rewrite Z.sub_0_r, slice_to_app, slice_from_app, Hsc, scan_raw by done.
        reflexivity. }
      destruct (IH fuel
                  (HttpChunk.set_scannable Scan.Scannable_init
                     (HttpChunk.set_remain 0 self))
                  (log ++ [RAW_call (d ++ CRLF)])) as (Enh & Eraw);
        [done|done| |].
      { rewrite !length_app in Hfuel. unfold CRLF in Hfuel. cbn [length] in Hfuel. lia. }
      split; [exact Enh|].
      rewrite Eraw, raw_bytes_app, <-app_assoc.
      replace (raw_bytes [RAW_call (d ++ CRLF)]) with (d ++ CRLF)
        by (symmetry; apply app_nil_r).
      reflexivity.
Qed.

Lemma write_all_written (writes : list bytes) :
  ∀ self u,
    HttpChunk.upstream self = Some u →
    ∃ u', write_all writes self = (HttpChunk.set_upstream (Some u') self, inr tt)
          ∧ Upstream.wire u' = Upstream.wire u ++ chunks_of writes
          ∧ Upstream.flushed u' = Upstream.flushed u.
Proof.
  induction writes as [|d rest IH]; intros self u Hu.
  - exists u. split_and!; [|by rewrite app_nil_r|done].
    destruct self. cbn in Hu. by subst.
  - cbn [write_all]. unfold bind at 1.
    unfold HttpChunk.write, bind, HttpChunk.on_upstream. rewrite Hu.
    cbn [HttpChunk.upstream HttpChunk.set_upstream fst snd].
    edestruct (IH (HttpChunk.set_upstream
                     (Some (Upstream.write (d ++ CRLF)
                              (Upstream.write (HttpChunk.format_X (length d) ++ CRLF) u)))
                     (HttpChunk.set_upstream
                        (Some (Upstream.write (HttpChunk.format_X (length d) ++ CRLF) u))
                        self))) as (u' & Ew & Ewire & Efl); [reflexivity|].
    exists u'. split_and!; [by rewrite Ew| |done].
    rewrite Ewire. unfold Upstream.wire, chunks_of. cbn [Upstream.write Upstream.written map concat].
    rewrite !concat_app. cbn [concat]. by rewrite !app_nil_r, <-!app_assoc.
Qed.

Lemma chunk_writes_wire (writes : list bytes) :
  concat (chunk_writes writes) = chunks_of writes ++ last_chunk.
Proof.
  unfold chunk_writes.
  destruct (write_all_written writes (HttpChunk.open Upstream.fresh) Upstream.fresh)
    as (u' & Ew & Ewire & _); [reflexivity|].
  unfold bind at 1. rewrite Ew.
  unfold HttpChunk.write_flush, bind, HttpChunk.on_upstream.
  cbn [HttpChunk.upstream HttpChunk.set_upstream HttpChunk.open fst snd
       Upstream.write Upstream.write_flush Upstream.written].
  rewrite concat_app. cbn [concat]. rewrite app_nil_r.
  unfold Upstream.wire in Ewire. rewrite Ewire. reflexivity.
Qed.

(** X7.  Whatever is written.  Each [write()] of a string that is not
    empty goes out as one chunk, and [write_flush()] ends the stream;
    parsed back in one piece, every chunk comes out with the line end
    that closes it still attached.  A [write()] of the empty string
    goes out as the last-chunk marker, so the parser ends the stream
    there and passes on nothing written after it. *)
Theorem chunk_roundtrip_any_writes (writes : list bytes) :
  chunk_roundtrip true writes
  = (concat (map (λ d, d ++ CRLF) (before_empty writes)), Scan.Finished).
Proof.
  unfold chunk_roundtrip. cbv zeta. rewrite chunk_writes_wire.
  set (x := chunks_of writes ++ last_chunk).
  assert (x ≠ []) as Hx.
  { subst x. intros E. apply app_eq_nil in E as [_ E]. discriminate. }
  pose proof (next_header_chunks writes (length x) (HttpChunk.open Upstream.fresh) []
                eq_refl eq_refl (le_n _)) as H.
  cbv zeta in H. fold x in H.
  cbn [chunk_incoming].
  change (HttpChunk.incoming Scan.Callable_callout Scan.RAW x (HttpChunk.open Upstream.fresh) [])
    with (HttpChunk.pass_loop Scan.Callable_callout (S (length x)) x
            (HttpChunk.open Upstream.fresh) []).
  rewrite pass_loop_turn by done. cbn [HttpChunk._remain HttpChunk.open Z.eqb].
  destruct (next_header (length x) x _ []) as [[self' log'] e].
  cbn [fst snd] in H. destruct H as [-> ->]. reflexivity.
Qed.

(** *** The same stream parsed in the pieces it was written in *)

(** What [write()] of each string hands to the upstream: the header
    and the chunk, one call each. *)
Definition pieces_of (writes : list bytes) : list bytes :=
  concat (map (λ d, [HttpChunk.format_X (length d) ++ CRLF; d ++ CRLF]) writes).

Lemma write_all_pieces (writes : list bytes) :
  ∀ self u,
    HttpChunk.upstream self = Some u →
    ∃ u', write_all writes self = (HttpChunk.set_upstream (Some u') self, inr tt)
          ∧ Upstream.written u' = Upstream.written u ++ pieces_of writes.
Proof.
  induction writes as [|d rest IH]; intros self u Hu.
  - exists u. split; [|by rewrite app_nil_r].
    destruct self. cbn in Hu. by subst.
  - cbn [write_all]. unfold bind at 1.
    unfold HttpChunk.write, bind, HttpChunk.on_upstream. rewrite Hu.
    cbn [HttpChunk.upstream HttpChunk.set_upstream fst snd].
    edestruct (IH (HttpChunk.set_upstream
                     (Some (Upstream.write (d ++ CRLF)
                              (Upstream.write (HttpChunk.format_X (length d) ++ CRLF) u)))
                     (HttpChunk.set_upstream
                        (Some (Upstream.write (HttpChunk.format_X (length d) ++ CRLF) u))
                        self))) as (u' & Ew & Ewr); [reflexivity|].
    exists u'. split; [by rewrite Ew|].
    rewrite Ewr. unfold pieces_of. cbn [Upstream.write Upstream.written map concat].
    by rewrite <-!app_assoc.
Qed.

Lemma chunk_writes_pieces (writes : list bytes) :
  chunk_writes writes = pieces_of writes ++ [last_chunk].
Proof.
  unfold chunk_writes.
  destruct (write_all_pieces writes (HttpChunk.open Upstream.fresh) Upstream.fresh)
    as (u' & Ew & Ewr); [reflexivity|].
  unfold bind at 1. rewrite Ew.
  unfold HttpChunk.write_flush, bind, HttpChunk.on_upstream.
  cbn [HttpChunk.upstream HttpChunk.set_upstream HttpChunk.open fst snd
       Upstream.write Upstream.write_flush Upstream.written].
  by rewrite Ewr.
Qed.

(** Between two chunks: nothing remains of a chunk, nothing is
    buffered, and no header is pending. *)
Definition between_chunks (self : HttpChunk.ChunkedCoder) : Prop :=
  HttpChunk._remain self = 0
  ∧ HttpChunk.scannable self = Scan.Scannable_init
  ∧ (HttpChunk._pending self = None ∨ HttpChunk._pending self = Some []).

Lemma pass_downstream_plain data self (log : list Scan.call) :
  HttpChunk._pending self = None ∨ HttpChunk._pending self = Some [] →
  HttpChunk._pass_downstream Scan.Callable_callout data self log
  = HttpChunk.pass_loop Scan.Callable_callout (S (length data)) data self log.
Proof. intros [E|E]; unfold HttpChunk._pass_downstream; by rewrite E. Qed.

(** The header of a chunk arrives on its own. *)
Lemma header_piece (n : nat) self (log : list Scan.call) :
  between_chunks self →
  ∃ self' log',
    HttpChunk._pass_downstream Scan.Callable_callout
      (HttpChunk.format_X n ++ CRLF) self log = (self', log', Scan.Finished)
    ∧ HttpChunk._remain self' = Z.of_nat n + 2
    ∧ HttpChunk.scannable self' = Scan.Scannable_init
    ∧ (HttpChunk._pending self' = None ∨ HttpChunk._pending self' = Some [])
    ∧ raw_bytes log' = raw_bytes log.
Proof.
  intros (Hr & Hsc & Hp). rewrite pass_downstream_plain by done.
  destruct (format_X_spec n) as (Hne & _).
  rewrite pass_loop_turn by (by destruct (HttpChunk.format_X n)).
  rewrite Hr. cbn [Z.eqb].
  replace (HttpChunk.format_X n ++ CRLF) with (HttpChunk.format_X n ++ CRLF ++ [])
    by (by rewrite app_nil_r).
  rewrite next_header_parse by done. cbv zeta.
  destruct (decide (n = 0%nat)) as [->|Hn].
  - eexists _, _. split; [reflexivity|]. cbn. split_and!; [done|done|by right|].
    rewrite raw_bytes_app. apply app_nil_r.
  - eexists _, _. split; [by destruct (length _)|]. cbn. by split_and!.
Qed.

(** The chunk and its line end arrive together. *)
Lemma chunk_piece (d : bytes) self (log : list Scan.call) :
  HttpChunk._remain self = len d + 2 →
  HttpChunk.scannable self = Scan.Scannable_init →
  HttpChunk._pending self = None ∨ HttpChunk._pending self = Some [] →
  ∃ self',
    HttpChunk._pass_downstream Scan.Callable_callout (d ++ CRLF) self log
    = (self', log ++ [RAW_call (d ++ CRLF)], Scan.Finished)
    ∧ between_chunks self'.
Proof.
  intros Hr Hsc Hp. rewrite pass_downstream_plain by done.
  rewrite pass_loop_turn by (by destruct d).
  assert (len (d ++ CRLF) = len d + 2) as Elen.
  { unfold len. rewrite length_app. cbn [length CRLF]. lia. }
  rewrite Hr. destruct (Z.eqb_spec (len d + 2) 0) as [E|_]; [unfold len in E; lia|].
  rewrite Elen, Z.min_id.
  cbn [HttpChunk._remain HttpChunk.set_remain HttpChunk.scannable].
  replace (len d + 2 - (len d + 2)) with 0 by lia.
  change (Z.min (2 - 0) 0) with 0. rewrite Z.sub_0_r, <-Elen.
  replace (slice_to (d ++ CRLF) (len (d ++ CRLF))) with (d ++ CRLF)
    by (rewrite <-(app_nil_r (d ++ CRLF)) at 2; by rewrite slice_to_app).
  replace (slice_from (d ++ CRLF) (len (d ++ CRLF))) with (@nil ascii)
    by (rewrite <-(app_nil_r (d ++ CRLF)) at 1; by rewrite slice_from_app).
  rewrite Hsc, scan_raw by (by destruct d).
  unfold next_header. cbn [HttpChunk._remain HttpChunk.set_remain HttpChunk.set_scannable
                           Z.eqb orb andb negb].
  exists (HttpChunk.set_scannable Scan.Scannable_init (HttpChunk.set_remain 0 self)).
  split; [by destruct (length (d ++ CRLF))|]. split_and!; [done..|].
  destruct Hp as [Hp|Hp]; [left|right]; exact Hp.
Qed.

Lemma chunk_incoming_pieces (writes : list bytes) :
  ∀ self (log : list Scan.call) rest,
    between_chunks self →
    ∃ self' log',
      chunk_incoming (pieces_of writes ++ rest) self log
      = chunk_incoming rest self' log'
      ∧ between_chunks self'
      ∧ raw_bytes log' = raw_bytes log ++ concat (map (λ d, d ++ CRLF) writes).
Proof.
  induction writes as [|d writes IH]; intros self log rest Hself.
  { exists self, log. split_and!; [done..|]. by rewrite app_nil_r. }
  change (pieces_of (d :: writes) ++ rest)
    with ((HttpChunk.format_X (length d) ++ CRLF) :: (d ++ CRLF)
            :: (pieces_of writes ++ rest)).
  destruct (header_piece (length d) self log Hself)
    as (self1 & log1 & E1 & Hr1 & Hsc1 & Hp1 & Hraw1).
  destruct (chunk_piece d self1 log1 Hr1 Hsc1 Hp1) as (self2 & E2 & Hself2).
  destruct (IH self2 (log1 ++ [RAW_call (d ++ CRLF)]) rest Hself2)
    as (self' & log' & E3 & Hself' & Hraw').
  exists self', log'. split_and!; [|done|].
  - cbn [chunk_incoming].
    change (HttpChunk.incoming Scan.Callable_callout Scan.RAW ?x ?s ?l)
      with (HttpChunk._pass_downstream Scan.Callable_callout x s l).
    rewrite E1.
    change (HttpChunk.incoming Scan.Callable_callout Scan.RAW ?x ?s ?l)
      with (HttpChunk._pass_downstream Scan.Callable_callout x s l).
    rewrite E2. exact E3.
  - rewrite Hraw', raw_bytes_app, Hraw1. cbn [map concat].
    replace (raw_bytes [RAW_call (d ++ CRLF)]) with (d ++ CRLF)
      by (symmetry; apply app_nil_r).
    by rewrite <-!app_assoc.
Qed.

(** X8.  Parsed in the pieces the upstream was handed, every chunk comes
    out with its line end, the empty ones too: a [write()] of the empty
    string makes the parser call out [END], and the parser goes on with
    the pieces that follow.  So what comes out of a stream with an empty
    write in it depends on how the bytes arrive: in one piece, nothing
    after the empty write does. *)
Theorem chunk_roundtrip_in_pieces (writes : list bytes) :
  chunk_roundtrip false writes
  = (concat (map (λ d, d ++ CRLF) writes), Scan.Finished).
Proof.
  unfold chunk_roundtrip. cbv zeta. rewrite chunk_writes_pieces.
  destruct (chunk_incoming_pieces writes (HttpChunk.open Upstream.fresh) [] [last_chunk])
    as (self' & log' & E & Hself' & Hraw).
  { split_and!; [done..|by left]. }
  rewrite E. clear E. cbn [chunk_incoming].
  change (HttpChunk.incoming Scan.Callable_callout Scan.RAW ?x ?s ?l)
    with (HttpChunk._pass_downstream Scan.Callable_callout x s l).
  destruct Hself' as (Hr & Hsc & Hp).
  rewrite pass_downstream_plain by done.
  rewrite pass_loop_turn by done. rewrite Hr. cbn [Z.eqb].
  change last_chunk with (HttpChunk.format_X 0 ++ CRLF ++ CRLF).
  rewrite next_header_parse by done. cbv zeta. rewrite decide_True by done.
  rewrite raw_bytes_app, Hraw. cbn. by rewrite !app_nil_r.
Qed.

(** In one piece the stream ends at the empty write; in the pieces
    written it does not. *)
Example empty_write_ends_the_stream_early :
  chunk_roundtrip true [bs "ab"; []; bs "cd"] = (bs "ab" ++ CRLF, Scan.Finished)
  ∧ chunk_roundtrip false [bs "ab"; []; bs "cd"]
    = (bs "ab" ++ CRLF ++ CRLF ++ bs "cd" ++ CRLF, Scan.Finished).
Proof. split; reflexivity. Qed.

(** ** The gzip filter, incoming side (asyn/zfilter.py) *)

Section GunzipFacts.

Variables Compress Decompress : Type.
Variable decompressobj : Z → Decompress.
Variable decompress : bytes → Decompress → Decompress * (exn + bytes).
Variable flush : Decompress → Decompress * (exn + bytes).

Let coder := ZFilter.GZipCoder Compress Decompress.
Let incoming :=
  ZFilter.incoming Compress Decompress decompressobj decompress flush
    Scan.Callable_callout.

(** The pieces arrive as raw data, one [incoming] call each, and then
    the end of the input. *)
Fixpoint gunzip (pieces : list bytes) : M (coder * list Scan.call) pyval :=
  match pieces with
  | [] => incoming (Core.Context_of "END") []
  | data :: rest => do _ <~ incoming Scan.RAW data; gunzip rest
  end.

(** What zlib makes of the pieces, handed to one decompressor in turn. *)
Fixpoint inflate (pieces : list bytes) (z : Decompress)
    : Decompress * (exn + list bytes) :=
  match pieces with
  | [] => (z, inr [])
  | data :: rest =>
      match decompress data z with
      | (z, inl e) => (z, inl e)
      | (z, inr out) =>
          match inflate rest z with
          | (z, inl e) => (z, inl e)
          | (z, inr outs) => (z, inr (out :: outs))
          end
      end
  end.

Definition flushed_call (rest : bytes) : list Scan.call :=
  match rest with [] => [] | _ => [RAW_call rest] end.

Lemma gunzip_running (pieces : list bytes) :
  ∀ (self : coder) (log : list Scan.call) z0 z outs z' rest,
    ZFilter._zr _ _ self = Some z0 →
    inflate pieces z0 = (z, inr outs) →
    flush z = (z', inr rest) →
    gunzip pieces (self, log)
    = ((ZFilter.set_zr _ _ z' self,
        log ++ map RAW_call outs ++ flushed_call rest ++ [Scan.mkCall (Core.ACtx (Core.Context_of "END")) [] []]), inr PNone).
Proof.
  induction pieces as [|data ps IH]; intros self log z0 z outs z' rest Hz Hin Hfl.
  - cbn in Hin. simplify_eq. cbn [gunzip]. unfold incoming, ZFilter.incoming.
    cbn [Core.Context_of Core.state String.eqb Ascii.eqb Bool.eqb]. rewrite Hz, Hfl.
    destruct rest; cbn; by rewrite ?app_nil_r, <-?app_assoc.
  - cbn [inflate] in Hin. destruct (decompress data z0) as [z1 [e|out]] eqn:Ed; [done|].
    destruct (inflate ps z1) as [z2 [e|outs']] eqn:Ei; [done|]. simplify_eq.
    cbn [gunzip]. unfold bind at 1. unfold incoming at 1, ZFilter.incoming.
    cbn [Scan.RAW Core.Context_of Core.state String.eqb Ascii.eqb Bool.eqb].
    rewrite Hz, Ed. cbn [Scan.Callable_callout].
    change (Scan.Callable_callout _ log)
      with (log ++ [RAW_call out], @inr exn pyval PNone).
    cbv iota beta.
    etrans; [exact (IH (ZFilter.set_zr _ _ z1 self) (log ++ [RAW_call out])
                       z1 z outs' z' rest eq_refl Ei Hfl)|].
    cbn [map]. by rewrite <-!app_assoc.
Qed.

(** X9.  The filter as a pipe around zlib.  Raw pieces arrive and then the
    end of the input, and zlib accepts them.  With at least one piece,
    every output of [decompress], the empty ones too, is called out as
    raw data in the order of the pieces, then what [flush] returns when
    that is not empty, then the end: the filter adds and drops nothing.
    With no piece at all there is no decompressor yet, and
    [self._zr.flush()] raises AttributeError: nothing is called out, the
    end least of all. *)
Theorem gunzip_calls_out_what_zlib_returns
    (source : Upstream.t) (level : Z) (pieces : list bytes)
    (z z' : Decompress) (outs : list bytes) (rest : bytes) :
  inflate pieces (decompressobj (16 + ZFilter.MAX_WBITS)) = (z, inr outs) →
  flush z = (z', inr rest) →
  gunzip pieces (ZFilter.open _ _ source level, [])
  = match pieces with
    | [] => ((ZFilter.open _ _ source level, []), inl AttributeError)
    | _ =>
        ((ZFilter.set_zr _ _ z' (ZFilter.open _ _ source level),
          map RAW_call outs ++ flushed_call rest
            ++ [Scan.mkCall (Core.ACtx (Core.Context_of "END")) [] []]),
         inr PNone)
    end.
Proof.
  intros Hin Hfl. destruct pieces as [|data pieces]; [reflexivity|].
  cbn [inflate] in Hin.
  destruct (decompress data _) as [z1 [e|out]] eqn:Ed; [done|].
  destruct (inflate pieces z1) as [z2 [e|outs']] eqn:Ei; [done|]. simplify_eq.
  cbn [gunzip]. unfold bind at 1. unfold incoming at 1, ZFilter.incoming.
  cbn [Scan.RAW Core.Context_of Core.state String.eqb Ascii.eqb Bool.eqb
       ZFilter.open ZFilter._zr].
  rewrite Ed.
  change (Scan.Callable_callout _ [])
    with ([RAW_call out], @inr exn pyval PNone).
  cbv iota beta.
  exact (gunzip_running pieces
           (ZFilter.set_zr _ _ z1 (ZFilter.open _ _ source level))
           [RAW_call out] z1 z outs' z' rest eq_refl Ei Hfl).
Qed.

End GunzipFacts.

(** A stand-in for zlib that stores: the decompressor hands back what
    it is given, and has nothing left at the end. *)
Lemma gunzip_calls_out_what_zlib_returns_witness :
  gunzip unit unit (λ _, tt) (λ data z, (z, inr data)) (λ z, (z, inr []))
    [bs "ab"; []; bs "c"] (ZFilter.open _ _ Upstream.fresh 6, [])
  = ((ZFilter.set_zr _ _ tt (ZFilter.open _ _ Upstream.fresh 6),
      map RAW_call [bs "ab"; []; bs "c"] ++ flushed_call []
        ++ [Scan.mkCall (Core.ACtx (Core.Context_of "END")) [] []]),
     inr PNone).
Proof.
  exact (gunzip_calls_out_what_zlib_returns unit unit (λ _, tt)
           (λ data z, (z, inr data)) (λ z, (z, inr []))
           Upstream.fresh 6 [bs "ab"; []; bs "c"] tt tt [bs "ab"; []; bs "c"] []
           eq_refl eq_refl).
Defined.

(** ** Timers: what one pass of the dispatch loop calls out (asyn/controller.py) *)

Section DispatchFacts.

Variable clock : nat → Controller.time.
Variable handler : Core.callee → Controller.Ctx → list Controller.action.

(** A method that makes no timer callout. *)
Definition calls_nothing {A} (m : M Controller.t A) : Prop :=
  ∀ c, Controller.fired (m c).1 = Controller.fired c.

Lemma bind_calls_nothing {A B} (m : M Controller.t A) (k : A → M Controller.t B) :
  calls_nothing m → (∀ a, calls_nothing (k a)) → calls_nothing (bind m k).
Proof.
  intros Hm Hk c. unfold bind. specialize (Hm c).
  destruct (m c) as [c' [e|a]]; [done|]. by rewrite Hk.
Qed.

Lemma ret_calls_nothing {A} (a : A) : calls_nothing (ret a).
Proof. done. Qed.

Lemma pop_calls_nothing : calls_nothing Controller.pop.
Proof.
  intros c. unfold Controller.pop. by destruct (HeapQ.heappop _ _) as [[? ?]|].
Qed.

Lemma schedule_calls_nothing entity at_ after :
  calls_nothing (Controller.schedule clock entity at_ after).
Proof.
  unfold Controller.schedule.
  apply bind_calls_nothing; [done|]. intros now. apply bind_calls_nothing.
  { destruct at_; [done|]. destruct after; [|done]. by destruct (_ >=? 0). }
  intros when_. apply bind_calls_nothing; [by intros c; destruct entity|].
  intros id. by apply bind_calls_nothing.
Qed.

Lemma perform_all_calls_nothing ctx actions :
  calls_nothing (Controller.perform_all clock ctx actions).
Proof.
  induction actions as [|a rest IH]; [done|].
  cbn [Controller.perform_all]. apply bind_calls_nothing; [|by intros].
  destruct a; cbn [Controller.perform].
  - unfold Controller.reschedule. destruct (Controller.nonzero at_).
    + apply bind_calls_nothing; [apply schedule_calls_nothing|done].
    + destruct (Controller.nonzero after); [|done].
      apply bind_calls_nothing; [apply schedule_calls_nothing|done].
  - apply bind_calls_nothing; [apply schedule_calls_nothing|done].
  - intros c. cbn. unfold Controller.cancel. by destruct (_ !! _).
  - done.
Qed.

Lemma call_callbacks_calls_nothing latched ctx :
  calls_nothing (Controller.call_callbacks clock handler latched ctx).
Proof.
  induction latched as [|cb rest IH]; [done|].
  cbn [Controller.call_callbacks]. apply bind_calls_nothing; [|by intros].
  apply perform_all_calls_nothing.
Qed.

Lemma timer_callout_fired ctx c :
  Controller.fired (Controller.timer_callout clock handler ctx c).1
  = Controller.fired c ++ [ctx].
Proof. unfold Controller.timer_callout. by rewrite call_callbacks_calls_nothing. Qed.

(** A callout made at or after the time its timer stood at. *)
Definition due (x : Controller.Ctx) : Prop := Controller.ctx_when x ≤ Controller.now x.

Lemma dispatch_loop_fired backstop c :
  ∃ new,
    Controller.fired (Controller._dispatch_loop clock handler backstop c).1
    = Controller.fired c ++ new
    ∧ (length new ≤ backstop)%nat ∧ Forall due new.
Proof.
  revert c. induction backstop as [|n IH]; intros c; cbn [Controller._dispatch_loop].
  { exists []. rewrite app_nil_r.
    by destruct (Controller.running c), (Controller._schedq c). }
  assert (∃ new, Controller.fired c = Controller.fired c ++ new
                 ∧ (length new ≤ S n)%nat ∧ Forall due new) as Hnone.
  { exists []. rewrite app_nil_r. split_and!; [done|cbn; lia|done]. }
  destruct (Controller.running c); [|done].
  destruct (Controller._schedq c) as [|top q] eqn:Eq; [done|].
  destruct (Controller.when_of c top) as [w|] eqn:Ew.
  - unfold bind at 1. cbn [Controller.time_time].
    set (c1 := Controller.mk _ _ _ _ (S _) _).
    destruct (Z.gtb_spec w (clock (Controller.ticks c))) as [Hgt|Hle]; [done|].
    unfold bind at 1. pose proof (pop_calls_nothing c1) as Hp.
    destruct (Controller.pop c1) as [c2 [e|[]]]; cbn [fst] in Hp.
    { exists []. rewrite app_nil_r. split_and!; [exact Hp|cbn; lia|done]. }
    unfold bind at 1.
    pose proof (timer_callout_fired
                  (Controller.mkCtx top w (clock (Controller.ticks c))) c2) as Hcall.
    destruct (Controller.timer_callout clock handler _ c2) as [c3 [e|[]]];
      cbn [fst] in Hcall.
    + exists [Controller.mkCtx top w (clock (Controller.ticks c))].
      cbn [fst]. rewrite Hcall, Hp. split_and!; [done|cbn; lia|].
      by repeat constructor.
    + destruct (IH c3) as (new & Hf & Hlen & Hdue).
      exists (Controller.mkCtx top w (clock (Controller.ticks c)) :: new).
      rewrite Hf, Hcall, Hp, <-app_assoc. split_and!; [done|cbn; lia|].
      by constructor.
  - unfold bind at 1. pose proof (pop_calls_nothing c) as Hp.
    destruct (Controller.pop c) as [c2 [e|[]]]; cbn [fst] in Hp.
    { exists []. rewrite app_nil_r. split_and!; [exact Hp|cbn; lia|done]. }
    destruct (IH c2) as (new & Hf & Hlen & Hdue). exists new.
    rewrite Hf, Hp. split_and!; [done|lia|done].
Qed.

End DispatchFacts.

(** X10.  One pass of [_dispatch], whatever the clock reads and whatever the
    callables do: the callouts made before stand, at most [TIMERLIMIT]
    are added, and each of them is made at or after the time its timer
    stood at. *)
Theorem dispatch_calls_out_due_timers_only
    (clock : nat → Controller.time)
    (handler : Core.callee → Controller.Ctx → list Controller.action)
    (c : Controller.t) :
  ∃ new,
    Controller.fired (Controller._dispatch clock handler c).1
    = Controller.fired c ++ new
    ∧ (length new ≤ Controller.TIMERLIMIT)%nat
    ∧ Forall due new.
Proof. apply dispatch_loop_fired. Qed.

(** *** A cancelled timer *)

(** Timer [T] exists and is cancelled. *)
Definition cancelled (T : nat) (c : Controller.t) : Prop :=
  (T < Controller.allocated c)%nat ∧ Controller.when_of c T = None.

Lemma cancelled_spares T c c' :
  cancelled T c → spares T c c' → cancelled T c' ∧ firings T c' = firings T c.
Proof.
  intros [Ha Hw] (Ha' & Hf & Hs). unfold cancelled, firings, Controller.when_of in *.
  rewrite Hf. split_and!; [lia| |done].
  destruct Hs as [->|(s & _ & ->)]; done.
Qed.

Lemma timer_callout_cancelled clock handler T top w now c :
  Controller.when_of c top = Some w →
  cancelled T c →
  let c' := (Controller.timer_callout clock handler (Controller.mkCtx top w now) c).1 in
  cancelled T c' ∧ firings T c' = firings T c.
Proof.
  intros Hw Hc. assert (top ≠ T) as Hne.
  { intros ->. destruct Hc as [_ Hc]. congruence. }
  unfold Controller.timer_callout. cbn [Controller.sched].
  set (c1 := Controller.mk _ _ _ _ _ (Controller.fired c ++ _)).
  assert (cancelled T c1) as Hc1 by exact Hc.
  assert (firings T c1 = firings T c) as Hf1.
  { unfold c1. rewrite firings_app. cbn [Controller.sched].
    rewrite decide_False by done. apply app_nil_r. }
  cbv zeta. rewrite <-Hf1. apply cancelled_spares; [done|].
  apply (call_callbacks_sparing clock handler T); [done|]. by destruct Hc1.
Qed.

(** [T] is cancelled as before, with the callouts it had. *)
Definition still_cancelled (T : nat) (c c' : Controller.t) : Prop :=
  cancelled T c' ∧ firings T c' = firings T c.

Lemma still_cancelled_trans T c1 c2 c3 :
  still_cancelled T c1 c2 → still_cancelled T c2 c3 → still_cancelled T c1 c3.
Proof. intros [? ?] [? ?]. split; [done|congruence]. Qed.

Lemma dispatch_loop_cancelled clock handler T backstop c :
  cancelled T c →
  still_cancelled T c (Controller._dispatch_loop clock handler backstop c).1.
Proof.
  revert c. induction backstop as [|n IH]; intros c Hc;
    cbn [Controller._dispatch_loop].
  { by destruct (Controller.running c), (Controller._schedq c). }
  destruct (Controller.running c); [|done].
  destruct (Controller._schedq c) as [|top q] eqn:Eq; [done|].
  destruct (Controller.when_of c top) as [w|] eqn:Ew.
  - unfold bind at 1. cbn [Controller.time_time].
    set (c1 := Controller.mk _ _ _ _ (S _) _).
    assert (still_cancelled T c c1) as Hc1 by done.
    assert (Controller.when_of c1 top = Some w) as Ew1 by exact Ew.
    destruct (w >? clock (Controller.ticks c)); [done|].
    unfold bind at 1.
    assert (still_cancelled T c (Controller.pop c1).1) as Hc2.
    { eapply still_cancelled_trans; [exact Hc1|].
      apply cancelled_spares; [by destruct Hc1|].
      apply pop_sparing. by destruct Hc. }
    assert (Controller.when_of (Controller.pop c1).1 top = Some w) as Ew2.
    { unfold Controller.pop. by destruct (HeapQ.heappop _ _) as [[? ?]|]. }
    destruct (Controller.pop c1) as [c2 [e|[]]]; cbn [fst] in *; [done|].
    unfold bind at 1.
    pose proof (timer_callout_cancelled clock handler T top w
                  (clock (Controller.ticks c)) c2 Ew2 (proj1 Hc2)) as Hc3.
    cbv zeta in Hc3. fold (still_cancelled T c2) in Hc3.
    pose proof (still_cancelled_trans _ _ _ _ Hc2 Hc3) as Hc3'.
    destruct (Controller.timer_callout clock handler _ c2) as [c3 [e|[]]];
      cbn [fst] in *; [done|].
    eapply still_cancelled_trans; [exact Hc3'|]. apply IH. by destruct Hc3'.
  - unfold bind at 1.
    assert (still_cancelled T c (Controller.pop c).1) as Hc2.
    { apply cancelled_spares; [done|]. apply pop_sparing. by destruct Hc. }
    destruct (Controller.pop c) as [c2 [e|[]]]; cbn [fst] in *; [done|].
    eapply still_cancelled_trans; [exact Hc2|]. apply IH. by destruct Hc2.
Qed.

Lemma dispatch_cancelled clock handler T c :
  cancelled T c → still_cancelled T c (Controller._dispatch clock handler c).1.
Proof. apply dispatch_loop_cancelled. Qed.

(** X11.  [cancel()] holds: a timer that exists and is cancelled gets no
    callout and stays cancelled over any number of passes of the
    dispatch loop, whatever the clock reads, whatever else is scheduled
    and whatever the callables do of rescheduling their own timer,
    scheduling new ones, cancelling and stopping the loop. *)
Theorem cancelled_timer_gets_no_callout
    (clock : nat → Controller.time)
    (handler : Core.callee → Controller.Ctx → list Controller.action)
    (T n : nat) (c : Controller.t) :
  (T < Controller.allocated c)%nat →
  Controller.when_of c T = None →
  let c' := (passes clock handler n c).1 in
  firings T c' = firings T c ∧ Controller.when_of c' T = None.
Proof.
  intros Ha Hw. cbv zeta.
  assert (cancelled T c) as Hc by done. clear Ha Hw.
  enough (still_cancelled T c (passes clock handler n c).1) as [[_ ?] ?] by done.
  revert c Hc. induction n as [|n IH]; intros c Hc; [by split|].
  change (passes clock handler (S n) c)
    with (bind (Controller._dispatch clock handler)
               (λ _, passes clock handler n) c).
  unfold bind.
  pose proof (dispatch_cancelled clock handler T c Hc) as Hc1.
  destruct (Controller._dispatch clock handler c) as [c1 [e|u]].
  - exact Hc1.
  - eapply still_cancelled_trans; [exact Hc1|]. apply IH. exact (proj1 Hc1).
Qed.

Lemma cancelled_timer_gets_no_callout_witness :
  let c := Controller.set_running true (five_calls (λ _, 0) Controller.init).1 in
  let c' := (passes (λ _, 10) quiet 3 c).1 in
  firings 1 c' = firings 1 c ∧ Controller.when_of c' 1 = None.
Proof.
  apply (cancelled_timer_gets_no_callout (λ _, 10) quiet 1 3
           (Controller.set_running true (five_calls (λ _, 0) Controller.init).1)).
  - vm_compute. lia.
  - reflexivity.
Defined.

(** ** The timer queue as a heap (asyn/controller.py, with [heapq]) *)

Section HeapFacts.

Context {A : Type}.
Variable cmp_lt : A → A → bool.

(** [x <= y] as [heapq] can tell: not [y < x]. *)
Definition heap_le (x y : A) : Prop := cmp_lt y x = false.

Hypothesis le_total : ∀ x y, heap_le x y ∨ heap_le y x.
Hypothesis le_trans : ∀ x y z, heap_le x y → heap_le y z → heap_le x z.

Definition parent (j : nat) : nat := ((j - 1) / 2)%nat.

Lemma parent_spec (j : nat) :
  (0 < j)%nat → j = (2 * parent j + 1)%nat ∨ j = (2 * parent j + 2)%nat.
Proof.
  intros Hj. unfold parent. pose proof (Nat.div_mod_eq (j - 1) 2) as E.
  pose proof (Nat.mod_upper_bound (j - 1) 2). lia.
Qed.

Lemma parent_lt (j : nat) : (0 < j)%nat → (parent j < j)%nat.
Proof. intros Hj. destruct (parent_spec j Hj); lia. Qed.

(** The edge from the parent of [j] to [j] is in order. *)
Definition edge_ok (h : list A) (j : nat) : Prop :=
  ∀ x y, h !! parent j = Some x → h !! j = Some y → heap_le x y.

(** The heap invariant of [heapq]. *)
Definition heap_ok (h : list A) : Prop := ∀ j, (0 < j)%nat → edge_ok h j.

Lemma lt_le x y : cmp_lt x y = true → heap_le x y.
Proof.
  intros Hlt. destruct (le_total x y) as [H|H]; [done|].
  unfold heap_le in H. congruence.
Qed.

(** The loop of [_siftdown] with [x] in hand and the hole at [pos]:
    every edge but the one into the hole is in order once [x] is put
    there, and the parent of the hole is below the hole's children. *)
Definition sifting (h : list A) (pos : nat) (x : A) : Prop :=
  (pos < length h)%nat
  ∧ (∀ j, (0 < j)%nat → j ≠ pos → edge_ok (<[pos:=x]> h) j)
  ∧ (∀ j g y, (0 < pos)%nat → (0 < j)%nat → parent j = pos →
       h !! parent pos = Some g → h !! j = Some y → heap_le g y).

Lemma siftdown_loop_ok fuel h pos x :
  (pos < fuel)%nat → sifting h pos x →
  heap_ok (HeapQ._siftdown_loop cmp_lt fuel h 0 pos x).
Proof.
  revert h pos. induction fuel as [|fuel IH]; intros h pos Hfuel (Hpos & Hedges & Hgrand);
    [lia|].
  cbn [HeapQ._siftdown_loop].
  assert (pos = 0%nat → heap_ok (<[pos:=x]> h)) as Hroot.
  { intros -> j Hj. apply Hedges; lia. }
  destruct (Nat.ltb_spec 0 pos) as [Hgt|Hle]; [|apply Hroot; lia].
  fold (parent pos).
  assert (parent pos < pos)%nat as Hpar by (by apply parent_lt).
  destruct (h !! parent pos) as [p|] eqn:Hp.
  2:{ apply lookup_ge_None in Hp. lia. }
  destruct (cmp_lt x p) eqn:Hlt.
  - apply IH; [lia|]. split_and!.
    + rewrite length_insert. lia.
    + intros j Hj Hne a b Ha Hb.
      destruct (decide (j = pos)) as [->|Hjpos].
      * rewrite list_lookup_insert_eq in Ha by (rewrite length_insert; lia).
        rewrite list_lookup_insert_ne, list_lookup_insert_eq in Hb by lia.
        simplify_eq. by apply lt_le.
      * rewrite list_lookup_insert_ne, list_lookup_insert_ne in Hb by done.
        destruct (decide (parent j = parent pos)) as [Epar|Npar].
        -- rewrite Epar, list_lookup_insert_eq in Ha by (rewrite length_insert; lia).
           simplify_eq. apply (le_trans _ p); [by apply lt_le|].
           apply (Hedges j Hj Hjpos); [|by rewrite list_lookup_insert_ne].
           rewrite Epar, list_lookup_insert_ne by lia. done.
        -- rewrite list_lookup_insert_ne in Ha by done.
           destruct (decide (parent j = pos)) as [Epos|Npos].
           ++ rewrite Epos, list_lookup_insert_eq in Ha by lia. simplify_eq.
              by apply (Hgrand j a b).
           ++ rewrite list_lookup_insert_ne in Ha by done.
              apply (Hedges j Hj Hjpos); by rewrite list_lookup_insert_ne.
    + intros j g y Hgt' Hj Epar Hg Hy.
      pose proof (parent_lt (parent pos) Hgt') as Hpp.
      rewrite list_lookup_insert_ne in Hg by lia.
      assert (heap_le g p) as Hgp.
      { apply (Hedges (parent pos)); [done|lia| |].
        - rewrite list_lookup_insert_ne by lia. done.
        - rewrite list_lookup_insert_ne by lia. done. }
      destruct (decide (j = pos)) as [->|Hjpos].
      * rewrite list_lookup_insert_eq in Hy by lia. by simplify_eq.
      * rewrite list_lookup_insert_ne in Hy by done.
        apply (le_trans _ p); [done|].
        apply (Hedges j Hj Hjpos); [|by rewrite list_lookup_insert_ne].
        rewrite Epar, list_lookup_insert_ne by lia. done.
  - intros j Hj. destruct (decide (j = pos)) as [->|Hne]; [|by apply Hedges].
    intros a b Ha Hb. rewrite list_lookup_insert_ne in Ha by lia.
    rewrite list_lookup_insert_eq in Hb by lia. simplify_eq. exact Hlt.
Qed.

Lemma elem_of_insert_inv (l : list A) (i : nat) (x y : A) :
  y ∈ <[i:=x]> l → y = x ∨ y ∈ l.
Proof.
  intros Hy. apply list_elem_of_lookup in Hy as [k Hk].
  apply list_lookup_insert_Some in Hk as [(-> & -> & _)|[_ Hk]]; [by left|].
  right. by eapply list_elem_of_lookup_2.
Qed.

Lemma siftdown_loop_elems fuel h pos x y :
  y ∈ HeapQ._siftdown_loop cmp_lt fuel h 0 pos x → y = x ∨ y ∈ h.
Proof.
  revert h pos. induction fuel as [|fuel IH]; intros h pos; cbn [HeapQ._siftdown_loop].
  { apply elem_of_insert_inv. }
  destruct (0 <? pos)%nat; [|apply elem_of_insert_inv].
  destruct (h !! _) as [p|] eqn:Hp; [|apply elem_of_insert_inv].
  destruct (cmp_lt x p); [|apply elem_of_insert_inv].
  intros Hy. apply IH in Hy as [->|Hy]; [by left|].
  apply elem_of_insert_inv in Hy as [->|Hy]; [|by right].
  right. by eapply list_elem_of_lookup_2.
Qed.

(** [heappush] keeps the heap invariant and adds the item, nothing
    else. *)
Lemma heappush_ok (heap : list A) (item : A) :
  heap_ok heap → heap_ok (HeapQ.heappush cmp_lt heap item).
Proof.
  intros Hheap. unfold HeapQ.heappush, HeapQ._siftdown.
  rewrite length_app, Nat.add_sub. cbn [length].
  rewrite lookup_app_r, Nat.sub_diag by lia. cbn [lookup list_lookup].
  apply siftdown_loop_ok; [lia|]. split_and!.
  - rewrite length_app. cbn. lia.
  - intros j Hj Hne a b Ha Hb.
    assert (<[length heap:=item]> (heap ++ [item]) = heap ++ [item]) as E.
    { apply list_insert_id. rewrite lookup_app_r, Nat.sub_diag by lia. done. }
    rewrite E in Ha, Hb.
    assert (j < length heap)%nat as Hlt.
    { apply lookup_lt_Some in Hb. rewrite length_app in Hb. cbn in Hb. lia. }
    pose proof (parent_lt j Hj).
    rewrite lookup_app_l in Ha, Hb by lia. by apply (Hheap j Hj).
  - intros j g y Hpos Hj Epar Hg Hy. apply lookup_lt_Some in Hy.
    rewrite length_app in Hy. cbn in Hy. destruct (parent_spec j Hj); lia.
Qed.

Lemma heappush_elems (heap : list A) (item y : A) :
  y ∈ HeapQ.heappush cmp_lt heap item → y = item ∨ y ∈ heap.
Proof.
  unfold HeapQ.heappush, HeapQ._siftdown.
  rewrite length_app, Nat.add_sub. cbn [length].
  rewrite lookup_app_r, Nat.sub_diag by lia. cbn [lookup list_lookup].
  intros Hy. apply siftdown_loop_elems in Hy as [->|Hy]; [by left|].
  apply elem_of_app in Hy as [Hy|Hy]; [by right|].
  left. by apply list_elem_of_singleton in Hy.
Qed.

(** The root of a heap is below every element. *)
Lemma heap_root_least (h : list A) (x : A) :
  heap_ok h → h !! 0%nat = Some x → ∀ j y, h !! j = Some y → heap_le x y.
Proof.
  intros Hheap Hx j. induction (lt_wf j) as [j _ IH]. intros y Hy.
  destruct j as [|j].
  { simplify_eq. match goal with |- heap_le ?a ?a => by destruct (le_total a a) end. }
  pose proof (parent_lt (S j) (Nat.lt_0_succ _)) as Hlt.
  destruct (h !! parent (S j)) as [p|] eqn:Hp.
  2:{ apply lookup_ge_None in Hp. apply lookup_lt_Some in Hy. lia. }
  apply (le_trans _ p); [by apply (IH (parent (S j)))|].
  by apply (Hheap (S j) (Nat.lt_0_succ _)).
Qed.

(** The loop of [_siftup] with the hole at [pos]: the edges that do
    not touch the hole are in order, and the parent of the hole is below
    the hole's children. *)
Definition bubbling (h : list A) (pos : nat) : Prop :=
  (pos < length h)%nat
  ∧ (∀ j, (0 < j)%nat → j ≠ pos → parent j ≠ pos → edge_ok h j)
  ∧ (∀ j g y, (0 < pos)%nat → (0 < j)%nat → parent j = pos →
       h !! parent pos = Some g → h !! j = Some y → heap_le g y).

Lemma siftup_loop_ok fuel h pos :
  (length h ≤ pos + fuel)%nat → bubbling h pos →
  let '(h1, pos1) := HeapQ._siftup_loop cmp_lt fuel h pos in
  bubbling h1 pos1 ∧ (length h1 ≤ 2 * pos1 + 1)%nat ∧ ∀ y, y ∈ h1 → y ∈ h.
Proof.
  revert h pos. induction fuel as [|fuel IH]; intros h pos Hfuel Hb;
    cbn [HeapQ._siftup_loop].
  { destruct Hb as (Hpos & _). lia. }
  destruct (Nat.ltb_spec (2 * pos + 1) (length h)) as [Hchild|Hleaf];
    [|by split_and!].
  destruct Hb as (Hpos & Hedges & Hgrand).
  set (c := match h !! (2 * pos + 1)%nat, h !! (2 * pos + 1 + 1)%nat with
            | Some l, Some r => if negb (cmp_lt l r) then (2 * pos + 1 + 1)%nat
                                else (2 * pos + 1)%nat
            | _, _ => (2 * pos + 1)%nat
            end).
  assert ((c = 2 * pos + 1 ∨ c = 2 * pos + 2)%nat ∧ (c < length h)%nat
          ∧ ∀ a b j, h !! c = Some a → h !! j = Some b → (0 < j)%nat →
                     parent j = pos → heap_le a b) as (Hc & Hclt & Hcmin).
  { assert (∀ j, (0 < j)%nat → parent j = pos →
                 j = (2 * pos + 1)%nat ∨ j = (2 * pos + 1 + 1)%nat) as Hkids.
    { intros j Hj Ej. destruct (parent_spec j Hj); lia. }
    assert (∀ a, heap_le a a) as Hrefl by (intros a; by destruct (le_total a a)).
    subst c. destruct (h !! (2 * pos + 1)%nat) as [l|] eqn:Hl.
    2:{ apply lookup_ge_None in Hl. lia. }
    destruct (h !! (2 * pos + 1 + 1)%nat) as [r|] eqn:Hr.
    - destruct (cmp_lt l r) eqn:Hlr; cbn [negb].
      + split_and!; [lia|lia|]. intros a b j Ha Hb Hj Ej.
        destruct (Hkids j Hj Ej) as [->| ->]; simplify_eq; [done|by apply lt_le].
      + split_and!; [lia|by eapply lookup_lt_Some|]. intros a b j Ha Hb Hj Ej.
        destruct (Hkids j Hj Ej) as [->| ->]; simplify_eq; done.
    - split_and!; [lia|lia|]. intros a b j Ha Hb Hj Ej.
      destruct (Hkids j Hj Ej) as [->| ->]; simplify_eq; done. }
  destruct (h !! c) as [child|] eqn:Hchildv.
  2:{ apply lookup_ge_None in Hchildv. lia. }
  assert (parent c = pos) as Hpc.
  { assert (0 < c)%nat as Hc0 by lia. destruct (parent_spec c Hc0); lia. }
  specialize (IH (<[pos:=child]> h) c).
  destruct (HeapQ._siftup_loop cmp_lt fuel (<[pos:=child]> h) c) as [h1 pos1].
  destruct IH as (Hb1 & Hleaf1 & Hel1).
  - rewrite length_insert. lia.
  - split_and!.
    + by rewrite length_insert.
    + intros j Hj Hjc Hpjc a b Ha Hb.
      destruct (decide (j = pos)) as [->|Hjpos].
      * rewrite list_lookup_insert_eq in Hb by done. simplify_eq.
        pose proof (parent_lt pos Hj). rewrite list_lookup_insert_ne in Ha by lia.
        apply (Hgrand c a b); [done|lia|done..].
      * rewrite list_lookup_insert_ne in Hb by done.
        destruct (decide (parent j = pos)) as [Ej|Nj].
        -- rewrite Ej, list_lookup_insert_eq in Ha by done. simplify_eq.
           by apply (Hcmin a b j).
        -- rewrite list_lookup_insert_ne in Ha by done. by apply (Hedges j).
    + intros j g y Hc0 Hj Ej Hg Hy. rewrite Hpc, list_lookup_insert_eq in Hg by done.
      simplify_eq. assert (j ≠ pos) by (destruct (parent_spec j Hj); lia).
      rewrite list_lookup_insert_ne in Hy by done.
      apply (Hedges j Hj); [done|lia| |done]. by rewrite Ej.
  - split_and!; [done..|]. intros y Hy. apply Hel1 in Hy.
    apply elem_of_insert_inv in Hy as [->|Hy]; [|done].
    by eapply list_elem_of_lookup_2.
Qed.

Lemma heap_ok_front (h : list A) (x : A) : heap_ok (h ++ [x]) → heap_ok h.
Proof.
  intros Hheap j Hj a b Ha Hb. pose proof (parent_lt j Hj).
  apply lookup_lt_Some in Hb as Hlt.
  apply (Hheap j Hj); rewrite lookup_app_l by lia; done.
Qed.

(** [heappop] hands out the root, keeps the heap invariant, and leaves
    nothing in the heap that was not there. *)
Lemma heappop_ok (heap h' : list A) (x : A) :
  heap_ok heap → HeapQ.heappop cmp_lt heap = Some (x, h') →
  heap !! 0%nat = Some x ∧ heap_ok h' ∧ ∀ y, y ∈ h' → y ∈ heap.
Proof.
  intros Hheap. unfold HeapQ.heappop.
  destruct (reverse heap) as [|lastelt front] eqn:Erev; [done|].
  assert (heap = reverse front ++ [lastelt]) as ->.
  { rewrite <-(reverse_involutive heap), Erev. by rewrite reverse_cons. }
  apply heap_ok_front in Hheap as Hfront.
  destruct (reverse front) as [|ret rest] eqn:Efront.
  { intros [= <- <-]. split_and!; [done| |by intros y Hy%elem_of_nil].
    intros j _ a b _ Hb. done. }
  intros [= <- <-]. split; [done|]. cbn [insert list_insert].
  unfold HeapQ._siftup. cbn [lookup list_lookup].
  pose proof (siftup_loop_ok (length (lastelt :: rest)) (lastelt :: rest) 0) as Hup.
  destruct (HeapQ._siftup_loop cmp_lt (length (lastelt :: rest)) (lastelt :: rest) 0)
    as [h1 pos1].
  destruct Hup as ((Hpos1 & Hedges1 & Hgrand1) & Hleaf & Hel); [lia| |].
  { split_and!; [cbn; lia| |intros; lia].
    intros j Hj _ Hpar a b Ha Hb. apply (Hfront j Hj).
    - destruct (parent j) as [|k]; [done|]. exact Ha.
    - destruct j as [|k]; [lia|]. exact Hb. }
  assert (∀ j, (0 < j)%nat → parent j = pos1 → h1 !! j = None) as Hnokids.
  { intros j Hj Ej. apply lookup_ge_None. destruct (parent_spec j Hj); lia. }
  unfold HeapQ._siftdown. rewrite list_lookup_insert_eq by done. split.
  - apply siftdown_loop_ok; [rewrite length_insert; lia|]. split_and!.
    + by rewrite length_insert.
    + intros j Hj Hne a b. rewrite list_insert_insert_eq.
      destruct (decide (parent j = pos1)) as [Ej|Nj].
      * intros _ Hb. rewrite list_lookup_insert_ne, (Hnokids j Hj Ej) in Hb by done.
        done.
      * rewrite !list_lookup_insert_ne by done. by apply Hedges1.
    + intros j g y _ Hj Ej _ Hy.
      assert (j ≠ pos1) by (destruct (parent_spec j Hj); lia).
      rewrite list_lookup_insert_ne, (Hnokids j Hj Ej) in Hy by done. done.
  - intros y Hy. apply siftdown_loop_elems in Hy.
    assert (y = lastelt ∨ y ∈ h1) as [->|Hy1].
    { destruct Hy as [->|Hy]; [by left|]. by apply elem_of_insert_inv in Hy. }
    + apply elem_of_app. right. by apply list_elem_of_singleton.
    + apply Hel in Hy1. apply elem_of_cons in Hy1 as [->|Hy1].
      * apply elem_of_app. right. by apply list_elem_of_singleton.
      * apply elem_of_app. left. by right.
Qed.

End HeapFacts.

(** *** The order of the callouts *)

Lemma when_le_total (a b : option Controller.time) :
  Controller.when_le a b = true ∨ Controller.when_le b a = true.
Proof. destruct a, b; cbn; auto. lia. Qed.

Lemma when_le_trans (a b c : option Controller.time) :
  Controller.when_le a b = true → Controller.when_le b c = true →
  Controller.when_le a c = true.
Proof. destruct a, b, c; cbn; try done. lia. Qed.

Lemma heap_le_when c x y :
  heap_le (Controller.cmp_lt c) x y
  ↔ Controller.when_le (Controller.when_of c x) (Controller.when_of c y) = true.
Proof.
  unfold heap_le, Controller.cmp_lt. by destruct (Controller.when_le _ _).
Qed.

Lemma cmp_lt_total c x y :
  heap_le (Controller.cmp_lt c) x y ∨ heap_le (Controller.cmp_lt c) y x.
Proof. rewrite !heap_le_when. apply when_le_total. Qed.

Lemma cmp_lt_trans c x y z :
  heap_le (Controller.cmp_lt c) x y → heap_le (Controller.cmp_lt c) y z →
  heap_le (Controller.cmp_lt c) x z.
Proof. rewrite !heap_le_when. apply when_le_trans. Qed.

(** The queue is a heap by the times the timers stand at, and holds
    timers that exist. *)
Definition queue_ok (c : Controller.t) : Prop :=
  heap_ok (Controller.cmp_lt c) (Controller._schedq c)
  ∧ ∀ id, id ∈ Controller._schedq c → (id < Controller.allocated c)%nat.

Lemma heap_ok_same_times c c' (q : list nat) :
  (∀ id, id ∈ q → Controller.when_of c' id = Controller.when_of c id) →
  heap_ok (Controller.cmp_lt c) q → heap_ok (Controller.cmp_lt c') q.
Proof.
  intros Hsame Hheap j Hj a b Ha Hb. apply heap_le_when.
  rewrite !Hsame by (by eapply list_elem_of_lookup_2).
  apply heap_le_when. by apply (Hheap j Hj).
Qed.

(** The queue is in order, and no callout was made nor the loop
    started or stopped. *)
Definition queued (c c' : Controller.t) : Prop :=
  queue_ok c' ∧ Controller.fired c' = Controller.fired c
  ∧ Controller.running c' = Controller.running c.

(** Scheduling a callable: a new timer, pushed on the heap. *)
Lemma schedule_new_queue_ok clock callback at_ after c :
  queue_ok c →
  queued c (Controller.schedule clock (inr callback) at_ after c).1.
Proof.
  intros [Hheap Hids]. unfold Controller.schedule, bind at 1.
  cbn [Controller.time_time]. set (c1 := Controller.mk _ _ _ _ (S _) _).
  assert (queued c c1) as Hc1 by (by split).
  unfold bind at 1.
  destruct (match at_ with
            | Some a => ret a
            | None => match after with
                      | Some d =>
                          if d >=? 0 then ret (clock (Controller.ticks c) + d)
                          else raise AssertionError
                      | None => ret (clock (Controller.ticks c))
                      end
            end c1) as [c2 [e|when_]] eqn:Ewhen.
  { assert (c2 = c1) as ->; [|done].
    destruct at_; [by inversion Ewhen|]. destruct after; [|by inversion Ewhen].
    destruct (_ >=? 0); by inversion Ewhen. }
  assert (c2 = c1) as ->.
  { destruct at_; [by inversion Ewhen|]. destruct after; [|by inversion Ewhen].
    destruct (_ >=? 0); by inversion Ewhen. }
  unfold bind, Controller.push, modify, ret. cbn.
  split_and!; [|done..]. split; cbn.
  - apply heappush_ok; [apply cmp_lt_total|apply cmp_lt_trans|].
    eapply heap_ok_same_times; [|exact Hheap]. intros id Hid.
    unfold Controller.when_of. cbn. rewrite lookup_insert_ne; [done|].
    specialize (Hids id Hid). lia.
  - intros id Hid. apply heappush_elems in Hid as [->|Hid]; [lia|].
    specialize (Hids id Hid). lia.
Qed.

(** The callouts carry times that do not decrease. *)
Definition in_order (log : list Controller.Ctx) : Prop :=
  ∀ i j x y, (i ≤ j)%nat → log !! i = Some x → log !! j = Some y →
             Controller.ctx_when x ≤ Controller.ctx_when y.

Lemma in_order_snoc log z :
  in_order log →
  (∀ x, x ∈ log → Controller.ctx_when x ≤ Controller.ctx_when z) →
  in_order (log ++ [z]).
Proof.
  intros Hlog Hz i j x y Hij Hx Hy.
  apply lookup_app_Some in Hy as [Hy|[Hj Hy]].
  - apply lookup_lt_Some in Hy as Hlt.
    rewrite lookup_app_l in Hx by lia. by apply (Hlog i j).
  - apply list_lookup_singleton_Some in Hy as [_ <-].
    apply lookup_app_Some in Hx as [Hx|[Hi Hx]].
    + apply Hz. by eapply list_elem_of_lookup_2.
    + apply list_lookup_singleton_Some in Hx as [_ <-]. lia.
Qed.

(** The queue is a heap, the callouts made are in order, and none of
    them carries a later time than a queued timer stands at. *)
Definition ordered (c : Controller.t) : Prop :=
  queue_ok c
  ∧ in_order (Controller.fired c)
  ∧ ∀ x id, x ∈ Controller.fired c → id ∈ Controller._schedq c →
      Controller.when_le (Some (Controller.ctx_when x)) (Controller.when_of c id) = true.

Section QuietTimers.

Variable clock : nat → Controller.time.
Variable handler : Core.callee → Controller.Ctx → list Controller.action.

(** The callables leave the controller alone. *)
Hypothesis handler_quiet : ∀ cb ctx, handler cb ctx = [].

Lemma call_callbacks_quiet latched ctx c :
  Controller.call_callbacks clock handler latched ctx c = (c, inr tt).
Proof.
  induction latched as [|cb rest IH]; [done|].
  cbn [Controller.call_callbacks]. by rewrite handler_quiet.
Qed.

Lemma pop_ordered c :
  ordered c →
  ordered (Controller.pop c).1
  ∧ Controller.fired (Controller.pop c).1 = Controller.fired c
  ∧ (∀ id, Controller.when_of (Controller.pop c).1 id = Controller.when_of c id)
  ∧ ∀ top id, head (Controller._schedq c) = Some top →
      id ∈ Controller._schedq (Controller.pop c).1 →
      Controller.when_le (Controller.when_of c top) (Controller.when_of c id) = true.
Proof.
  intros ([Hheap Hids] & Hlog & Hbelow). unfold Controller.pop.
  destruct (HeapQ.heappop _ _) as [[x q']|] eqn:Epop.
  2:{ unfold HeapQ.heappop in Epop.
      destruct (reverse (Controller._schedq c)) as [|l f] eqn:Erev.
      - apply (f_equal reverse) in Erev. rewrite reverse_involutive in Erev.
        cbn [fst]. split_and!; [by split_and!|done|done|].
        intros top id Htop. by rewrite Erev in Htop.
      - by destruct (reverse f). }
  destruct (heappop_ok (Controller.cmp_lt c) (cmp_lt_total c) (cmp_lt_trans c)
              _ _ _ Hheap Epop) as (Hx & Hheap' & Hsub).
  cbn [fst]. split_and!; [|done|done|].
  - split_and!; [split|done|]; cbn.
    + exact Hheap'.
    + intros id Hid. by apply Hids, Hsub.
    + intros y id Hy Hid. by apply Hbelow, Hsub.
  - intros top id Htop Hid. cbn in Hid. apply Hsub in Hid.
    apply list_elem_of_lookup in Hid as [j Hj].
    assert (x = top) as ->.
    { destruct (Controller._schedq c); cbn in *; congruence. }
    apply heap_le_when.
    by apply (heap_root_least (Controller.cmp_lt c) (cmp_lt_total c) (cmp_lt_trans c)
                (Controller._schedq c) top Hheap Hx j id).
Qed.

Lemma dispatch_loop_ordered backstop c :
  ordered c → ordered (Controller._dispatch_loop clock handler backstop c).1.
Proof.
  revert c. induction backstop as [|n IH]; intros c Hc; cbn [Controller._dispatch_loop].
  { by destruct (Controller.running c), (Controller._schedq c). }
  destruct (Controller.running c); [|done].
  destruct (Controller._schedq c) as [|top q] eqn:Eq; [done|].
  destruct (Controller.when_of c top) as [w|] eqn:Ew.
  - unfold bind at 1. cbn [Controller.time_time].
    set (c1 := Controller.mk _ _ _ _ (S _) _).
    assert (ordered c1) as Hc1 by exact Hc.
    destruct (w >? clock (Controller.ticks c)); [done|].
    unfold bind at 1.
    destruct (pop_ordered c1 Hc1) as (Hc2 & Hf2 & Hw2 & Hleast).
    destruct (Controller.pop c1) as [c2 [e|[]]]; cbn [fst] in *; [done|].
    unfold bind at 1. unfold Controller.timer_callout. rewrite call_callbacks_quiet.
    apply IH. destruct Hc2 as (Hq2 & Hlog2 & Hbelow2). split_and!.
    + exact Hq2.
    + cbn. apply in_order_snoc; [done|]. intros x Hx. rewrite Hf2 in Hx.
      destruct Hc1 as (_ & _ & Hbelow1).
      specialize (Hbelow1 x top Hx). cbn in Hbelow1. rewrite Eq in Hbelow1.
      specialize (Hbelow1 (list_elem_of_here _ _)).
      change (Controller.when_of c1 top) with (Controller.when_of c top) in Hbelow1.
      rewrite Ew in Hbelow1. cbn in Hbelow1 |- *. lia.
    + cbn. intros x id Hx Hid. apply elem_of_app in Hx as [Hx|Hx].
      * by apply Hbelow2.
      * apply list_elem_of_singleton in Hx as ->. cbn.
        specialize (Hleast top id). cbn in Hleast. rewrite Eq in Hleast.
        specialize (Hleast eq_refl Hid).
        change (Controller.when_of c1 top) with (Controller.when_of c top) in Hleast.
        rewrite Ew in Hleast. change (Controller.when_of _ id)
          with (Controller.when_of c2 id). by rewrite Hw2.
  - unfold bind at 1. destruct (pop_ordered c Hc) as (Hc2 & _).
    destruct (Controller.pop c) as [c2 [e|[]]]; cbn [fst] in *; [done|].
    by apply IH.
Qed.

Lemma dispatch_ordered c :
  ordered c → ordered (Controller._dispatch clock handler c).1.
Proof. apply dispatch_loop_ordered. Qed.

Lemma passes_ordered n c : ordered c → ordered (passes clock handler n c).1.
Proof.
  revert c. induction n as [|n IH]; intros c Hc; [exact Hc|].
  change (passes clock handler (S n) c)
    with (bind (Controller._dispatch clock handler)
               (λ _, passes clock handler n) c).
  unfold bind. pose proof (dispatch_ordered c Hc) as Hd.
  destruct (Controller._dispatch clock handler c) as [c1 [e|u]].
  - exact Hd.
  - apply IH. exact Hd.
Qed.

End QuietTimers.

(** [schedule(callable, at, after)] for each entry in turn, as calls
    made before the loop runs; the AssertionError of a negative [after]
    is the caller's to catch. *)
Fixpoint schedule_all (clock : nat → Controller.time)
    (calls : list (Core.callee * option Controller.time * option Controller.time))
    (c : Controller.t) : Controller.t :=
  match calls with
  | [] => c
  | (callback, at_, after) :: rest =>
      schedule_all clock rest (Controller.schedule clock (inr callback) at_ after c).1
  end.

Lemma schedule_all_queued clock calls c :
  queue_ok c → queued c (schedule_all clock calls c).
Proof.
  revert c. induction calls as [|[[cb at_] after] rest IH]; intros c Hc; [by split|].
  cbn [schedule_all].
  destruct (schedule_new_queue_ok clock cb at_ after c Hc) as (Hq & Hf & Hr).
  destruct (IH _ Hq) as (Hq' & Hf' & Hr'). split_and!; [done|congruence..].
Qed.

(** X12.  Timers fire in the order of their times.  Callables are scheduled
    in any order, for absolute or relative times; none is cancelled and
    the callables leave the controller alone.  Then over any number of
    passes of the dispatch loop, whatever the clock reads, the callouts
    are made in the order of the times the timers were set for. *)
Theorem timers_fire_in_time_order
    (clock : nat → Controller.time)
    (handler : Core.callee → Controller.Ctx → list Controller.action)
    (calls : list (Core.callee * option Controller.time * option Controller.time))
    (n : nat) :
  (∀ cb ctx, handler cb ctx = []) →
  let c := Controller.set_running true (schedule_all clock calls Controller.init) in
  in_order (Controller.fired (passes clock handler n c).1).
Proof.
  intros Hquiet c.
  assert (ordered c) as Hc.
  { destruct (schedule_all_queued clock calls Controller.init) as (Hq & Hf & _).
    { split; [intros j Hj a b Ha; done|intros id Hid; by apply elem_of_nil in Hid]. }
    unfold c. split_and!.
    - exact Hq.
    - cbn. rewrite Hf. intros i j x y _ Hx. done.
    - cbn. rewrite Hf. intros x id Hx. by apply elem_of_nil in Hx. }
  by destruct (passes_ordered clock handler Hquiet n c Hc) as (_ & ? & _).
Qed.

Lemma timers_fire_in_time_order_witness :
  let c := Controller.set_running true
             (schedule_all (λ k, if (k <? 3)%nat then 100 else 125)
                [(0%nat, None, Some 10); (1%nat, None, Some 5); (2%nat, Some 120, None)]
                Controller.init) in
  in_order (Controller.fired
              (passes (λ k, if (k <? 3)%nat then 100 else 125) quiet 2 c).1).
Proof.
  apply (timers_fire_in_time_order (λ k, if (k <? 3)%nat then 100 else 125) quiet
           [(0%nat, None, Some 10); (1%nat, None, Some 5); (2%nat, Some 120, None)] 2).
  reflexivity.
Defined.

(** X19.  The timer queue loses and invents nothing, however its entries
    compare: after [heappush] the queue holds the item and the entries
    it held, each as often as before; [heappop] of a queue that is not
    empty hands out its first entry and leaves the others, each as
    often as before; and [heappop] of the empty queue fails. *)
Theorem timer_queue_keeps_its_entries {A : Type}
    (cmp_lt : A → A → bool) (heap : list A) (item : A) :
  HeapQ.heappush cmp_lt heap item ≡ₚ item :: heap
  ∧ match heap with
    | [] => HeapQ.heappop cmp_lt heap = None
    | top :: q => ∃ q', HeapQ.heappop cmp_lt heap = Some (top, q') ∧ q' ≡ₚ q
    end.
Proof.
  split; [apply heappush_entries|].
  destruct heap as [|top q]; [done|].
  pose proof (heappop_entries cmp_lt top q) as H.
  destruct (HeapQ.heappop cmp_lt (top :: q)) as [[x q']|]; [|done].
  destruct H as [-> H]. by exists q'.
Qed.

(** ** Descriptor objects: what [close()] leaves (asyn/selectable.py) *)

(** An object after its [close()]: the Controller given up; [io.close()]
    called unless the class has no [io] or the file is kept; the read
    buffer of a Stream thrown out. *)
Definition after_close (o : Selectable.obj) : Selectable.obj :=
  Selectable.mkObj (Selectable.cls o) false (Selectable._callbacks o)
    (Selectable.fileno o) (Selectable._keep_file o)
    (match Selectable.cls o with
     | Selectable.KSelectable => Selectable.io_closed o
     | _ => if Selectable._keep_file o then Selectable.io_closed o
            else S (Selectable.io_closed o)
     end)
    (match Selectable.cls o with
     | Selectable.KStream => Scan._flush_scan (Selectable.scannable o)
     | _ => Selectable.scannable o
     end)
    (Selectable._wbuf o) (Selectable._shutdown o).

Lemma close_effect w id o :
  registered w → Selectable.objects w !! id = Some o →
  Selectable.close id w
  = (Selectable.mkWorld
       (if Selectable.control o
        then delete (Selectable.fileno o) (Selectable._map w) else Selectable._map w)
       (<[id:=after_close o]> (Selectable.objects w))
       (Selectable.allocated w)
       (Selectable.emitted w
          ++ if Selectable.control o then [(id, CLOSE_call)] else []),
     inr tt).
Proof.
  intros Hw Ho. rewrite (close_by_class w id o Ho).
  assert (∃ w1 o1,
            Selectable.Selectable_close id w = (w1, inr tt)
            ∧ Selectable.objects w1 !! id = Some o1
            ∧ w1 = Selectable.mkWorld
                     (if Selectable.control o
                      then delete (Selectable.fileno o) (Selectable._map w)
                      else Selectable._map w)
                     (<[id:=Selectable.set_control false o]> (Selectable.objects w))
                     (Selectable.allocated w)
                     (Selectable.emitted w
                        ++ if Selectable.control o then [(id, CLOSE_call)] else [])
            ∧ o1 = Selectable.set_control false o) as (w1 & o1 & H1 & Ho1 & -> & ->).
  { destruct (Selectable.control o) eqn:Hc.
    - eexists _, _. split; [by apply Selectable_close_open|].
      cbn. rewrite lookup_alter_eq, Ho. split_and!; [done| |done].
      f_equal. apply map_eq. intros i. destruct (decide (i = id)) as [->|Hne].
      + by rewrite lookup_alter_eq, lookup_insert_eq, Ho.
      + by rewrite lookup_alter_ne, lookup_insert_ne.
    - eexists _, _. split; [by apply (Selectable_close_closed w id o)|].
      split; [exact Ho|]. split.
      + destruct w as [m objs a em]. cbn in *. rewrite app_nil_r. f_equal.
        apply map_eq. intros i. destruct (decide (i = id)) as [->|Hne].
        * rewrite lookup_insert_eq, Ho. f_equal. destruct o; cbn in *. by subst.
        * by rewrite lookup_insert_ne.
      + destruct o; cbn in *. by subst. }
  pose proof (IO_close_after w _ id _ H1 Ho1) as Hio.
  unfold after_close. destruct (Selectable.cls o) eqn:Hcls.
  - rewrite H1. do 2 f_equal. f_equal. destruct o; cbn in *. by subst.
  - rewrite Hio. cbn [Selectable._keep_file Selectable.set_control].
    destruct (Selectable._keep_file o) eqn:Hk.
    + do 2 f_equal. f_equal. destruct o; cbn in *. by subst.
    + unfold Selectable.update. cbn. do 2 f_equal.
      apply map_eq. intros i. destruct (decide (i = id)) as [->|Hne].
      * rewrite lookup_alter_eq, !lookup_insert_eq. cbn. f_equal.
        destruct o; cbn in *. by subst.
      * by rewrite lookup_alter_ne, !lookup_insert_ne.
  - unfold Selectable.Stream_close, bind. rewrite Hio.
    cbn [Selectable._keep_file Selectable.set_control].
    unfold Selectable.read_flush, modify, Selectable.update.
    destruct (Selectable._keep_file o) eqn:Hk; cbn; do 2 f_equal.
    + apply map_eq. intros i. destruct (decide (i = id)) as [->|Hne].
      * rewrite lookup_alter_eq, !lookup_insert_eq. cbn. f_equal.
        destruct o; cbn in *. by subst.
      * by rewrite lookup_alter_ne, !lookup_insert_ne.
    + apply map_eq. intros i. destruct (decide (i = id)) as [->|Hne].
      * rewrite !lookup_alter_eq, !lookup_insert_eq. cbn. f_equal.
        destruct o; cbn in *. by subst.
      * by rewrite !lookup_alter_ne, !lookup_insert_ne.
Qed.

Definition END_of (id : nat) : nat * Scan.call :=
  (id, Scan.mkCall (Core.ACtx Selectable.END) [] []).

(** X14.  The end of the input.  After any sequence of calls, a Stream
    that still has its Controller and whose read returns no bytes calls
    out [END] and then [CLOSE] and closes: its descriptor leaves the
    map, it gives the Controller up, [io.close()] is called unless the
    file is kept, and the read buffer is thrown out.  No exception
    comes of it.  The callables take note of the callouts and leave the
    objects alone. *)
Theorem end_of_input_closes
    (ops : list Selectable.op) (id : nat) (o : Selectable.obj) :
  let w := Selectable.run ops Selectable.init in
  Selectable.objects w !! id = Some o →
  Selectable.cls o = Selectable.KStream →
  Selectable.control o = true →
  Selectable._can_read id (inr []) w
  = (Selectable.mkWorld
       (delete (Selectable.fileno o) (Selectable._map w))
       (<[id:=after_close o]> (Selectable.objects w))
       (Selectable.allocated w)
       (Selectable.emitted w ++ [END_of id; (id, CLOSE_call)]),
     inr tt).
Proof.
  intros w Ho _ Hc. assert (registered w) as Hw by apply run_registered, init_registered.
  set (w1 := Selectable.mkWorld (Selectable._map w) (Selectable.objects w)
               (Selectable.allocated w) (Selectable.emitted w ++ [END_of id])).
  assert (Selectable._can_read id (inr []) w = Selectable.close id w1) as ->.
  { unfold Selectable._can_read, bind, Selectable.self. rewrite Ho. reflexivity. }
  assert (registered w1) as Hw1.
  { eapply quiet_step_registered; [exact Hw|].
    apply (callout_silent id (Scan.mkCall (Core.ACtx Selectable.END) [] []) CLOSE_state w). }
  rewrite (close_effect w1 id o Hw1 Ho), Hc. cbn. by rewrite <-app_assoc.
Qed.

Lemma end_of_input_closes_witness :
  let w := Selectable.run [Selectable.New Selectable.KStream 5 (Some 0%nat)]
             Selectable.init in
  Selectable._can_read 0 (inr []) w
  = (Selectable.mkWorld (delete 5 (Selectable._map w))
       (<[0%nat:=after_close
                   (Selectable.mkObj Selectable.KStream true [0%nat] 5 false 0
                      Scan.Scannable_init [] false)]> (Selectable.objects w))
       (Selectable.allocated w)
       (Selectable.emitted w ++ [END_of 0; (0%nat, CLOSE_call)]),
     inr tt).
Proof.
  exact (end_of_input_closes [Selectable.New Selectable.KStream 5 (Some 0%nat)] 0
           (Selectable.mkObj Selectable.KStream true [0%nat] 5 false 0
              Scan.Scannable_init [] false) eq_refl eq_refl eq_refl).
Defined.

(** *** The descriptor map and shut-down streams *)

(** Every entry of the map is an object that still has its Controller,
    under its own descriptor; only a Stream is ever marked as shut down;
    and, the object [skip] apart, a marked object that still has its
    Controller has bytes left to write. *)
Definition tidy_but (skip : option nat) (w : Selectable.world) : Prop :=
  (∀ fd id, Selectable._map w !! fd = Some id →
     ∃ o, Selectable.objects w !! id = Some o
          ∧ Selectable.control o = true ∧ Selectable.fileno o = fd)
  ∧ ∀ id o, Selectable.objects w !! id = Some o → Selectable._shutdown o = true →
      Selectable.cls o = Selectable.KStream
      ∧ (Some id ≠ skip → Selectable.control o = true → Selectable._wbuf o ≠ []).

Definition tidy : Selectable.world → Prop := tidy_but None.

Lemma tidy_weaken id w : tidy w → tidy_but (Some id) w.
Proof.
  intros [Hmap Hsh]. split; [done|]. intros id' o Ho Hs.
  destruct (Hsh id' o Ho Hs) as [? H]. split; [done|]. intros _. by apply H.
Qed.

Lemma tidy_settled id w :
  tidy_but (Some id) w →
  (∀ o, Selectable.objects w !! id = Some o → Selectable._shutdown o = true →
        Selectable.control o = true → Selectable._wbuf o ≠ []) →
  tidy w.
Proof.
  intros [Hmap Hsh] Hid. split; [done|]. intros id' o Ho Hs.
  destruct (Hsh id' o Ho Hs) as [? H]. split; [done|]. intros _ Hc.
  destruct (decide (id' = id)) as [->|Hne]; [by apply (Hid o)|].
  apply H; [congruence|done].
Qed.

Lemma tidy_callout skip id c w :
  tidy_but skip w → tidy_but skip (Selectable.callout id c w).1.
Proof.
  unfold Selectable.callout. by destruct (Scan.Callable_callout c []) as [log r].
Qed.

Lemma tidy_update id f w :
  (∀ o, Selectable.control (f o) = Selectable.control o
        ∧ Selectable.fileno (f o) = Selectable.fileno o
        ∧ Selectable.cls (f o) = Selectable.cls o) →
  (∀ o, Selectable.objects w !! id = Some o → Selectable._shutdown (f o) = true →
        Selectable.cls o = Selectable.KStream) →
  tidy_but (Some id) w → tidy_but (Some id) (Selectable.update id f w).
Proof.
  intros Hf Hcls [Hmap Hsh]. split.
  - intros fd id' Hfd. cbn in Hfd |- *. destruct (Hmap fd id' Hfd) as (o & Ho & Hc & Hfn).
    destruct (decide (id' = id)) as [->|Hne].
    + exists (f o). rewrite lookup_alter_eq, Ho. destruct (Hf o) as (-> & -> & _). done.
    + exists o. by rewrite lookup_alter_ne.
  - intros id' o' Ho' Hs. cbn in Ho'. destruct (decide (id' = id)) as [->|Hne].
    + rewrite lookup_alter_eq in Ho'.
      destruct (Selectable.objects w !! id) as [o|] eqn:Ho; [|done].
      injection Ho' as <-. destruct (Hf o) as (_ & _ & ->).
      split; [by apply Hcls|]. by intros [].
    + rewrite lookup_alter_ne in Ho' by done. by apply Hsh.
Qed.

Lemma tidy_close id w :
  registered w → tidy_but (Some id) w → tidy (Selectable.close id w).1.
Proof.
  intros Hw Ht. destruct (Selectable.objects w !! id) as [o|] eqn:Ho.
  2:{ unfold Selectable.close, bind, Selectable.self. rewrite Ho. cbn.
      apply (tidy_settled id); [done|]. intros o. by rewrite Ho. }
  rewrite (close_effect w id o Hw Ho). cbn [fst]. destruct Ht as [Hmap Hsh]. split.
  - intros fd id' Hfd. cbn in Hfd |- *.
    assert (Selectable._map w !! fd = Some id'
            ∧ (Selectable.control o = true → fd ≠ Selectable.fileno o)) as [Hfd' Hne].
    { destruct (Selectable.control o); [|done].
      apply lookup_delete_Some in Hfd as [? ?]. done. }
    destruct (Hmap fd id' Hfd') as (o' & Ho' & Hc' & Hfn').
    exists o'. split; [|done]. rewrite lookup_insert_ne; [done|].
    intros <-. rewrite Ho in Ho'. injection Ho' as <-. by apply Hne.
  - intros id' o' Ho' Hs. cbn in Ho'. destruct (decide (id' = id)) as [->|Hne].
    + rewrite lookup_insert_eq in Ho'. injection Ho' as <-. cbn in Hs |- *.
      split; [by apply (Hsh id o)|]. done.
    + rewrite lookup_insert_ne in Ho' by done.
      destruct (Hsh id' o' Ho' Hs) as [? H]. split; [done|]. intros _.
      apply H. congruence.
Qed.

Definition kept_tidy {A} (m : M Selectable.world A) : Prop :=
  ∀ w, registered w → tidy w → tidy (m w).1.

Lemma tidy_can_write id r w :
  registered w → tidy_but (Some id) w → tidy (Selectable._can_write id r w).1.
Proof.
  intros Hw Ht. unfold Selectable._can_write, bind at 1, Selectable.self at 1.
  destruct (Selectable.objects w !! id) as [o|] eqn:Ho.
  2:{ cbn. apply (tidy_settled id); [done|]. intros o. by rewrite Ho. }
  assert (∀ w1 o1,
            registered w1 → tidy_but (Some id) w1 →
            Selectable.objects w1 !! id = Some o1 →
            tidy ((do o0 <~ Selectable.self id;
                   match Selectable._wbuf o0 with
                   | [] => if Selectable._shutdown o0 then Selectable.close id else ret ()
                   | _ :: _ => ret ()
                   end) w1).1) as Htail.
  { intros w1 o1 Hw1 Ht1 Ho1. unfold bind, Selectable.self. rewrite Ho1.
    destruct (Selectable._wbuf o1) eqn:Eb.
    - destruct (Selectable._shutdown o1) eqn:Es; [by apply tidy_close|].
      cbn. apply (tidy_settled id); [done|]. intros o'. rewrite Ho1. intros [= <-]. congruence.
    - cbn. apply (tidy_settled id); [done|]. intros o'. rewrite Ho1. intros [= <-]. congruence. }
  destruct (Selectable._wbuf o) as [|b wbuf] eqn:Eb, r as [errno|written].
  - unfold bind at 1. cbn [ret]. by apply (Htail w o).
  - unfold bind at 1. cbn [ret]. by apply (Htail w o).
  - assert (tidy w) as Htw.
    { apply (tidy_settled id); [done|]. intros o'. rewrite Ho. intros [= <-]. congruence. }
    destruct (errno =? Selectable.EAGAIN); [done|].
    unfold bind, Selectable.callout_error.
    pose proof (tidy_callout None id
                  (Scan.mkCall (Core.ACtx (Core.Error_of (OSError errno))) [] []) w Htw) as H.
    by destruct (Selectable.callout id _ w) as [w1 [e|v]].
  - unfold bind at 1. cbn [modify fst snd].
    set (f := Selectable.set_wbuf (slice_from (b :: wbuf) (Z.of_nat written))).
    assert (registered (Selectable.update id f w)) as Hw1.
    { by apply (silent_keeps _ (update_silent id f (λ _, eq_refl)) w). }
    assert (tidy_but (Some id) (Selectable.update id f w)) as Ht1.
    { apply tidy_update; [done| |done]. intros o'. rewrite Ho. intros [= <-] Hs.
      by apply (proj2 Ht id o Ho). }
    apply (Htail _ (f o)); [done..|]. cbn. by rewrite lookup_alter_eq, Ho.
Qed.

Lemma tidy_new k fd c w : registered w → tidy w → tidy (Selectable.new k fd c w).1.
Proof.
  intros Hw [Hmap Hsh]. unfold Selectable.new, Selectable.insert, bind, Selectable.self.
  cbn. rewrite lookup_insert_eq. cbn.
  destruct (Selectable._map w !! fd) as [other|] eqn:Hfd; [done|]. cbn.
  pose proof (proj1 Hw (Selectable.allocated w) (le_n _)) as Hnone. split.
  - intros fd' id' Hfd'. cbn in Hfd' |- *. destruct (decide (fd' = fd)) as [->|Hne].
    + rewrite lookup_insert_eq in Hfd'. injection Hfd' as <-.
      eexists. by rewrite lookup_insert_eq.
    + rewrite lookup_insert_ne in Hfd' by done.
      destruct (Hmap fd' id' Hfd') as (o & Ho & Hc & Hfn). exists o.
      split; [|done]. rewrite lookup_insert_ne; [done|]. intros <-. congruence.
  - intros id' o' Ho' Hs. cbn in Ho'.
    destruct (decide (id' = Selectable.allocated w)) as [->|Hne].
    + rewrite lookup_insert_eq in Ho'. by injection Ho' as <-.
    + rewrite lookup_insert_ne in Ho' by done. by apply Hsh.
Qed.

Lemma tidy_update_plain id f w :
  (∀ o, Selectable.control (f o) = Selectable.control o
        ∧ Selectable.fileno (f o) = Selectable.fileno o
        ∧ Selectable.cls (f o) = Selectable.cls o
        ∧ Selectable._shutdown (f o) = Selectable._shutdown o
        ∧ Selectable._wbuf (f o) = Selectable._wbuf o) →
  tidy w → tidy (Selectable.update id f w).
Proof.
  intros Hf Ht. apply (tidy_settled id).
  - apply tidy_update; [intros o; by destruct (Hf o) as (? & ? & ? & _)| |by apply tidy_weaken].
    intros o Ho Hs. destruct (Hf o) as (_ & _ & _ & Hs' & _). rewrite Hs' in Hs.
    by apply (proj2 Ht id o Ho).
  - intros o' Ho'. cbn in Ho'. rewrite lookup_alter_eq in Ho'.
    destruct (Selectable.objects w !! id) as [o|] eqn:Ho; [|done]. injection Ho' as <-.
    destruct (Hf o) as (-> & _ & _ & -> & ->). intros Hs Hc.
    by apply (proj2 Ht id o Ho).
Qed.

Lemma tidy_step o w : registered w → tidy w → tidy (Selectable.step o w).1.
Proof.
  intros Hw Ht. destruct o; cbn [Selectable.step].
  - unfold bind. pose proof (tidy_new k fd callout w Hw Ht) as H.
    by destruct (Selectable.new k fd callout w) as [w1 [e|v]].
  - by apply tidy_close, tidy_weaken.
  - unfold Selectable.shutdown, bind at 1, Selectable.self at 1.
    destruct (Selectable.objects w !! id) as [o|] eqn:Ho; [|done].
    destruct (Selectable.cls o) eqn:Hcls; try by apply tidy_close, tidy_weaken.
    unfold bind. cbn [modify fst snd]. apply tidy_can_write.
    + by apply (silent_keeps _ (update_silent id (Selectable.set_shutdown true)
                                  (λ _, eq_refl)) w).
    + apply tidy_update; [done| |by apply tidy_weaken].
      intros o'. rewrite Ho. by intros [= <-].
  - unfold Selectable.keep_file, bind, Selectable.self.
    destruct (Selectable.objects w !! id) as [o|] eqn:Ho; [|done].
    by apply tidy_update_plain.
  - unfold Selectable.add_callout, bind, Selectable.self.
    destruct (Selectable.objects w !! id) as [o|] eqn:Ho; [|done].
    by apply tidy_update_plain.
  - unfold Selectable._can_read, bind at 1, Selectable.self at 1.
    destruct (Selectable.objects w !! id) as [o|] eqn:Ho; [|done].
    destruct os_read as [errno|[|b input]].
    + unfold bind, Selectable.callout_error.
      pose proof (tidy_callout None id
                    (Scan.mkCall (Core.ACtx (Core.Error_of (OSError errno))) [] []) w Ht) as H.
      by destruct (Selectable.callout id _ w) as [w1 [e|v]].
    + unfold Selectable._null_read, bind.
      pose proof (tidy_callout None id
                    (Scan.mkCall (Core.ACtx Selectable.END) [] []) w Ht) as H.
      pose proof (silent_keeps _ (callout_silent id
                    (Scan.mkCall (Core.ACtx Selectable.END) [] []) CLOSE_state) w Hw) as H'.
      destruct (Selectable.callout id _ w) as [w1 [e|v]]; [done|].
      by apply tidy_close, tidy_weaken.
    + pose proof (scan_keeps id (b :: input) w Hw) as _.
      unfold Selectable._scan, bind, Selectable.self. rewrite Ho.
      destruct (proj2 (proj2 Hw) id o Ho) as [Hscan _].
      unfold Scan._scan, Scan._scan_fuel. rewrite Hscan.
      cbn [Scan._scan_loop Scan._rbuf Scan.scan].
      destruct (Scan._rbuf (Selectable.scannable o) ++ b :: input) as [|b' rest] eqn:Eb.
      * cbn. by apply tidy_update_plain.
      * pose proof (tidy_callout None id
                      (Scan.mkCall (Core.ACtx Scan.RAW) [PStr (b' :: rest)] []) w Ht) as H.
        unfold Selectable.callout in *. cbn in *. by apply tidy_update_plain.
  - by apply tidy_can_write, tidy_weaken.
  - unfold Selectable.write, bind at 1, Selectable.self at 1.
    destruct (Selectable.objects w !! id) as [o|] eqn:Ho; [|done].
    unfold bind. cbn [modify fst snd]. apply tidy_can_write.
    + by apply (silent_keeps _ (update_silent id
                                  (Selectable.set_wbuf (Selectable._wbuf o ++ whatever))
                                  (λ _, eq_refl)) w).
    + apply tidy_update; [done| |by apply tidy_weaken].
      intros o'. rewrite Ho. intros [= <-] Hs. by apply (proj2 Ht id o Ho).
Qed.

Lemma run_tidy ops w :
  registered w → tidy w → tidy (Selectable.run ops w).
Proof.
  revert w. induction ops as [|o ops IH]; intros w Hw Ht; [done|].
  cbn. apply IH; [by apply step_keeps|by apply tidy_step].
Qed.

Lemma init_tidy : tidy Selectable.init.
Proof.
  split.
  - intros fd id H. cbn in H. by rewrite lookup_empty in H.
  - intros id o H. cbn in H. by rewrite lookup_empty in H.
Qed.

(** X15.  After any sequence of constructions, closes, shutdowns, reads and
    writes, the Controller's map holds exactly the objects that still
    have their Controller, each under its own descriptor: no entry is
    left behind by a close, and none is missing. *)
Theorem map_holds_the_open_objects (ops : list Selectable.op) (fd : Z) (id : nat) :
  let w := Selectable.run ops Selectable.init in
  Selectable._map w !! fd = Some id
  ↔ ∃ o, Selectable.objects w !! id = Some o
         ∧ Selectable.control o = true ∧ Selectable.fileno o = fd.
Proof.
  intros w. split.
  - apply (run_tidy ops _ init_registered init_tidy).
  - intros (o & Ho & Hc & <-).
    destruct (run_registered ops _ init_registered) as (_ & _ & Hobj).
    destruct (Hobj id o Ho) as [_ H]. fold w in H. rewrite Hc in H. by destruct H.
Qed.



(** The same stream when the rest of the queue goes out: it closes. *)
Example shut_down_stream_closes_when_drained :
  let w := Selectable.run
             [Selectable.New Selectable.KStream 5 (Some 0%nat);
              Selectable.Write 0 (bs "hello") (inl Selectable.EAGAIN);
              Selectable.Shutdown 0 (inr 2%nat);
              Selectable.CanWrite 0 (inr 3%nat)] Selectable.init in
  map snd (Selectable.emitted w) = [CLOSE_call] ∧ Selectable._map w = ∅.
Proof. split; reflexivity. Qed.

(** ** Injection: what the two threads can reach (asyn/inject.py) *)

(** The call gives [inject_wait] something to see: it raises an
    exception that [except Exception] catches, or returns a value other
    than [None]. *)
Definition telling (outcome : exn + pyval) : bool :=
  match outcome with
  | inl e => is_Exception e
  | inr v => negb (is_None v)
  end.

(** The reply as it stands before the call and after it. *)
Definition reply_of (outcome : exn + pyval) (executed : nat) : option exn * pyval :=
  match executed, outcome with
  | O, _ => (None, PNone)
  | _, inl e => if is_Exception e then (Some e, PNone) else (None, PNone)
  | _, inr v => (None, v)
  end.

Definition posted (c : Inject.caller_at) : nat :=
  match c with
  | Inject.CStart | Inject.CLocked => 0
  | _ => 1
  end.

Definition in_runner (r : Inject.reactor_at) : nat :=
  match r with
  | Inject.RRunner | Inject.RCalling => 1
  | _ => 0
  end.

(** Where the threads can be together: the lock is held by the thread
    that is inside its [with] block; the one runner is in the queue, in
    the reactor's hands, or has made the call; the pipe holds a byte as
    long as the reactor has not read it; each thread is where the
    other's progress lets it be; and the reactor is gone only after a
    call that gave nothing to see, with the caller waiting. *)
Definition together (tells : bool) (s : Inject.state) : bool :=
  let c := Inject.caller s in
  let r := Inject.reactor s in
  let n := Inject.executed s in
  match Inject.lock s with
  | Some Inject.Caller =>
      match c with Inject.CLocked | Inject.CTest => true | _ => false end
  | Some Inject.Reactor =>
      match r with
      | Inject.RCalling | Inject.RNotify | Inject.RRelease => true
      | _ => false
      end
  | None =>
      match c with Inject.CLocked | Inject.CTest => false | _ => true end
      && match r with
         | Inject.RCalling | Inject.RNotify | Inject.RRelease => false
         | _ => true
         end
  end
  && match r with
     | Inject.RCalling =>
         match c with Inject.CWaiting => true | _ => false end
     | Inject.RNotify =>
         match c with Inject.CWaiting => (n =? 1)%nat | _ => false end
     | Inject.RRunner =>
         match c with Inject.CTest | Inject.CWaiting => true | _ => false end
     | Inject.RRelease =>
         match c with Inject.CWoken => true | _ => false end
     | Inject.RGone =>
         match c with Inject.CWaiting => negb tells && (n =? 1)%nat | _ => false end
     | _ => true
     end
  && match c with
     | Inject.CStart | Inject.CLocked =>
         match r with Inject.RSelect => true | _ => false end
     | Inject.CTest => true
     | Inject.CWaiting =>
         match r with Inject.RNotify => true | _ => false end
         || negb tells || (n =? 0)%nat
     | Inject.CWoken => (n =? 1)%nat
     | Inject.CUnlocked | Inject.CReturned _ | Inject.CRaised _ => tells && (n =? 1)%nat
     end
  && (Inject._q s + in_runner r + n =? posted c)%nat
  && match r with
     | Inject.RSelect => (Inject.pipe s =? Inject._q s)%nat
     | _ => (Inject.pipe s =? 0)%nat
     end.

Definition sound (outcome : exn + pyval) (s : Inject.state) : Prop :=
  together (telling outcome) s = true
  ∧ (Inject.reply_error s, Inject.reply_value s) = reply_of outcome (Inject.executed s)
  ∧ match Inject.caller s with
    | Inject.CReturned v => outcome = inr v
    | Inject.CRaised e => outcome = inl e
    | _ => True
    end.

Ltac together_cases Ht q p n :=
  unfold together in Ht; cbn in Ht; try discriminate Ht;
  destruct n as [|[|n]]; cbn in Ht; try discriminate Ht;
  destruct q as [|[|q]]; cbn in Ht; try discriminate Ht;
  destruct p as [|[|p]]; cbn in Ht; try discriminate Ht.

Lemma sound_step outcome s s' :
  sound outcome s → Inject.step outcome s s' → sound outcome s'.
Proof.
  intros (Ht & Hr & Hc) Hstep. unfold sound.
  destruct Hstep as [s s' Hs|s s' Hs]; destruct s as [c r l q p e v n];
    cbn in Hr, Hc;
    (destruct outcome as [x|w];
     [destruct (is_Exception x) eqn:Ew|destruct (is_None w) eqn:Ew]);
    cbn [telling negb] in *; rewrite ?Ew in *; cbn [negb] in *.
  all: destruct c, r, l as [[]|]; together_cases Ht q p n.
  all: first [unfold Inject.caller_step in Hs|unfold Inject.reactor_step in Hs];
    cbn in Hr; rewrite ?Ew in *; simplify_eq; cbn in Hs; rewrite ?Ew in *;
    cbn in Hs; simplify_eq; cbn; rewrite ?Ew; by split_and!.
Qed.

Lemma reachable_sound outcome s : Inject.reachable outcome s → sound outcome s.
Proof.
  induction 1 as [|s s' _ IH Hstep]; [|by eapply sound_step].
  split_and!; [|done..]. by destruct (telling outcome).
Qed.

(** X17.  Whatever the call does and however the two threads are scheduled:
    the call is made at most once, and only while the calling thread
    sits in [cond.wait()]; when [inject_wait] returns a value, the call
    was made and returned that value, which is not [None]; when it
    raises, the call was made and raised that exception. *)
Theorem inject_wait_gives_what_the_call_gave
    (outcome : exn + pyval) (s : Inject.state) :
  Inject.reachable outcome s →
  (Inject.executed s ≤ 1)%nat
  ∧ (Inject.reactor s = Inject.RCalling → Inject.caller s = Inject.CWaiting)
  ∧ match Inject.caller s with
    | Inject.CReturned v => outcome = inr v ∧ v ≠ PNone ∧ Inject.executed s = 1%nat
    | Inject.CRaised e => outcome = inl e ∧ Inject.executed s = 1%nat
    | _ => True
    end.
Proof.
  intros Hs. destruct (reachable_sound outcome s Hs) as (Ht & Hr & Hc).
  destruct s as [c r l q p e v n]. cbn in Hr, Hc |- *.
  destruct (telling outcome) eqn:Etell.
  all: destruct c, r, l as [[]|]; together_cases Ht q p n.
  all: split_and!; try done; try lia; subst outcome; cbn in Etell; by destruct v0.
Qed.

Lemma inject_wait_gives_what_the_call_gave_witness :
  let s := Inject.run (inr (PStr (bs "wallaby!"))) (wait_run_wait ++ [Inject.Caller])
             Inject.initial in
  (Inject.executed s ≤ 1)%nat
  ∧ (Inject.reactor s = Inject.RCalling → Inject.caller s = Inject.CWaiting)
  ∧ match Inject.caller s with
    | Inject.CReturned v =>
        inr (PStr (bs "wallaby!")) = @inr exn pyval v ∧ v ≠ PNone
        ∧ Inject.executed s = 1%nat
    | Inject.CRaised e =>
        inr (PStr (bs "wallaby!")) = @inl exn pyval e ∧ Inject.executed s = 1%nat
    | _ => True
    end.
Proof.
  apply (inject_wait_gives_what_the_call_gave (inr (PStr (bs "wallaby!")))).
  apply run_reachable, Inject.reach_initial.
Defined.

(** X18.  A call that raises an exception that [except Exception]
    catches, or returns a value other than [None], never leaves the two
    threads stuck: in every state they can reach, either [inject_wait]
    has come back or one of the threads can move. *)
Theorem inject_wait_of_a_telling_call_is_never_stuck
    (outcome : exn + pyval) (s : Inject.state) :
  telling outcome = true →
  Inject.reachable outcome s →
  Inject.done s = false →
  Inject.stuck outcome s = false.
Proof.
  intros Etell Hs Hdone. destruct (reachable_sound outcome s Hs) as (Ht & Hr & Hc).
  rewrite Etell in Ht. destruct s as [c r l q p e v n]. cbn in Hr, Hc.
  destruct c, r, l as [[]|]; together_cases Ht q p n; try discriminate Hdone.
  all: destruct outcome as [x|w]; cbn in Hr, Etell; rewrite ?Etell in Hr;
    simplify_eq; try done;
    unfold Inject.stuck, Inject.caller_step, Inject.reactor_step; cbn;
    rewrite ?Etell; try done; by destruct (is_None w).
Qed.

Lemma inject_wait_of_a_telling_call_is_never_stuck_witness :
  Inject.stuck (inl KeyError)
    (Inject.run (inl KeyError) wait_run_wait Inject.initial) = false.
Proof.
  apply (inject_wait_of_a_telling_call_is_never_stuck (inl KeyError)).
  - reflexivity.
  - apply run_reachable, Inject.reach_initial.
  - reflexivity.
Defined.

(** X20.  A call that raises an exception that is no [Exception]
    ([SystemExit], [KeyboardInterrupt]) passes [except Exception] in
    [runner] and in [_can_read]: in no state that the two threads can
    reach has [inject_wait] come back, and they can reach the state in
    which the reactor has made the call and left the loop of [run],
    nothing was put into the reply, nobody holds the lock, the caller
    waits on the condition, and neither thread can move. *)
Theorem inject_wait_of_an_exiting_call_never_returns (e : exn) :
  is_Exception e = false →
  (∀ s, Inject.reachable (inl e) s → Inject.done s = false)
  ∧ let s := Inject.run (inl e) wait_run_wait Inject.initial in
    Inject.reachable (inl e) s
    ∧ Inject.caller s = Inject.CWaiting ∧ Inject.reactor s = Inject.RGone
    ∧ Inject.lock s = None
    ∧ Inject.reply_error s = None ∧ Inject.reply_value s = PNone
    ∧ Inject.executed s = 1%nat
    ∧ Inject.stuck (inl e) s = true.
Proof.
  intros He. split.
  - intros s Hs. destruct (reachable_sound _ s Hs) as (Ht & _ & _).
    destruct s as [c r l q p e' v n]. cbn [telling] in Ht. rewrite He in Ht.
    unfold together in Ht. cbn in Ht. unfold Inject.done. cbn.
    destruct c; try done; rewrite !andb_false_r in Ht; cbn in Ht;
      rewrite ?andb_false_r in Ht; done.
  - split; [apply run_reachable, Inject.reach_initial|].
    destruct e; try discriminate He; by split_and!.
Qed.

Lemma inject_wait_of_an_exiting_call_never_returns_witness :
  (∀ s, Inject.reachable (inl SystemExit) s → Inject.done s = false)
  ∧ let s := Inject.run (inl SystemExit) wait_run_wait Inject.initial in
    Inject.reachable (inl SystemExit) s
    ∧ Inject.caller s = Inject.CWaiting ∧ Inject.reactor s = Inject.RGone
    ∧ Inject.lock s = None
    ∧ Inject.reply_error s = None ∧ Inject.reply_value s = PNone
    ∧ Inject.executed s = 1%nat
    ∧ Inject.stuck (inl SystemExit) s = true.
Proof.
  apply (inject_wait_of_an_exiting_call_never_returns SystemExit). reflexivity.
Defined.
